(** * MongoCopy: the replication engine of [src/core/copyService.js]

    A shallow embedding of [copyCollections] and [copyIndexesToTarget],
    together with the part of their environment they talk to: two MongoDB
    endpoints, the file system used by the JSON export/import modes, the
    progress bar and the logger; and of the command line of
    [src/cli/index.js] that calls the engine, with what it takes from
    [src/utils/config/env.js] and [src/utils/prompt.js].

    The program is asynchronous but strictly sequential (every call is
    awaited), so it is modelled as a state-and-exception monad over a
    [world].  Loops whose termination depends on the batch size carry a
    fuel argument; running out of fuel is the outcome [Diverge]. *)

From Stdlib Require Import Ascii.
From stdpp Require Import gmap strings list fin_maps pretty.


(** ** Documents, queries, index definitions *)

(** BSON / JSON scalar values.  [VDate] carries milliseconds since the
    epoch, [VOid] stands for a driver-generated ObjectId. Nested documents
    and arrays play no role in the engine and are left out. *)
Inductive value :=
  | VNull
  | VBool (b : bool)
  | VNum (z : Z)
  | VStr (s : string)
  | VDate (t : Z)
  | VOid (n : nat).

#[global] Instance value_eq_dec : EqDecision value.
Proof. solve_decision. Defined.

(** A document is a JS object: a finite map from field names to values. *)
Abbreviation doc := (gmap string value).

(** [doc._id] *)
Definition doc_id (d : doc) : option value := d !! "_id".

(** The filter objects the engine builds: [{}] and
    [{ [timestampField]: { $gte: since } }]. *)
Inductive query :=
  | QAll
  | QGte (field : string) (since : Z).

(** [$gte] against a date only matches date-valued fields; a document
    lacking the field never matches. *)
Definition matches (q : query) (d : doc) : bool :=
  match q with
  | QAll => true
  | QGte f s =>
      match d !! f with
      | Some (VDate t) => bool_decide (s ≤ t)%Z
      | _ => false
      end
  end.

(** An index description as returned by [col.indexes()]: [key], [name] and
    the remaining properties (among them the internal [v] and [ns]). *)
Record index := Index {
  idx_key : list (string * Z);
  idx_name : string;
  idx_options : gmap string value;
}.

#[global] Instance index_eq_dec : EqDecision index.
Proof. solve_decision. Defined.

Record collection := Collection {
  c_docs : list doc;
  c_indexes : list index;
}.

(** ** The world *)

Inductive side := Src | Tgt.

(** Content of a file after [JSON.parse(fs.readFileSync(..))]: an array of
    documents, an array of index descriptions, or text that does not
    parse. Serialisation is taken to be lossless. *)
Inductive file :=
  | FDocs (l : list doc)
  | FIndexes (l : list index)
  | FBad.

Inductive event :=
  | EvConnect (s : side)
  | EvClose (s : side)
  | EvInsertOne (name : string) (d : doc)
  | EvDeleteOne (name : string) (id : value)
  | EvDeleteMany (name : string)
  | EvInsertMany (name : string) (batch : list doc)
  | EvBulkWrite (name : string) (batch : list doc)
  | EvCreateIndex (name : string) (i : index)
  | EvBarStart (total : nat) (name : string)
  | EvBarUpdate (n : nat)
  | EvBarStop
  | EvWarn (msg : string).

(** The part of the world the engine only reads: whether each endpoint
    accepts connections, the source database (collections in listing
    order) and the document validators installed on the target.  The
    source and the target are distinct databases, nobody else writes to
    either of them while the engine runs, and every write the target
    accepts is acknowledged. *)
Record environment := Environment {
  src_up : bool;
  tgt_up : bool;
  source : list (string * collection);
  validator : string → doc → bool;
}.

Record world := World {
  env : environment;
  tgt_docs : gmap string (list doc);
  tgt_indexes : gmap string (list index);
  next_oid : nat;
  files : gmap string file;
  dirs : gset string;
  src_open : bool;
  tgt_open : bool;
  trace : list event;
}.

Definition set_tgt_docs (f : gmap string (list doc) → gmap string (list doc)) (w : world) : world :=
  World (env w) (f (tgt_docs w)) (tgt_indexes w) (next_oid w) (files w) (dirs w)
        (src_open w) (tgt_open w) (trace w).
Definition set_tgt_indexes (f : gmap string (list index) → gmap string (list index)) (w : world) : world :=
  World (env w) (tgt_docs w) (f (tgt_indexes w)) (next_oid w) (files w) (dirs w)
        (src_open w) (tgt_open w) (trace w).
Definition set_next_oid (n : nat) (w : world) : world :=
  World (env w) (tgt_docs w) (tgt_indexes w) n (files w) (dirs w)
        (src_open w) (tgt_open w) (trace w).
Definition set_files (f : gmap string file → gmap string file) (w : world) : world :=
  World (env w) (tgt_docs w) (tgt_indexes w) (next_oid w) (f (files w)) (dirs w)
        (src_open w) (tgt_open w) (trace w).
Definition set_dirs (f : gset string → gset string) (w : world) : world :=
  World (env w) (tgt_docs w) (tgt_indexes w) (next_oid w) (files w) (f (dirs w))
        (src_open w) (tgt_open w) (trace w).
Definition set_open (s : side) (b : bool) (w : world) : world :=
  match s with
  | Src => World (env w) (tgt_docs w) (tgt_indexes w) (next_oid w) (files w) (dirs w)
                 b (tgt_open w) (trace w)
  | Tgt => World (env w) (tgt_docs w) (tgt_indexes w) (next_oid w) (files w) (dirs w)
                 (src_open w) b (trace w)
  end.
Definition emit (e : event) (w : world) : world :=
  World (env w) (tgt_docs w) (tgt_indexes w) (next_oid w) (files w) (dirs w)
        (src_open w) (tgt_open w) (trace w ++ [e]).

(** Documents of a source collection ([[]] when it does not exist). *)
Definition source_docs (w : world) (name : string) : list doc :=
  match list_find (λ p, p.1 = name) (source (env w)) with
  | Some (_, (_, c)) => c_docs c
  | None => []
  end.

Definition source_indexes (w : world) (name : string) : list index :=
  match list_find (λ p, p.1 = name) (source (env w)) with
  | Some (_, (_, c)) => c_indexes c
  | None => []
  end.

(** Documents of a target collection; a collection that was never written
    is empty. *)
Definition target_docs (w : world) (name : string) : list doc :=
  default [] (tgt_docs w !! name).

Definition target_indexes (w : world) (name : string) : list index :=
  default [] (tgt_indexes w !! name).

(** ** The monad: state, exceptions, divergence *)

Inductive outcome (A : Type) :=
  | Ok (a : A) (w : world)
  | Throw (msg : string) (w : world)
  | Diverge.
Arguments Ok {A} a w.
Arguments Throw {A} msg w.
Arguments Diverge {A}.

Definition M (A : Type) : Type := world → outcome A.

Definition ret {A} (a : A) : M A := λ w, Ok a w.
Definition throw {A} (msg : string) : M A := λ w, Throw msg w.
Definition diverge {A} : M A := λ _, Diverge.

Definition bind {A B} (m : M A) (k : A → M B) : M B :=
  λ w, match m w with
       | Ok a w' => k a w'
       | Throw msg w' => Throw msg w'
       | Diverge => Diverge
       end.

(** [try { m } catch (err) { h err.message }] *)
Definition try_catch {A} (m : M A) (h : string → M A) : M A :=
  λ w, match m w with
       | Ok a w' => Ok a w'
       | Throw msg w' => h msg w'
       | Diverge => Diverge
       end.

(** [try { m } finally { c }]: [c] runs on both exits; an exception of [m]
    is rethrown after [c] unless [c] itself throws. *)
Definition try_finally {A} (m : M A) (c : M unit) : M A :=
  λ w, match m w with
       | Ok a w' =>
           match c w' with
           | Ok _ w'' => Ok a w''
           | Throw msg w'' => Throw msg w''
           | Diverge => Diverge
           end
       | Throw msg w' =>
           match c w' with
           | Ok _ w'' => Throw msg w''
           | Throw msg' w'' => Throw msg' w''
           | Diverge => Diverge
           end
       | Diverge => Diverge
       end.

Notation "'let*' x ':=' c 'in' k" := (bind c (λ x, k))
  (at level 10, x name, c at level 100, k at level 200).
Notation "c '>>' k" := (bind c (λ _, k))
  (at level 180, k at level 200, right associativity).

Definition when (b : bool) (m : M unit) : M unit := if b then m else ret tt.
Definition log (e : event) : M unit := λ w, Ok tt (emit e w).

(** The world an outcome ends in, when it ends. *)
Definition final_world {A} (r : outcome A) : option world :=
  match r with
  | Ok _ w => Some w
  | Throw _ w => Some w
  | Diverge => None
  end.

(** ** The MongoDB driver, as far as the engine uses it *)

(** First document with identity [k]; deleting and replacing it. The
    [_id] index makes identities unique inside a collection, so "first"
    is "the" document in every reachable store. *)
Fixpoint find_id (k : value) (docs : list doc) : option doc :=
  match docs with
  | [] => None
  | d :: rest => if decide (doc_id d = Some k) then Some d else find_id k rest
  end.

Fixpoint remove_id (k : value) (docs : list doc) : list doc :=
  match docs with
  | [] => []
  | d :: rest => if decide (doc_id d = Some k) then rest else d :: remove_id k rest
  end.

Fixpoint replace_id (k : value) (d' : doc) (docs : list doc) : list doc :=
  match docs with
  | [] => []
  | d :: rest =>
      if decide (doc_id d = Some k) then d' :: rest else d :: replace_id k d' rest
  end.

(** The driver gives a document without [_id] a fresh ObjectId. *)
Definition with_id (d : doc) (w : world) : doc * value * world :=
  match doc_id d with
  | Some k => (d, k, w)
  | None =>
      let k := VOid (next_oid w) in
      (<["_id" := k]> d, k, set_next_oid (S (next_oid w)) w)
  end.

Definition msg_validation : string := "Document failed validation".
Definition msg_duplicate : string := "E11000 duplicate key error".
Definition msg_empty_batch : string := "Invalid BulkOperation, Batch cannot be empty".
Definition msg_refused : string := "connect ECONNREFUSED".
Definition msg_index : string := "Index conflict".
Definition msg_enoent : string := "ENOENT: no such file or directory".
Definition msg_json : string := "Unexpected token in JSON".

(** One insert on the server: the validator of the collection and the
    unique [_id] index decide; on success the identity is returned. *)
Definition store_insert (name : string) (d : doc) (w : world) : (string + value) * world :=
  let '(d', k, w1) := with_id d w in
  if negb (validator (env w1) name d') then (inl msg_validation, w1)
  else match find_id k (target_docs w1 name) with
       | Some _ => (inl msg_duplicate, w1)
       | None => (inr k, set_tgt_docs <[name := target_docs w1 name ++ [d']]> w1)
       end.

(** One [replaceOne { filter: {_id}, replacement, upsert: true }]. A
    replacement without [_id] matches nothing and is inserted. *)
Definition store_upsert (name : string) (d : doc) (w : world) : option string * world :=
  match doc_id d with
  | None =>
      match store_insert name d w with
      | (inr _, w1) => (None, w1)
      | (inl msg, w1) => (Some msg, w1)
      end
  | Some k =>
      if negb (validator (env w) name d) then (Some msg_validation, w)
      else
        let docs := target_docs w name in
        let docs' := match find_id k docs with
                     | Some _ => replace_id k d docs
                     | None => docs ++ [d]
                     end in
        (None, set_tgt_docs <[name := docs']> w)
  end.

(** Unordered execution: every operation of the batch is attempted, the
    first error is remembered and raised after the last operation. *)
Fixpoint unordered (op : doc → world → option string * world) (batch : list doc)
    (err : option string) (w : world) : option string * world :=
  match batch with
  | [] => (err, w)
  | d :: rest =>
      let '(e, w1) := op d w in
      unordered op rest (match err with Some _ => err | None => e end) w1
  end.

Definition raise_after (r : option string * world) : outcome unit :=
  match r with
  | (None, w) => Ok tt w
  | (Some msg, w) => Throw msg w
  end.

Definition insertOne (name : string) (d : doc) : M value := λ w,
  match store_insert name d (emit (EvInsertOne name d) w) with
  | (inr k, w1) => Ok k w1
  | (inl msg, w1) => Throw msg w1
  end.

Definition deleteOne (name : string) (k : value) : M unit := λ w,
  let w0 := emit (EvDeleteOne name k) w in
  Ok tt (set_tgt_docs <[name := remove_id k (target_docs w0 name)]> w0).

(** [deleteMany({})] *)
Definition deleteMany (name : string) : M unit := λ w,
  Ok tt (set_tgt_docs <[name := []]> (emit (EvDeleteMany name) w)).

(** [insertMany(batch, { ordered: false })] *)
Definition insertMany (name : string) (batch : list doc) : M unit := λ w,
  let w0 := emit (EvInsertMany name batch) w in
  match batch with
  | [] => Throw msg_empty_batch w0
  | _ =>
      raise_after
        (unordered (λ d w, match store_insert name d w with
                           | (inr _, w1) => (None, w1)
                           | (inl msg, w1) => (Some msg, w1)
                           end) batch None w0)
  end.

(** [bulkWrite(batch.map(doc => ({ replaceOne: { filter: { _id: doc._id },
    replacement: doc, upsert: true } })), { ordered: false })] *)
Definition bulkWrite (name : string) (batch : list doc) : M unit := λ w,
  let w0 := emit (EvBulkWrite name batch) w in
  match batch with
  | [] => Throw msg_empty_batch w0
  | _ => raise_after (unordered (store_upsert name) batch None w0)
  end.

(** [createIndex(key, { ...options, name })]: an identical index is left
    alone, one that clashes in name or key is refused. *)
Definition createIndex (name : string) (key : list (string * Z))
    (opts : gmap string value) (iname : string) : M unit := λ w,
  let i := Index key iname opts in
  let w0 := emit (EvCreateIndex name i) w in
  let existing := target_indexes w0 name in
  if bool_decide (i ∈ existing) then Ok tt w0
  else if existsb (λ j, bool_decide (idx_name j = iname ∨ idx_key j = key)) existing
       then Throw msg_index w0
       else Ok tt (set_tgt_indexes <[name := existing ++ [i]]> w0).

(** Reads on the source. *)
Definition listCollections : M (list string) := λ w,
  Ok (map fst (source (env w))) w.

Definition find (name : string) (q : query) : M (list doc) := λ w,
  Ok (filter (λ d, matches q d) (source_docs w name)) w.

Definition countDocuments (name : string) (q : query) : M nat := λ w,
  Ok (length (filter (λ d, matches q d) (source_docs w name))) w.

Definition findOne (name : string) (q : query) : M (option doc) := λ w,
  Ok (head (filter (λ d, matches q d) (source_docs w name))) w.

Definition indexes (name : string) : M (list index) := λ w,
  Ok (source_indexes w name) w.

(** Connections. *)
Definition endpoint_up (s : side) (w : world) : bool :=
  match s with Src => src_up (env w) | Tgt => tgt_up (env w) end.

Definition connect (s : side) : M unit := λ w,
  let w0 := emit (EvConnect s) w in
  if endpoint_up s w then Ok tt (set_open s true w0) else Throw msg_refused w0.

Definition close (s : side) : M unit := λ w,
  Ok tt (set_open s false (emit (EvClose s) w)).

(** The file system. *)
Definition path_join (dir file : string) : string := dir +:+ "/" +:+ file.

Definition existsSync (p : string) : M bool := λ w,
  Ok (bool_decide (is_Some (files w !! p)) || bool_decide (p ∈ dirs w)) w.

Definition mkdirSync (p : string) : M unit := λ w,
  Ok tt (set_dirs (λ ds, {[p]} ∪ ds) w).

Definition unlinkSync (p : string) : M unit := λ w,
  Ok tt (set_files (delete p) w).

Definition writeFileSync (p : string) (f : file) : M unit := λ w,
  Ok tt (set_files <[p := f]> w).

Definition read_docs (p : string) : M (list doc) := λ w,
  match files w !! p with
  | Some (FDocs l) => Ok l w
  | Some _ => Throw msg_json w
  | None => Throw msg_enoent w
  end.

Definition read_indexes (p : string) : M (list index) := λ w,
  match files w !! p with
  | Some (FIndexes l) => Ok l w
  | Some _ => Throw msg_json w
  | None => Throw msg_enoent w
  end.

(** ** The engine *)

(** The options object of [copyCollections]. The two URIs and the database
    name select the endpoints, which the [environment] stands for.
    [collections = None] is a [null] list. [batchSize] is a non-negative
    integer. [since] is a date or [null]. *)
Record options := Options {
  collections : option (list string);
  dryRun : bool;
  batchSize : nat;
  exportJson : bool;
  importJson : bool;
  outputDir : string;
  showProgress : bool;
  copyIndexes : bool;
  validateSchema : bool;
  incremental : bool;
  timestampField : string;
  since : option Z;
}.

(** One element of the returned summary. *)
Record entry := Entry {
  e_name : string;
  e_copied : nat;
  e_total : nat;
  e_status : string;
  e_error : option string;
}.

(** [progressBar] is an object exactly when [showProgress] is set. *)
Definition bar (o : options) (e : event) : M unit := when (showProgress o) (log e).

(** [let query = {}; if (incremental && since) query[timestampField] = { $gte: since }] *)
Definition build_query (o : options) : query :=
  match since o with
  | Some s => if incremental o then QGte (timestampField o) s else QAll
  | None => QAll
  end.

(** [if (!collections || collections.length === 0) collections = allNames;
     else collections = collections.filter((c) => allNames.includes(c))] *)
Definition resolve_collections (requested : option (list string)) (allNames : list string)
    : list string :=
  match requested with
  | None | Some [] => allNames
  | Some cs => filter (λ c, c ∈ allNames) cs
  end.

(** [copyIndexesToTarget] *)
Fixpoint create_each (name : string) (idxs : list index) : M unit :=
  match idxs with
  | [] => ret tt
  | i :: rest =>
      try_catch
        (createIndex name (idx_key i) (delete "ns" (delete "v" (idx_options i))) (idx_name i))
        (λ msg, log (EvWarn ("Could not create index " +:+ idx_name i +:+ ": " +:+ msg)))
      >> create_each name rest
  end.

Definition copyIndexesToTarget (name : string) (idxs : list index) : M unit :=
  create_each name (filter (λ i, idx_name i ≠ "_id_") idxs).

(** The body of the [try] of the schema validation: a test insert of the
    sample with a marker field, deleted again by [insertedId]. Writes are
    acknowledged under the default write concern. *)
Definition schema_probe (name : string) (q : query) : M unit :=
  let* sampleDoc := findOne name q in
  match sampleDoc with
  | Some sd =>
      let* insertedId := insertOne name (<["_validationTest" := VBool true]> sd) in
      deleteOne name insertedId
  | None => ret tt
  end.

(** [for (let i = 0; i < batchSize && (await cursor.hasNext()); i++)
      batch.push(await cursor.next())], counting down what is left of
    [batchSize]. *)
Fixpoint fill_batch (n : nat) (batch cursor : list doc) : list doc * list doc :=
  match n, cursor with
  | S n', d :: rest => fill_batch n' (batch ++ [d]) rest
  | _, _ => (batch, cursor)
  end.

(** The [while (await cursor.hasNext())] loop of the full copy. *)
Fixpoint full_copy_loop (fuel : nat) (o : options) (name : string)
    (cursor : list doc) (copied : nat) {struct fuel} : M nat :=
  match cursor with
  | [] => ret copied
  | _ :: _ =>
      match fuel with
      | 0 => diverge
      | S fuel' =>
          let '(batch, cursor') := fill_batch (batchSize o) [] cursor in
          match batch with
          | [] => full_copy_loop fuel' o name cursor' copied
          | _ :: _ =>
              insertMany name batch >>
              bar o (EvBarUpdate (copied + length batch)) >>
              full_copy_loop fuel' o name cursor' (copied + length batch)
          end
      end
  end.

(** The [while] loop of the incremental copy; [batch.length = 0] empties
    the accumulator. Returns the accumulator and the count. *)
Fixpoint upsert_loop (o : options) (name : string) (cursor batch : list doc)
    (copied : nat) : M (list doc * nat) :=
  match cursor with
  | [] => ret (batch, copied)
  | d :: rest =>
      let batch := batch ++ [d] in
      if batchSize o <=? length batch then
        bulkWrite name batch >>
        bar o (EvBarUpdate (copied + length batch)) >>
        upsert_loop o name rest [] (copied + length batch)
      else upsert_loop o name rest batch copied
  end.

Definition incremental_copy (o : options) (name : string) (cursor : list doc) : M nat :=
  let* r := upsert_loop o name cursor [] 0 in
  if 0 <? length r.1 then
    bulkWrite name r.1 >>
    bar o (EvBarUpdate (r.2 + length r.1)) >>
    ret (r.2 + length r.1)
  else ret r.2.

(** [for (let i = 0; i < json.length; i += batchSize)] of the import, with
    the write of one chunk as a parameter. *)
Fixpoint import_loop (fuel : nat) (o : options) (write : list doc → M unit)
    (json : list doc) (i : nat) {struct fuel} : M unit :=
  if i <? length json then
    match fuel with
    | 0 => diverge
    | S fuel' =>
        let chunk := take (batchSize o) (drop i json) in
        write chunk >>
        bar o (EvBarUpdate (i + length chunk)) >>
        import_loop fuel' o write json (i + batchSize o)
    end
  else ret tt.

Definition import_json (fuel : nat) (o : options) (name : string) : M entry :=
  let filePath := path_join (outputDir o) (name +:+ ".json") in
  let* present := existsSync filePath in
  if negb present then
    bar o EvBarStop >> ret (Entry name 0 0 "no-json-file" None)
  else
    let* json := read_docs filePath in
    if length json =? 0 then
      bar o EvBarStop >> ret (Entry name 0 0 "json-empty" None)
    else
      (if incremental o then import_loop fuel o (bulkWrite name) json 0
       else deleteMany name >> import_loop fuel o (insertMany name) json 0) >>
      when (copyIndexes o)
        (let indexFilePath := path_join (outputDir o) (name +:+ "_indexes.json") in
         let* ipresent := existsSync indexFilePath in
         if ipresent then
           let* idxs := read_indexes indexFilePath in copyIndexesToTarget name idxs
         else ret tt) >>
      bar o EvBarStop >>
      ret (Entry name (length json) (length json) "imported-json" None).

(** The [while] loop of the export. *)
Fixpoint export_loop (o : options) (cursor allDocs : list doc) (docCount : nat)
    : M (list doc) :=
  match cursor with
  | [] => ret allDocs
  | d :: rest =>
      bar o (EvBarUpdate (S docCount)) >>
      export_loop o rest (allDocs ++ [d]) (S docCount)
  end.

Definition export_json (o : options) (name : string) (q : query) (total : nat) : M entry :=
  let* cursor := find name q in
  let filePath := path_join (outputDir o) (name +:+ ".json") in
  let* present := existsSync filePath in
  when present (unlinkSync filePath) >>
  let* allDocs := export_loop o cursor [] 0 in
  writeFileSync filePath (FDocs allDocs) >>
  when (copyIndexes o)
    (let* idxs := indexes name in
     writeFileSync (path_join (outputDir o) (name +:+ "_indexes.json")) (FIndexes idxs)) >>
  bar o EvBarStop >>
  ret (Entry name (length allDocs) total "exported-json" None).

Definition live_copy (fuel : nat) (o : options) (name : string) (q : query) (total : nat)
    : M entry :=
  let* cursor := find name q in
  let* copied :=
    (if incremental o then incremental_copy o name cursor
     else deleteMany name >> full_copy_loop fuel o name cursor 0) in
  when (copyIndexes o) (let* idxs := indexes name in copyIndexesToTarget name idxs) >>
  bar o EvBarStop >>
  ret (Entry name copied total (if incremental o then "incremental-copied" else "copied") None).

(** The body of [for (const name of collections)]. Every [continue] after
    a [summary.push] is a return of the pushed entry. The [catch] of the
    schema validation hands its message over as [Some]. *)
Definition process_collection (fuel : nat) (o : options) (name : string) : M entry :=
  let query := build_query o in
  let* total := countDocuments name query in
  if total =? 0 then
    ret (Entry name 0 total (if incremental o then "no-new-docs" else "empty") None)
  else
    let* failed :=
      (if validateSchema o && negb (dryRun o) && negb (exportJson o) then
         try_catch (schema_probe name query >> ret None) (λ msg, ret (Some msg))
       else ret None) in
    match failed with
    | Some msg => ret (Entry name 0 total "schema-validation-failed" (Some msg))
    | None =>
        if dryRun o then ret (Entry name 0 total "dry-run" None)
        else
          when (0 <? total) (bar o (EvBarStart total name)) >>
          if importJson o then import_json fuel o name
          else if exportJson o then export_json o name query total
          else live_copy fuel o name query total
    end.

(** The [for] loop with its [summary]. *)
Fixpoint run_collections (fuel : nat) (o : options) (names : list string)
    (summary : list entry) : M (list entry) :=
  match names with
  | [] => ret summary
  | name :: rest =>
      let* e := process_collection fuel o name in
      run_collections fuel o rest (summary ++ [e])
  end.

(** What stands inside [try { ... }]. *)
Definition run_body (fuel : nat) (o : options) : M (list entry) :=
  let* allNames := listCollections in
  let cols := resolve_collections (collections o) allNames in
  when (exportJson o)
    (let* present := existsSync (outputDir o) in
     when (negb present) (mkdirSync (outputDir o))) >>
  run_collections fuel o cols [].

Definition copyCollections (fuel : nat) (o : options) : M (list entry) :=
  connect Src >>
  connect Tgt >>
  try_finally (run_body fuel o)
              (bar o EvBarStop >> close Src >> close Tgt).

(** ** Reference definitions the claims are compared with *)



(** The batches written to collection [name], in the order of the trace. *)
Definition batch_of (name : string) (e : event) : option (list doc) :=
  match e with
  | EvInsertMany n b | EvBulkWrite n b => if decide (n = name) then Some b else None
  | _ => None
  end.

Definition batches_of (name : string) (tr : list event) : list (list doc) :=
  omap (batch_of name) tr.

(** Operations that write to the target database. *)
Definition target_write (e : event) : bool :=
  match e with
  | EvInsertOne _ _ | EvDeleteOne _ _ | EvDeleteMany _
  | EvInsertMany _ _ | EvBulkWrite _ _ | EvCreateIndex _ _ => true
  | _ => false
  end.

Definition connection_event (e : event) : bool :=
  match e with
  | EvConnect _ | EvClose _ => true
  | _ => false
  end.

(** Source documents selected by the options' query. *)
Definition matched (o : options) (w : world) (name : string) : list doc :=
  filter (λ d, matches (build_query o) d) (source_docs w name).

(** Every source document carries an [_id], unique in its collection. *)
Definition source_wf (w : world) : Prop :=
  ∀ name, Forall (λ d, is_Some (doc_id d)) (source_docs w name)
          ∧ NoDup (doc_id <$> source_docs w name).

(** The sample of the schema validation with its marker field. *)
Definition marked (sd : doc) : doc := <["_validationTest" := VBool true]> sd.

(** The resolved sequence as the specification words it: the source's
    collections that were requested, in the source's listing order. *)
Definition resolve_in_listing_order (requested : option (list string))
    (allNames : list string) : list string :=
  match requested with
  | None | Some [] => allNames
  | Some cs => filter (λ c, c ∈ cs) allNames
  end.

(** An invariant kept by a computation on both exits. *)
Definition preserves {A} (I : world → Prop) (m : M A) : Prop :=
  ∀ w, I w → match m w with
             | Ok _ w' | Throw _ w' => I w'
             | Diverge => True
             end.

(** A computation that returns normally from every state of [I]. *)
Definition returns {A} (I : world → Prop) (m : M A) : Prop :=
  ∀ w, I w → ∃ a w', m w = Ok a w' ∧ I w'.


(** A store operation on collection [name] changes nothing but the
    documents of that collection (and the ObjectId counter). *)
Definition only_docs (name : string) (w w' : world) : Prop :=
  env w' = env w ∧ tgt_indexes w' = tgt_indexes w ∧ files w' = files w ∧
  dirs w' = dirs w ∧ src_open w' = src_open w ∧ tgt_open w' = tgt_open w ∧
  trace w' = trace w ∧ ∀ n, n ≠ name → target_docs w' n = target_docs w n.


(** The rest of the loop body once the schema validation is behind. *)
Definition transfer (fuel : nat) (o : options) (name : string) (total : nat) : M entry :=
  if dryRun o then ret (Entry name 0 total "dry-run" None)
  else
    when (0 <? total) (bar o (EvBarStart total name)) >>
    if importJson o then import_json fuel o name
    else if exportJson o then export_json o name (build_query o) total
    else live_copy fuel o name (build_query o) total.

(** One upsert on a list of documents. *)
Definition upsert1 (docs : list doc) (d : doc) : list doc :=
  match doc_id d with
  | Some k =>
      match find_id k docs with
      | Some _ => replace_id k d docs
      | None => docs ++ [d]
      end
  | None => docs
  end.

(** One insert of an unordered [insertMany]. *)
Definition insert_op (name : string) : doc → world → option string * world :=
  λ d w, match store_insert name d w with
         | (inr _, w1) => (None, w1)
         | (inl msg, w1) => (Some msg, w1)
         end.

(** [w1] differs from [w] in no document of the target and in no part of
    the environment; its trace extends that of [w]. *)
Definition quiet (w w1 : world) : Prop :=
  env w1 = env w ∧ (∀ n, target_docs w1 n = target_docs w n)
  ∧ ∃ post, trace w1 = trace w ++ post.

(** The entry a dry run records for a collection. *)
Definition dry_entry (o : options) (w : world) (name : string) : entry :=
  let total := length (matched o w name) in
  Entry name 0 total
    (if total =? 0 then (if incremental o then "no-new-docs" else "empty") else "dry-run")
    None.

(** Every outcome with a result satisfies [P]. *)
Definition yields {A} (P : A → Prop) (m : M A) : Prop :=
  ∀ w a w', m w = Ok a w' → P a.

(** The state in which the [try] block of [copyCollections] starts. *)
Definition connected (w : world) : world :=
  set_open Tgt true (emit (EvConnect Tgt) (set_open Src true (emit (EvConnect Src) w))).

(** Inside the [try] block: same environment, same connections, and only
    events that are neither a connect nor a close. *)
Definition session (w0 w : world) : Prop :=
  env w = env w0 ∧ src_open w = src_open w0 ∧ tgt_open w = tgt_open w0
  ∧ ∃ mid, trace w = trace w0 ++ mid ∧ Forall (λ e, connection_event e = false) mid.

(** The result of an outcome, when it has one. *)
Definition result_of {A} (r : outcome A) : option A :=
  match r with
  | Ok a _ => Some a
  | _ => None
  end.

(** ** Sample data *)

Definition sample_doc (i t : Z) : doc :=
  <["_id" := VNum i]> (<["ts" := VDate t]> ∅).

Definition sample_docs : list doc :=
  [sample_doc 1 10; sample_doc 2 20; sample_doc 3 30].

Definition sample_source : list (string * collection) :=
  [("a", Collection sample_docs []); ("b", Collection [sample_doc 7 5] [])].

Definition accept_all : string → doc → bool := λ _ _, true.

(** A validator on the target that refuses every document of [a]. *)
Definition refuse_a : string → doc → bool := λ n _, negb (String.eqb n "a").


Definition sample_world (up_src up_tgt : bool) (src : list (string * collection))
    (v : string → doc → bool) (tgt : gmap string (list doc)) (fs : gmap string file)
    : world :=
  World (Environment up_src up_tgt src v) tgt ∅ 0 fs ∅ false false [].

(** Both endpoints up, the sample source, an empty target. *)
Definition fresh_world : world := sample_world true true sample_source accept_all ∅ ∅.

(** The same with documents already in the target collection [a]. *)
Definition used_world : world :=
  sample_world true true sample_source accept_all
    {[ "a" := [sample_doc 2 0; sample_doc 99 0] ]} ∅.

(** The options' defaults, with a batch size of 2 and an explicit (empty)
    list of collections. *)
Definition default_options : options :=
  Options (Some []) false 2 false false "./backup" true false false false "_updatedAt" None.

Definition with_flags (dry exp imp idx val inc : bool) (cs : option (list string))
    (s : option Z) : options :=
  Options cs dry 2 exp imp "./backup" true idx val inc "ts" s.

(** The world a completed default run leaves behind. *)
Definition synced_world : world :=
  match copyCollections 5 default_options fresh_world with
  | Ok _ w => w
  | _ => fresh_world
  end.

(** Options of a live full copy with schema validation. *)
Definition validating_options : options :=
  with_flags false false false false true false (Some []) None.

(** Options of a dry run. *)
Definition dry_options : options :=
  with_flags true false false false false false (Some []) None.

(** A source with an empty collection. *)
Definition sparse_world : world :=
  sample_world true true
    [("a", Collection sample_docs []); ("c", Collection [] [])] accept_all ∅ ∅.

(** The target refuses the documents of [a]. *)
Definition refusing_world : world := sample_world true true sample_source refuse_a ∅ ∅.

(** The target endpoint is down. *)
Definition half_world : world := sample_world true false sample_source accept_all ∅ ∅.

(** The document [d0] that the target collection [n0] of [w0] holds under
    the identity [k] is still there in [w], replaced at most by another
    document of that identity, and untouched when [untouched] holds. *)
Definition kept (w0 : world) (n0 : string) (k : value) (d0 : doc) (untouched : Prop)
    (w : world) : Prop :=
  env w = env w0 ∧ is_Some (find_id k (target_docs w n0))
  ∧ (untouched → find_id k (target_docs w n0) = Some d0).

(** The schema probe of [name] fails in [w]: the validator refuses the
    marked sample, or the sample's identity is taken. *)
Definition probe_rejects (w : world) (name : string) (sd : doc) : Prop :=
  validator (env w) name (marked sd) = false
  ∨ is_Some (find_id (default VNull (doc_id sd)) (target_docs w name)).

(** Every selected source document is accepted by the target and already
    stored there under its identity. *)
Definition in_sync (o : options) (w : world) (name : string) : Prop :=
  ∀ d, d ∈ matched o w name →
       validator (env w) name d = true
       ∧ ∃ k, doc_id d = Some k ∧ find_id k (target_docs w name) = Some d.

(** States in which processing [name] once more changes no document. *)
Definition settled (o : options) (w : world) (name : string) : Prop :=
  matched o w name = [] ∨ dryRun o = true ∨ exportJson o = true
  ∨ (validateSchema o = true
     ∧ ∃ sd, head (matched o w name) = Some sd ∧ probe_rejects w name sd)
  ∨ in_sync o w name.

(** Same environment, same documents in every target collection. *)
Definition same_docs (w w1 : world) : Prop :=
  env w1 = env w ∧ ∀ n, target_docs w1 n = target_docs w n.

(** The world an outcome ends in, or [w] when it does not end. *)
Definition world_after {A} (r : outcome A) (w : world) : world :=
  default w (final_world r).

(** Options of a live incremental run, without and with schema validation. *)
Definition incremental_options : options :=
  with_flags false false false false false true (Some []) None.


(** Options of an incremental JSON import, of a plain JSON import, and of
    a JSON import with schema validation. *)
Definition incremental_import_options : options :=
  with_flags false false true false false true (Some []) None.

Definition import_options : options :=
  with_flags false false true false false false (Some []) None.

Definition validating_import_options : options :=
  with_flags false false true false true false (Some []) None.


(** An export of [a] that holds another version of document 99, next to
    a target that holds document 99. *)
Definition restore_world : world :=
  sample_world true true sample_source accept_all
    {[ "a" := [sample_doc 99 0] ]}
    {[ path_join "./backup" "a.json" := FDocs [sample_doc 99 1] ]}.

(** The export of [a] is an empty array. *)
Definition emptied_world : world :=
  sample_world true true sample_source accept_all ∅
    {[ path_join "./backup" "a.json" := FDocs [] ]}.







(** ** Reference definitions for the index copy and the JSON modes *)

(** [const { key, name, ...options } = index; delete options.v;
    delete options.ns]: the index [copyIndexesToTarget] asks for. *)
Definition stripped (i : index) : index :=
  Index (idx_key i) (idx_name i) (delete "ns" (delete "v" (idx_options i))).

(** The indexes [copyIndexesToTarget] asks for, in order. *)
Definition wanted (idxs : list index) : list index :=
  stripped <$> filter (λ i, idx_name i ≠ "_id_") idxs.

(** Two index descriptions one collection cannot hold together. *)
Definition clashes (i j : index) : Prop :=
  idx_name j = idx_name i ∨ idx_key j = idx_key i.

(** The warnings of a trace. *)
Definition warnings (tr : list event) : list string :=
  omap (λ e, match e with EvWarn m => Some m | _ => None end) tr.

(** The data file and the index file of a collection. *)
Definition data_path (o : options) (name : string) : string :=
  path_join (outputDir o) (name +:+ ".json").

Definition index_path (o : options) (name : string) : string :=
  path_join (outputDir o) (name +:+ "_indexes.json").

(** [w'] differs from [w] at most in the file system and in the trace,
    which has gained no operation on the target and no connection event. *)
Definition offline (w w' : world) : Prop :=
  env w' = env w ∧ tgt_docs w' = tgt_docs w ∧ tgt_indexes w' = tgt_indexes w
  ∧ src_open w' = src_open w ∧ tgt_open w' = tgt_open w
  ∧ ∃ post, trace w' = trace w ++ post
            ∧ Forall (λ e, target_write e = false ∧ connection_event e = false) post.

(** What the export of one collection leaves in the file system. *)
Definition export_files (o : options) (w : world) (fs : gmap string file) (name : string)
    : gmap string file :=
  if length (matched o w name) =? 0 then fs
  else
    let fs1 := <[data_path o name := FDocs (matched o w name)]> fs in
    if copyIndexes o then <[index_path o name := FIndexes (source_indexes w name)]> fs1
    else fs1.

(** The entry an export records for a collection. *)
Definition export_entry (o : options) (w : world) (name : string) : entry :=
  let total := length (matched o w name) in
  Entry name total total
    (if total =? 0 then (if incremental o then "no-new-docs" else "empty")
     else "exported-json")
    None.

(** [w'] differs from [w] in no part of the environment, in no file and
    in no document of a collection other than [name]. *)
Definition wrote_docs (name : string) (w w' : world) : Prop :=
  env w' = env w ∧ files w' = files w ∧ dirs w' = dirs w
  ∧ ∀ n, n ≠ name → target_docs w' n = target_docs w n.

(** The index file of [name] is missing or holds index descriptions. *)
Definition index_file_ok (o : options) (w : world) (name : string) : Prop :=
  (files w !! index_path o name = None ∧ index_path o name ∉ dirs w)
  ∨ ∃ l, files w !! index_path o name = Some (FIndexes l).

(** A data file the target accepts as it is: every document has an
    identity, no identity occurs twice, and the validator of the
    collection accepts every document. *)
Definition importable (w : world) (name : string) (json : list doc) : Prop :=
  Forall (λ d, is_Some (doc_id d)) json
  ∧ NoDup (doc_id <$> json)
  ∧ Forall (λ d, validator (env w) name d = true) json.

(** The documents in the data file of a collection ([[]] when the file is
    missing or holds something else). *)
Definition data_file (o : options) (w : world) (name : string) : list doc :=
  match files w !! data_path o name with
  | Some (FDocs l) => l
  | _ => []
  end.

(** The data file of [name] holds documents the target accepts, the index
    file (when indexes are asked for) is missing or well formed, and the
    fuel covers the import loop. *)
Definition restorable (fuel : nat) (o : options) (w : world) (name : string) : Prop :=
  data_file o w name ≠ []
  ∧ importable w name (data_file o w name)
  ∧ (copyIndexes o = true → index_file_ok o w name)
  ∧ length (data_file o w name) ≤ fuel.

(** The entry a full import records for a collection. *)
Definition import_entry (o : options) (w : world) (name : string) : entry :=
  if length (source_docs w name) =? 0 then Entry name 0 0 "empty" None
  else Entry name (length (data_file o w name)) (length (data_file o w name))
         "imported-json" None.

(** The documents of the target after a full import. *)
Definition imported (o : options) (w : world) (cols : list string) (n : string) : list doc :=
  if decide (n ∈ cols ∧ source_docs w n ≠ []) then data_file o w n else target_docs w n.

(** The options with another batch size. *)
Definition with_batchSize (b : nat) (o : options) : options :=
  Options (collections o) (dryRun o) b (exportJson o) (importJson o) (outputDir o)
          (showProgress o) (copyIndexes o) (validateSchema o) (incremental o)
          (timestampField o) (since o).



(** ** The command line ([src/cli/index.js]) and what it imports *)

(** Text is a string of code units below 256. Among these
    [String.prototype.trim] removes tab, line feed, vertical tab, form
    feed, carriage return, space and the no-break space. *)
Definition is_js_space (a : ascii) : bool :=
  match a with
  | "009" | "010" | "011" | "012" | "013" | " " | "160" => true
  | _ => false
  end%char.

Fixpoint trim_start (s : string) : string :=
  match s with
  | "" => ""
  | String a s' => if is_js_space a then trim_start s' else s
  end.

Fixpoint trim_end (s : string) : string :=
  match s with
  | "" => ""
  | String a s' =>
      match trim_end s' with
      | "" => if is_js_space a then "" else String a ""
      | t => String a t
      end
  end.

(** [s.trim()] *)
Definition trim (s : string) : string := trim_end (trim_start s).

(** [s.split(",")] *)
Fixpoint split_comma (s : string) : list string :=
  match s with
  | "" => [""]
  | String a s' =>
      if Ascii.eqb a "," then "" :: split_comma s'
      else match split_comma s' with
           | x :: xs => String a x :: xs
           | [] => [String a ""]
           end
  end.

(** [l.join(sep)] *)
Fixpoint join (sep : string) (l : list string) : string :=
  match l with
  | [] => ""
  | [x] => x
  | x :: rest => x +:+ sep +:+ join sep rest
  end.

(** [opts.collections ? opts.collections.split(",").map((s) => s.trim())
    .filter(Boolean) : []] *)
Definition parse_collections (c : option string) : list string :=
  match c with
  | None | Some "" => []
  | Some s => filter (λ x, x ≠ "") (trim <$> split_comma s)
  end.

(** A number as [parseInt] returns it: [NaN], an infinity or an integer. *)
Inductive jsint :=
  | JNaN
  | JInf (negative : bool)
  | JInt (z : Z).

(** [Number.isFinite(n) && n > 0 ? n : fallback] *)
Definition positive_or (n : jsint) (fallback : Z) : Z :=
  match n with
  | JInt z => if bool_decide (0 < z)%Z then z else fallback
  | _ => fallback
  end.

(** [parseIntegerEnv(key, fallback)] of [src/utils/config/env.js]. [raw]
    is [None] when the variable is not set, and otherwise what
    [parseInt(String(raw).trim(), 10)] makes of it. *)
Definition parseIntegerEnv (raw : option jsint) (fallback : Z) : Z :=
  match raw with
  | None => fallback
  | Some n => positive_or n fallback
  end.

(** [env.BATCH_SIZE] *)
Definition BATCH_SIZE (raw : option jsint) : Z := parseIntegerEnv raw 1000.

(** The options object of commander after [parse]. [opt_batchSize] is what
    the option's parser [(v) => parseInt(v, 10)] returned, [opt_progress]
    is [opts.progress !== false], [opt_since] the date of [--since].
    [--log-path] only moves the log file and is left out. *)
Record cli_options := CliOptions {
  opt_all : bool;
  opt_collections : option string;
  opt_dryRun : bool;
  opt_batchSize : option jsint;
  opt_yes : bool;
  opt_exportJson : bool;
  opt_importJson : bool;
  opt_outputDir : string;
  opt_progress : bool;
  opt_copyIndexes : bool;
  opt_validateSchema : bool;
  opt_incremental : bool;
  opt_timestampField : string;
  opt_since : option Z;
}.

(** [Number.isFinite(opts.batchSize) && opts.batchSize > 0 ? opts.batchSize
     : env.BATCH_SIZE || 1000] *)
Definition cli_batchSize (opts : cli_options) (raw : option jsint) : Z :=
  let fallback := if bool_decide (BATCH_SIZE raw = 0%Z) then 1000%Z else BATCH_SIZE raw in
  match opt_batchSize opts with
  | Some n => positive_or n fallback
  | None => fallback
  end.

(** [x || d] on strings *)
Definition or_default (x d : string) : string := if decide (x = "") then d else x.

(** [const targetCollections = all ? [] : collections] *)
Definition targetCollections (opts : cli_options) : list string :=
  if opt_all opts then [] else parse_collections (opt_collections opts).

(** The options the command line hands to [copyCollections]. *)
Definition cli_engine_options (opts : cli_options) (raw : option jsint) : options :=
  Options (Some (targetCollections opts)) (opt_dryRun opts)
          (Z.to_nat (cli_batchSize opts raw))
          (opt_exportJson opts) (opt_importJson opts)
          (or_default (opt_outputDir opts) "./backup")
          (opt_progress opts) (opt_copyIndexes opts) (opt_validateSchema opts)
          (opt_incremental opts)
          (or_default (opt_timestampField opts) "_updatedAt")
          (opt_since opts).

Inductive level := INFO | SUCCESS | WARN | ERROR.

(** How the process ends: its exit code, the lines handed to the logger and
    the question put to the user, if any; or not at all. *)
Inductive cli_outcome :=
  | Exit (code : nat) (asked : option string) (out : list (level * string)) (w : world)
  | Hang.

(** [`${r.name}: ${r.status} (${r.copied}/${r.total})`] *)
Definition result_line (r : entry) : level * string :=
  (INFO, e_name r +:+ ": " +:+ e_status r +:+ " (" +:+ pretty (e_copied r) +:+ "/"
         +:+ pretty (e_total r) +:+ ")").

(** The question of the confirmation prompt. *)
Definition question (opts : cli_options) : string :=
  "About to operate on "
  +:+ (if opt_all opts then "ALL collections"
       else "collections: " +:+ join ", " (targetCollections opts))
  +:+ (if opt_dryRun opts then " (dry-run)" else "")
  +:+ ". Continue?".

(** [confirmAction] of [src/utils/prompt.js]: [answer] is the value of the
    prompt, or the message of the error it failed with. *)
Definition confirmAction (answer : string + bool) : bool * list (level * string) :=
  match answer with
  | inr ok => (ok, [])
  | inl msg => (false, [(ERROR, "Prompt failed: " +:+ msg)])
  end.

(** The script after the options are parsed. Of an error of the engine
    the message is logged (the script logs the stack, which starts with
    it). *)
Definition cli_main (fuel : nat) (opts : cli_options) (raw : option jsint)
    (answer : string + bool) (w : world) : cli_outcome :=
  let collections := parse_collections (opt_collections opts) in
  if negb (opt_all opts) && (length collections =? 0)
     && negb (opt_exportJson opts) && negb (opt_importJson opts)
  then Exit 0 None [(INFO, "Provide --all or --collections or --export-json/--import-json")] w
  else if opt_exportJson opts && opt_importJson opts
  then Exit 1 None [(ERROR, "Cannot use --export-json and --import-json together")] w
  else
    let '(ok, asked, out) :=
      if opt_yes opts then (true, None, [])
      else let '(ok, out) := confirmAction answer in (ok, Some (question opts), out) in
    if negb ok then Exit 0 asked (out ++ [(WARN, "Cancelled by user")]) w
    else
      match copyCollections fuel (cli_engine_options opts raw) w with
      | Ok result w' =>
          Exit 0 asked (out ++ map result_line result ++ [(SUCCESS, "Operation completed")]) w'
      | Throw msg w' => Exit 1 asked (out ++ [(ERROR, msg)]) w'
      | Diverge => Hang
      end.

(** A collection name as [parse_collections] returns it: not empty,
    without a comma and without white space at either end. *)
Definition clean (x : string) : Prop :=
  x ≠ "" ∧ trim x = x ∧ ","%char ∉ String.list_ascii_of_string x.


(** The pieces of a list joined with a comma and a space. *)
Definition spaced (names : list string) : list string :=
  match names with
  | [] => []
  | x :: rest => x :: (String " " <$> rest)
  end.

(** ** More sample data *)

(** The indexes of a collection as [indexes()] lists them. *)
Definition idx_id : index := Index [("_id", 1%Z)] "_id_" {[ "v" := VNum 2 ]}.



(** A source with a collection named as the index file of another. *)
Definition shadowed_world : world :=
  sample_world true true
    [("a_indexes", Collection [sample_doc 7 5] []); ("a", Collection sample_docs [idx_id])]
    accept_all ∅ ∅.


Definition export_index_options : options :=
  with_flags false true false true false false (Some []) None.


(** Options of a live copy of [b] alone, and of a dry run of an export. *)
Definition only_b_options : options :=
  with_flags false false false false false false (Some ["b"]) None.

Definition dry_export_options : options :=
  with_flags true true false false false false (Some []) None.

(** Options of a live copy of a collection the sample source lacks. *)
Definition unknown_options : options :=
  with_flags false false false false false false (Some ["users"]) None.

(** Data files for both collections of the sample source, next to a
    target that holds something else. *)
Definition backup_world : world :=
  sample_world true true sample_source accept_all
    {[ "a" := [sample_doc 99 0] ]}
    {[ path_join "./backup" "a.json" := FDocs [sample_doc 2 20; sample_doc 1 10];
       path_join "./backup" "b.json" := FDocs [sample_doc 8 1] ]}.

(** A command line: [--collections " a, b ,,c " --export-json --yes], and
    the same with [--batch-size 0] for a live copy. *)
Definition sample_cli : cli_options :=
  CliOptions false (Some " a, b ,,c ") false None true true false "./backup" true
             false false false "_updatedAt" None.

Definition sample_cli_copy : cli_options :=
  CliOptions false (Some "a") false (Some (JInt 0)) false false false "./backup" true
             false false false "_updatedAt" None.
(** * Proofs *)

(** ** The monad *)

Lemma bind_Ok {A B} (m : M A) (k : A → M B) w b w' :
  bind m k w = Ok b w' ↔ ∃ a w1, m w = Ok a w1 ∧ k a w1 = Ok b w'.
Proof.
  unfold bind. destruct (m w) as [a w1|msg w1|]; split.
  - intros H. by exists a, w1.
  - by intros (? & ? & [= <- <-] & H).
  - done.
  - by intros (? & ? & ? & _).
  - done.
  - by intros (? & ? & ? & _).
Qed.

Lemma bind_Throw {A B} (m : M A) (k : A → M B) w msg w' :
  bind m k w = Throw msg w' ↔
  m w = Throw msg w' ∨ ∃ a w1, m w = Ok a w1 ∧ k a w1 = Throw msg w'.
Proof.
  unfold bind. destruct (m w) as [a w1|msg1 w1|]; split.
  - intros H. right. by exists a, w1.
  - intros [H|(a' & w2 & H1 & H2)]; by simplify_eq.
  - intros H. left. by simplify_eq.
  - intros [H|(a' & w2 & H1 & H2)]; by simplify_eq.
  - done.
  - intros [H|(a' & w2 & H1 & H2)]; by simplify_eq.
Qed.

Lemma bind_eq_Ok {A B} (m : M A) (k : A → M B) w a w1 :
  m w = Ok a w1 → bind m k w = k a w1.
Proof. unfold bind. by intros ->. Qed.

Lemma bind_eq_Throw {A B} (m : M A) (k : A → M B) w msg w1 :
  m w = Throw msg w1 → bind m k w = Throw msg w1.
Proof. unfold bind. by intros ->. Qed.

Section Preserves.
Context (I : world → Prop).

Lemma preserves_ret {A} (a : A) : preserves I (ret a).
Proof. by intros w Hw. Qed.

Lemma preserves_diverge {A} : preserves I (@diverge A).
Proof. by intros w Hw. Qed.

Lemma preserves_bind {A B} (m : M A) (k : A → M B) :
  preserves I m → (∀ a, preserves I (k a)) → preserves I (bind m k).
Proof.
  intros Hm Hk w Hw. unfold bind. specialize (Hm w Hw).
  destruct (m w) as [a w1|msg w1|]; [|done..]. by apply Hk.
Qed.

Lemma preserves_try_catch {A} (m : M A) h :
  preserves I m → (∀ msg, preserves I (h msg)) → preserves I (try_catch m h).
Proof.
  intros Hm Hh w Hw. unfold try_catch. specialize (Hm w Hw).
  destruct (m w) as [a w1|msg w1|]; [done| |done]. by apply Hh.
Qed.


Lemma preserves_when b (m : M unit) :
  (b = true → preserves I m) → preserves I (when b m).
Proof. destruct b; simpl; [auto|]. intros _. apply preserves_ret. Qed.

Lemma preserves_pure {A} (f : world → A) : preserves I (λ w, Ok (f w) w).
Proof. by intros w Hw. Qed.

Lemma returns_ret {A} (a : A) : returns I (ret a).
Proof. intros w Hw. by exists a, w. Qed.

Lemma returns_bind {A B} (m : M A) (k : A → M B) :
  returns I m → (∀ a, returns I (k a)) → returns I (bind m k).
Proof.
  intros Hm Hk w Hw. destruct (Hm w Hw) as (a & w1 & Hr & Hw1).
  destruct (Hk a w1 Hw1) as (b & w2 & Hr2 & Hw2).
  exists b, w2. by rewrite (bind_eq_Ok _ _ _ _ _ Hr).
Qed.

Lemma returns_when b (m : M unit) :
  (b = true → returns I m) → returns I (when b m).
Proof. destruct b; simpl; [auto|]. intros _. apply returns_ret. Qed.

Lemma returns_pure {A} (f : world → A) : returns I (λ w, Ok (f w) w).
Proof. intros w Hw. by exists (f w), w. Qed.

Lemma returns_preserves {A} (m : M A) : returns I m → preserves I m.
Proof. intros Hm w Hw. destruct (Hm w Hw) as (a & w' & -> & ?). done. Qed.
End Preserves.

(** ** Windows of a list *)

Section Chunks.
Context {A : Type} (b : nat) (Hb : 0 < b).
Implicit Types l : list A.











End Chunks.

(** ** The store *)

Lemma target_docs_set name x w n :
  target_docs (set_tgt_docs <[name := x]> w) n
  = if decide (n = name) then x else target_docs w n.
Proof.
  unfold target_docs. simpl. case_decide as Hn.
  - subst. by rewrite lookup_insert_eq.
  - by rewrite lookup_insert_ne.
Qed.

Lemma target_docs_set_eq name x w :
  target_docs (set_tgt_docs <[name := x]> w) name = x.
Proof. rewrite target_docs_set. by case_decide. Qed.

Lemma target_docs_set_ne name x w n :
  n ≠ name → target_docs (set_tgt_docs <[name := x]> w) n = target_docs w n.
Proof. intros. rewrite target_docs_set. by case_decide. Qed.

#[global] Instance only_docs_preorder name : PreOrder (only_docs name).
Proof.
  split.
  - by intros w.
  - intros w1 w2 w3 (?&?&?&?&?&?&?&H12) (?&?&?&?&?&?&?&H23).
    repeat split; try congruence.
    intros n Hn. rewrite H23, H12; done.
Qed.

Lemma only_docs_set name x w : only_docs name w (set_tgt_docs <[name := x]> w).
Proof. repeat split. intros n Hn. by apply target_docs_set_ne. Qed.

Lemma only_docs_oid name k w : only_docs name w (set_next_oid k w).
Proof. by repeat split. Qed.

Lemma with_id_spec d w :
  ∃ d' k w1, with_id d w = (d', k, w1) ∧ doc_id d' = Some k ∧
    (∀ name, only_docs name w w1) ∧ (∀ n, target_docs w1 n = target_docs w n) ∧
    (is_Some (doc_id d) → d' = d ∧ w1 = w).
Proof.
  unfold with_id. destruct (doc_id d) as [k|] eqn:Hk.
  - exists d, k, w. repeat split; done.
  - eexists _, _, _. split; [done|]. split; [|split; [|split]].
    + unfold doc_id. apply lookup_insert_eq.
    + intros name. apply only_docs_oid.
    + done.
    + by intros [? ?].
Qed.

Lemma store_insert_only name d w : only_docs name w (store_insert name d w).2.
Proof.
  unfold store_insert.
  destruct (with_id_spec d w) as (d' & k & w1 & -> & _ & Hw1 & _).
  destruct (negb _); [apply Hw1|].
  destruct (find_id _ _); [apply Hw1|]. simpl.
  etrans; [apply Hw1|apply only_docs_set].
Qed.


Lemma unordered_only name op batch err w :
  (∀ d w, only_docs name w (op d w).2) →
  only_docs name w (unordered op batch err w).2.
Proof.
  intros Hop. revert err w. induction batch as [|d batch IH]; intros err w; simpl.
  - done.
  - specialize (Hop d w). destruct (op d w) as [e w1]. simpl in Hop.
    etrans; [apply Hop|apply IH].
Qed.

Lemma raise_after_world r w' :
  final_world (raise_after r) = Some w' → w' = r.2.
Proof. destruct r as [[?|] ?]; simpl; congruence. Qed.

Lemma insertMany_only name batch w w' :
  final_world (insertMany name batch w) = Some w' →
  only_docs name (emit (EvInsertMany name batch) w) w'.
Proof.
  unfold insertMany. destruct batch as [|d batch].
  - simpl. by intros [= <-].
  - intros H%raise_after_world. subst w'. apply unordered_only.
    intros d' w1. pose proof (store_insert_only name d' w1) as H.
    by destruct (store_insert name d' w1) as [[?|?] ?].
Qed.


Lemma insertMany_total name batch w : insertMany name batch w ≠ Diverge.
Proof.
  unfold insertMany. destruct batch; [done|].
  by destruct (unordered _ _ _ _) as [[?|] ?].
Qed.

Lemma bulkWrite_total name batch w : bulkWrite name batch w ≠ Diverge.
Proof.
  unfold bulkWrite. destruct batch; [done|].
  by destruct (unordered _ _ _ _) as [[?|] ?].
Qed.

(** ** Batches in the trace *)

Lemma batches_of_snoc name tr e :
  batches_of name (tr ++ [e]) = batches_of name tr ++ option_list (batch_of name e).
Proof.
  unfold batches_of. rewrite omap_app. simpl. by destruct (batch_of name e).
Qed.

Lemma bar_trace o e w :
  ∃ w', bar o e w = Ok tt w' ∧ tgt_docs w' = tgt_docs w ∧ env w' = env w ∧
        (trace w' = trace w ∨ trace w' = trace w ++ [e]).
Proof.
  unfold bar, when, log, ret. destruct (showProgress o); eexists; eauto.
Qed.

Lemma bar_batches o n name w u w' :
  bar o (EvBarUpdate n) w = Ok u w' →
  batches_of name (trace w') = batches_of name (trace w)
  ∧ (∀ m, target_docs w' m = target_docs w m) ∧ env w' = env w.
Proof.
  destruct (bar_trace o (EvBarUpdate n) w) as (w1 & -> & Hd & He & Ht).
  intros [= _ <-]. split; [|split; [|done]].
  - destruct Ht as [->| ->]; [done|]. rewrite batches_of_snoc. simpl. by rewrite app_nil_r.
  - intros m. unfold target_docs. by rewrite Hd.
Qed.

Lemma fill_batch_spec n acc cursor :
  fill_batch n acc cursor = (acc ++ take n cursor, drop n cursor).
Proof.
  revert acc cursor. induction n as [|n IH]; intros acc [|d c]; simpl;
    rewrite ?app_nil_r; try done.
  rewrite IH. by rewrite <- app_assoc.
Qed.

Section Batching.
Context (o : options) (name : string).
Context (Hb : 0 < batchSize o).


(** With a positive batch size the loop ends within [length cursor]
    rounds. *)
Lemma full_copy_loop_total fuel cursor copied w :
  length cursor ≤ fuel → full_copy_loop fuel o name cursor copied w ≠ Diverge.
Proof using Hb.
  revert cursor copied w. induction fuel as [|fuel IH]; intros cursor copied w Hf.
  - destruct cursor; [done|simpl in Hf; lia].
  - destruct cursor as [|d c]; [done|]. simpl.
    rewrite fill_batch_spec. simpl.
    destruct (batchSize o) as [|b'] eqn:Eb; [lia|]. simpl.
    unfold bind at 1.
    pose proof (insertMany_total name (d :: take b' c) w) as Hins.
    destruct (insertMany _ _ _) as [? w1|? w1|]; [|done..].
    unfold bind.
    destruct (bar_trace o (EvBarUpdate (copied + S (length (take b' c)))) w1)
      as (w2 & -> & _).
    apply IH. rewrite length_drop. simpl in Hf. lia.
Qed.


End Batching.

Lemma upsert_loop_total o name cursor acc copied w :
  upsert_loop o name cursor acc copied w ≠ Diverge.
Proof.
  revert acc copied w. induction cursor as [|d c IH]; intros acc copied w; [done|].
  simpl. destruct (_ <=? _); [|apply IH].
  unfold bind at 1. pose proof (bulkWrite_total name (acc ++ [d]) w) as Hbw.
  destruct (bulkWrite _ _ _) as [? w1|? w1|]; [|done..].
  unfold bind.
  destruct (bar_trace o (EvBarUpdate (copied + length (acc ++ [d]))) w1) as (w2 & -> & _).
  apply IH.
Qed.

Lemma incremental_copy_total o name cursor w :
  incremental_copy o name cursor w ≠ Diverge.
Proof.
  unfold incremental_copy, bind at 1.
  pose proof (upsert_loop_total o name cursor [] 0 w) as Hloop.
  destruct (upsert_loop _ _ _ _ _ _) as [[acc c] w1|? w1|]; [|done..]. simpl.
  destruct (0 <? length acc); [|done].
  unfold bind at 1. pose proof (bulkWrite_total name acc w1) as Hbw.
  destruct (bulkWrite _ _ _) as [? w2|? w2|]; [|done..].
  unfold bind. by destruct (bar_trace o (EvBarUpdate (c + length acc)) w2) as (w3 & -> & _).
Qed.



(** ** Invariants that do not look at what an operation changes

    [I] tolerates the events in [Q], any change of indexes, files,
    directories and the ObjectId counter, and any change of the documents
    of the collections in [N]. The engine keeps such an invariant as long
    as it only works on collections in [N]. *)

Ltac pres_step :=
  match goal with
  | |- preserves _ (ret _) => apply preserves_ret
  | |- preserves _ diverge => apply preserves_diverge
  | |- preserves _ (bind _ _) => apply preserves_bind; [|intros ?]
  | |- preserves _ (try_catch _ _) => apply preserves_try_catch; [|intros ?]
  | |- preserves _ (when _ _) => apply preserves_when; intros ?
  | |- preserves _ (if ?c then _ else _) => destruct c eqn:?
  | |- preserves _ (match ?x with Some _ => _ | None => _ end) => destruct x eqn:?
  end.

Section Insensitive.
Context (I : world → Prop) (Q : event → Prop) (N : string → Prop).
Hypothesis I_emit : ∀ e w, Q e → I w → I (emit e w).
Hypothesis I_indexes : ∀ f w, I w → I (set_tgt_indexes f w).
Hypothesis I_files : ∀ f w, I w → I (set_files f w).
Hypothesis I_dirs : ∀ f w, I w → I (set_dirs f w).
Hypothesis I_oid : ∀ n w, I w → I (set_next_oid n w).
Hypothesis I_docs : ∀ name x w, N name → I w → I (set_tgt_docs <[name := x]> w).
Hypothesis Q_all : ∀ e, connection_event e = false → Q e.

Lemma I_store_insert name d w : N name → I w → I (store_insert name d w).2.
Proof using I_oid I_docs.
  intros Hn Hw. unfold store_insert, with_id.
  destruct (doc_id d); simpl.
  - destruct (negb _); [done|]. destruct (find_id _ _); [done|]. by apply I_docs.
  - destruct (negb _); [by apply I_oid|].
    destruct (find_id _ _); [by apply I_oid|]. apply I_docs; [done|]. by apply I_oid.
Qed.

Lemma I_store_upsert name d w : N name → I w → I (store_upsert name d w).2.
Proof using I_oid I_docs.
  intros Hn Hw. unfold store_upsert. destruct (doc_id d).
  - destruct (negb _); [done|]. by apply I_docs.
  - pose proof (I_store_insert name d w Hn Hw).
    by destruct (store_insert name d w) as [[?|?] ?].
Qed.

Lemma I_unordered op batch err w :
  (∀ d w, I w → I (op d w).2) → I w → I (unordered op batch err w).2.
Proof.
  intros Hop. revert err w. induction batch as [|d batch IH]; intros err w Hw; [done|].
  simpl. specialize (Hop d w Hw). destruct (op d w) as [e w1]. by apply IH.
Qed.

Lemma I_raise_after r : I r.2 → match raise_after r with
                                | Ok _ w' | Throw _ w' => I w'
                                | Diverge => True
                                end.
Proof. by destruct r as [[?|] ?]. Qed.

Lemma pres_log e : Q e → preserves I (log e).
Proof using I_emit. intros He w Hw. by apply I_emit. Qed.

Lemma pres_bar o e : connection_event e = false → preserves I (bar o e).
Proof using I_emit Q_all.
  intros He. apply preserves_when. intros _. apply pres_log. by apply Q_all.
Qed.

Lemma pres_insertOne name d : N name → preserves I (insertOne name d).
Proof using I_emit Q_all I_oid I_docs.
  intros Hn w Hw. unfold insertOne.
  pose proof (I_store_insert name d (emit (EvInsertOne name d) w) Hn) as H.
  destruct (store_insert _ _ _) as [[?|?] ?]; apply H, I_emit; auto.
Qed.

Lemma pres_deleteOne name k : N name → preserves I (deleteOne name k).
Proof using I_emit Q_all I_docs.
  intros Hn w Hw. unfold deleteOne. apply I_docs; [done|]. apply I_emit; auto.
Qed.

Lemma pres_deleteMany name : N name → preserves I (deleteMany name).
Proof using I_emit Q_all I_docs.
  intros Hn w Hw. unfold deleteMany. apply I_docs; [done|]. apply I_emit; auto.
Qed.

Lemma pres_insertMany name batch : N name → preserves I (insertMany name batch).
Proof using I_emit Q_all I_oid I_docs.
  intros Hn w Hw. unfold insertMany.
  assert (I (emit (EvInsertMany name batch) w)) as Hw0 by (apply I_emit; auto).
  destruct batch as [|d batch]; [done|].
  apply I_raise_after, I_unordered; [|done].
  intros d' w1 Hw1. pose proof (I_store_insert name d' w1 Hn Hw1).
  by destruct (store_insert name d' w1) as [[?|?] ?].
Qed.

Lemma pres_bulkWrite name batch : N name → preserves I (bulkWrite name batch).
Proof using I_emit Q_all I_oid I_docs.
  intros Hn w Hw. unfold bulkWrite.
  assert (I (emit (EvBulkWrite name batch) w)) as Hw0 by (apply I_emit; auto).
  destruct batch as [|d batch]; [done|].
  apply I_raise_after, I_unordered; [|done].
  intros d' w1 Hw1. by apply I_store_upsert.
Qed.

Lemma pres_createIndex name key opts iname :
  preserves I (createIndex name key opts iname).
Proof using I_emit Q_all I_indexes.
  intros w Hw. unfold createIndex.
  assert (I (emit (EvCreateIndex name (Index key iname opts)) w)) as Hw0
    by (apply I_emit; auto).
  destruct (bool_decide _); [done|]. destruct (existsb _ _); [done|].
  by apply I_indexes.
Qed.

Lemma pres_create_each name idxs : preserves I (create_each name idxs).
Proof using I_emit Q_all I_indexes.
  induction idxs as [|i idxs IH]; simpl; repeat pres_step;
    auto using pres_createIndex, pres_log.
Qed.

Lemma pres_copyIndexesToTarget name idxs : preserves I (copyIndexesToTarget name idxs).
Proof using I_emit Q_all I_indexes. apply pres_create_each. Qed.

Lemma pres_findOne name q : preserves I (findOne name q).
Proof. by intros w Hw. Qed.

Lemma pres_find name q : preserves I (find name q).
Proof. by intros w Hw. Qed.

Lemma pres_indexes name : preserves I (indexes name).
Proof. by intros w Hw. Qed.

Lemma pres_countDocuments name q : preserves I (countDocuments name q).
Proof. by intros w Hw. Qed.

Lemma pres_listCollections : preserves I listCollections.
Proof. by intros w Hw. Qed.

Lemma pres_existsSync p : preserves I (existsSync p).
Proof. by intros w Hw. Qed.

Lemma pres_read_docs p : preserves I (read_docs p).
Proof. intros w Hw. unfold read_docs. by destruct (files w !! p) as [[]|]. Qed.

Lemma pres_read_indexes p : preserves I (read_indexes p).
Proof. intros w Hw. unfold read_indexes. by destruct (files w !! p) as [[]|]. Qed.

Lemma pres_writeFileSync p f : preserves I (writeFileSync p f).
Proof using I_files. intros w Hw. by apply I_files. Qed.

Lemma pres_unlinkSync p : preserves I (unlinkSync p).
Proof using I_files. intros w Hw. by apply I_files. Qed.

Lemma pres_mkdirSync p : preserves I (mkdirSync p).
Proof using I_dirs. intros w Hw. by apply I_dirs. Qed.

Lemma pres_schema_probe name q : N name → preserves I (schema_probe name q).
Proof using I_emit Q_all I_oid I_docs.
  intros Hn. unfold schema_probe. repeat pres_step;
    auto using pres_findOne, pres_insertOne, pres_deleteOne.
Qed.

Lemma pres_full_copy_loop fuel o name cursor copied :
  N name → preserves I (full_copy_loop fuel o name cursor copied).
Proof using I_emit Q_all I_oid I_docs.
  intros Hn. revert cursor copied.
  induction fuel as [|fuel IH]; intros [|d c] copied; simpl; repeat pres_step.
  destruct (fill_batch _ _ _) as [[|x batch] cursor']; repeat pres_step;
    auto using pres_insertMany, pres_bar.
Qed.

Lemma pres_upsert_loop o name cursor acc copied :
  N name → preserves I (upsert_loop o name cursor acc copied).
Proof using I_emit Q_all I_oid I_docs.
  intros Hn. revert acc copied.
  induction cursor as [|d c IH]; intros acc copied; simpl; repeat pres_step;
    auto using pres_bulkWrite, pres_bar.
Qed.

Lemma pres_incremental_copy o name cursor :
  N name → preserves I (incremental_copy o name cursor).
Proof using I_emit Q_all I_oid I_docs.
  intros Hn. unfold incremental_copy. repeat pres_step;
    auto using pres_upsert_loop, pres_bulkWrite, pres_bar.
Qed.

Lemma pres_import_loop fuel o write json i :
  (∀ chunk, preserves I (write chunk)) →
  preserves I (import_loop fuel o write json i).
Proof using I_emit Q_all.
  intros Hwrite. revert i.
  induction fuel as [|fuel IH]; intros i; simpl; repeat pres_step;
    auto using pres_bar.
Qed.

Lemma pres_import_json fuel o name : N name → preserves I (import_json fuel o name).
Proof using All.
  intros Hn. unfold import_json. repeat pres_step;
    auto using pres_bar, pres_existsSync, pres_read_docs, pres_read_indexes,
      pres_copyIndexesToTarget, pres_import_loop, pres_bulkWrite, pres_deleteMany,
      pres_insertMany.
Qed.

Lemma pres_export_loop o cursor allDocs docCount :
  preserves I (export_loop o cursor allDocs docCount).
Proof using I_emit Q_all.
  revert allDocs docCount.
  induction cursor as [|d c IH]; intros allDocs docCount; simpl; repeat pres_step;
    auto using pres_bar.
Qed.

Lemma pres_export_json o name q total : preserves I (export_json o name q total).
Proof using I_emit Q_all I_files.
  unfold export_json. repeat pres_step;
    auto using pres_bar, pres_existsSync, pres_find, pres_export_loop,
      pres_writeFileSync, pres_unlinkSync, pres_indexes.
Qed.

Lemma pres_live_copy fuel o name q total :
  N name → preserves I (live_copy fuel o name q total).
Proof using I_emit Q_all I_oid I_docs I_indexes.
  intros Hn. unfold live_copy. repeat pres_step;
    auto using pres_bar, pres_find, pres_indexes, pres_copyIndexesToTarget,
      pres_incremental_copy, pres_deleteMany, pres_full_copy_loop.
Qed.

Lemma pres_process_collection fuel o name :
  N name → preserves I (process_collection fuel o name).
Proof using All.
  intros Hn. unfold process_collection. repeat pres_step;
    auto using pres_countDocuments, pres_bar, pres_schema_probe, pres_import_json,
      pres_export_json, pres_live_copy.
Qed.

Lemma pres_run_collections fuel o names summary :
  (∀ name, name ∈ names → N name) →
  preserves I (run_collections fuel o names summary).
Proof using All.
  revert summary. induction names as [|name rest IH]; intros summary Hn; simpl;
    repeat pres_step.
  - apply pres_process_collection, Hn. left.
  - apply IH. intros n ?. apply Hn. by right.
Qed.

Lemma pres_run_body fuel o : (∀ name, N name) → preserves I (run_body fuel o).
Proof using All.
  intros Hn. unfold run_body. repeat pres_step;
    auto using pres_listCollections, pres_existsSync, pres_mkdirSync,
      pres_run_collections.
Qed.
End Insensitive.

(** ** The loop body, case by case *)

Lemma process_collection_cases fuel o name w :
  process_collection fuel o name w =
  let total := length (matched o w name) in
  if total =? 0 then
    Ok (Entry name 0 total (if incremental o then "no-new-docs" else "empty") None) w
  else if validateSchema o && negb (dryRun o) && negb (exportJson o) then
    match schema_probe name (build_query o) w with
    | Ok _ w1 => transfer fuel o name total w1
    | Throw msg w1 => Ok (Entry name 0 total "schema-validation-failed" (Some msg)) w1
    | Diverge => Diverge
    end
  else transfer fuel o name total w.
Proof.
  unfold process_collection, transfer, bind at 1, countDocuments, matched. simpl.
  destruct (_ =? 0); [done|].
  destruct (validateSchema o && negb (dryRun o) && negb (exportJson o)).
  - unfold bind at 1, try_catch, bind at 1.
    by destruct (schema_probe _ _ _).
  - done.
Qed.

Lemma preserves_final {A} (I : world → Prop) (m : M A) w w' :
  preserves I m → I w → final_world (m w) = Some w' → I w'.
Proof.
  intros Hm Hw. specialize (Hm w Hw). destruct (m w); simpl; intros [= <-]; done.
Qed.

(** Nothing the engine does changes the environment. *)
Lemma process_collection_env fuel o name w w' :
  final_world (process_collection fuel o name w) = Some w' → env w' = env w.
Proof.
  apply (preserves_final (λ w1, env w1 = env w)); [|done].
  by apply (pres_process_collection _ (λ _, True) (λ _, True)).
Qed.

Lemma run_body_env fuel o w w' :
  final_world (run_body fuel o w) = Some w' → env w' = env w.
Proof.
  apply (preserves_final (λ w1, env w1 = env w)); [|done].
  by apply (pres_run_body _ (λ _, True) (λ _, True)).
Qed.

(** Working on one collection leaves the documents of the others alone. *)
Lemma process_collection_frame fuel o name w w' n :
  n ≠ name → final_world (process_collection fuel o name w) = Some w' →
  target_docs w' n = target_docs w n.
Proof.
  intros Hn.
  apply (preserves_final (λ w1, target_docs w1 n = target_docs w n)); [|done].
  apply (pres_process_collection _ (λ _, True) (λ m, m ≠ n)); try done.
  intros name' x w1 Hne Hw1. rewrite target_docs_set_ne; done.
Qed.

(** ** Identities in a list of documents *)

Lemma find_id_app k l1 l2 :
  find_id k (l1 ++ l2) = match find_id k l1 with
                         | Some d => Some d
                         | None => find_id k l2
                         end.
Proof. induction l1 as [|d l1 IH]; simpl; [done|]. by case_decide. Qed.

Lemma find_id_Some k l d : find_id k l = Some d → d ∈ l ∧ doc_id d = Some k.
Proof.
  induction l as [|d' l IH]; simpl; [done|]. case_decide.
  - intros [= <-]. split; [left|done].
  - intros [? ?]%IH. split; [by right|done].
Qed.

Lemma find_id_None k l : find_id k l = None ↔ ∀ d, d ∈ l → doc_id d ≠ Some k.
Proof.
  induction l as [|d' l IH]; simpl.
  - split; [|done]. intros _ d Hd. by apply elem_of_nil in Hd.
  - case_decide as Hd'; split.
    + done.
    + intros H. destruct (H d'); [left|done].
    + intros Hl d [->|Hd]%elem_of_cons; [done|]. by apply IH.
    + intros H. apply IH. intros d Hd. apply H. by right.
Qed.

Lemma remove_id_app_fresh k l d :
  find_id k l = None → doc_id d = Some k → remove_id k (l ++ [d]) = l.
Proof.
  intros Hl Hd. induction l as [|d' l IH]; simpl in *.
  - by rewrite decide_True.
  - case_decide; [done|]. by rewrite IH.
Qed.

Lemma replace_id_same k d l : find_id k l = Some d → replace_id k d l = l.
Proof.
  induction l as [|d' l IH]; simpl; [done|]. case_decide.
  - by intros [= ->].
  - intros H'. by rewrite IH.
Qed.

Lemma find_id_replace k d l j :
  doc_id d = Some k →
  find_id j (replace_id k d l) = if decide (j = k) then (λ _, d) <$> find_id k l else find_id j l.
Proof.
  intros Hd. induction l as [|d' l IH]; simpl.
  - by case_decide.
  - destruct (decide (doc_id d' = Some k)) as [Hk|Hk]; simpl;
      destruct (decide (j = k)) as [->|Hj]; simpl.
    + by rewrite decide_True.
    + repeat case_decide; congruence.
    + by rewrite decide_False.
    + by destruct (decide (doc_id d' = Some j)).
Qed.

Lemma find_id_upsert1 docs d k j :
  doc_id d = Some k →
  find_id j (upsert1 docs d) = if decide (j = k) then Some d else find_id j docs.
Proof.
  intros Hd. unfold upsert1. rewrite Hd.
  destruct (find_id k docs) as [d0|] eqn:Hk.
  - rewrite (find_id_replace k d docs j Hd), Hk. done.
  - rewrite find_id_app. simpl. rewrite Hd.
    destruct (decide (j = k)) as [->|Hj].
    + by rewrite Hk, decide_True.
    + rewrite decide_False by congruence. by destruct (find_id j docs).
Qed.

Lemma upsert1_same docs d k : doc_id d = Some k → find_id k docs = Some d → upsert1 docs d = docs.
Proof. intros Hd Hk. unfold upsert1. rewrite Hd, Hk. by apply replace_id_same. Qed.

(** ** What the store operations do to the documents *)

Lemma store_insert_inr name d w k w' :
  store_insert name d w = (inr k, w') →
  ∃ d', doc_id d' = Some k ∧ validator (env w) name d' = true
        ∧ find_id k (target_docs w name) = None
        ∧ target_docs w' name = target_docs w name ++ [d']
        ∧ (is_Some (doc_id d) → d' = d).
Proof.
  unfold store_insert.
  destruct (with_id_spec d w) as (d' & k' & w1 & -> & Hk & Hw1 & Hdocs & Hsame).
  destruct (Hw1 name) as (He & _).
  destruct (validator (env w1) name d') eqn:Hv; [|done]. simpl.
  destruct (find_id k' (target_docs w1 name)) eqn:Hf; [done|].
  intros [= <- <-]. exists d'. rewrite target_docs_set_eq, Hdocs in *.
  rewrite <- He. repeat split; try done. by intros [-> _]%Hsame.
Qed.

Lemma store_insert_inl name d w msg w' :
  store_insert name d w = (inl msg, w') →
  (∀ n, target_docs w' n = target_docs w n)
  ∧ (is_Some (doc_id d) →
     if validator (env w) name d then
       msg = msg_duplicate ∧ is_Some (find_id (default VNull (doc_id d)) (target_docs w name))
     else msg = msg_validation).
Proof.
  unfold store_insert.
  destruct (with_id_spec d w) as (d' & k' & w1 & -> & Hk & Hw1 & Hdocs & Hsame).
  destruct (validator (env w1) name d') eqn:Hv; simpl.
  - destruct (find_id k' (target_docs w1 name)) eqn:Hf; [|done].
    intros [= <- <-]. split; [done|]. intros [-> ->]%Hsame. rewrite Hv, Hk. simpl.
    by rewrite Hf.
  - intros [= <- <-]. split; [done|]. intros [-> ->]%Hsame. by rewrite Hv.
Qed.



(** ** The schema validation *)

Lemma doc_id_marked sd : doc_id (marked sd) = doc_id sd.
Proof. unfold doc_id, marked. by rewrite lookup_insert_ne. Qed.

Lemma schema_probe_unfold name q w :
  schema_probe name q w =
  match head (filter (λ d, matches q d) (source_docs w name)) with
  | None => Ok tt w
  | Some sd =>
      match store_insert name (marked sd) (emit (EvInsertOne name (marked sd)) w) with
      | (inl msg, w1) => Throw msg w1
      | (inr k, w1) => deleteOne name k w1
      end
  end.
Proof.
  unfold schema_probe, bind at 1, findOne.
  destruct (head _) as [sd|]; [|done].
  unfold bind, insertOne, marked. by destruct (store_insert _ _ _) as [[?|?] ?].
Qed.

(** On both exits the probe leaves every target collection with the
    documents it had, and writes no batch. *)
Lemma schema_probe_quiet name q w w' :
  final_world (schema_probe name q w) = Some w' →
  env w' = env w ∧ (∀ n, target_docs w' n = target_docs w n)
  ∧ ∃ pre, trace w' = trace w ++ pre ∧ ∀ n, batches_of n pre = [].
Proof.
  rewrite schema_probe_unfold. destruct (head _) as [sd|].
  2:{ intros [= <-]. repeat split; try done. exists []. by rewrite app_nil_r. }
  pose proof (store_insert_only name (marked sd) (emit (EvInsertOne name (marked sd)) w))
    as Honly.
  destruct (store_insert _ _ _) as [[msg|k] w1] eqn:Hins; simpl in Honly.
  - intros [= <-]. destruct Honly as (He&_&_&_&_&_&Ht&_).
    apply store_insert_inl in Hins as [Hdocs _].
    repeat split; try done. exists [EvInsertOne name (marked sd)]. by rewrite Ht.
  - unfold deleteOne. simpl. intros [= <-].
    destruct Honly as (He&_&_&_&_&_&Ht&Hother).
    apply store_insert_inr in Hins as (d' & Hk & _ & Hfresh & Hdocs & _).
    split; [done|]. split.
    + intros n. rewrite target_docs_set. case_decide as Hn.
      * subst n. change (target_docs (emit _ w1) name) with (target_docs w1 name).
        rewrite Hdocs. by apply remove_id_app_fresh.
      * change (target_docs (emit _ w1) n) with (target_docs w1 n). by rewrite Hother.
    + exists [EvInsertOne name (marked sd); EvDeleteOne name k]. simpl.
      rewrite Ht. simpl. by rewrite <- app_assoc.
Qed.

Lemma schema_probe_total name q w : schema_probe name q w ≠ Diverge.
Proof.
  rewrite schema_probe_unfold. destruct (head _); [|done].
  by destruct (store_insert _ _ _) as [[?|?] ?].
Qed.

(** When the probe throws. *)
Lemma schema_probe_Throw name q w msg w' :
  schema_probe name q w = Throw msg w' →
  ∃ sd, head (filter (λ d, matches q d) (source_docs w name)) = Some sd ∧
    (is_Some (doc_id sd) →
     if validator (env w) name (marked sd) then
       msg = msg_duplicate
       ∧ is_Some (find_id (default VNull (doc_id sd)) (target_docs w name))
     else msg = msg_validation).
Proof.
  rewrite schema_probe_unfold. destruct (head _) as [sd|]; [|done].
  destruct (store_insert _ _ _) as [[msg'|k] w1] eqn:Hins; [|done].
  intros [= <- <-]. exists sd. split; [done|]. intros Hid.
  apply store_insert_inl in Hins as [_ H]. rewrite doc_id_marked in H. by apply H.
Qed.

Lemma schema_probe_rejected name q w sd k :
  head (filter (λ d, matches q d) (source_docs w name)) = Some sd →
  doc_id sd = Some k →
  validator (env w) name (marked sd) = false ∨ is_Some (find_id k (target_docs w name)) →
  ∃ w', schema_probe name q w
        = Throw (if validator (env w) name (marked sd) then msg_duplicate
                 else msg_validation) w'.
Proof.
  intros Hsd Hk Hrej. rewrite schema_probe_unfold, Hsd.
  unfold store_insert, with_id. rewrite doc_id_marked, Hk. simpl.
  destruct (validator (env w) name (marked sd)); simpl; [|by eexists].
  destruct Hrej as [?|[d0 Hd0]]; [done|].
  change (target_docs (emit _ w) name) with (target_docs w name).
  rewrite Hd0. by eexists.
Qed.

Lemma schema_probe_accepted name q w sd k :
  head (filter (λ d, matches q d) (source_docs w name)) = Some sd →
  doc_id sd = Some k →
  validator (env w) name (marked sd) = true →
  find_id k (target_docs w name) = None →
  ∃ w', schema_probe name q w = Ok tt w'
        ∧ trace w' = trace w ++ [EvInsertOne name (marked sd); EvDeleteOne name k].
Proof.
  intros Hsd Hk Hv Hfresh. rewrite schema_probe_unfold, Hsd.
  unfold store_insert, with_id. rewrite doc_id_marked, Hk. simpl.
  rewrite Hv. simpl.
  change (target_docs (emit _ w) name) with (target_docs w name).
  rewrite Hfresh. unfold deleteOne. eexists. split; [done|]. simpl.
  by rewrite <- app_assoc.
Qed.

(** ** Full replace *)


Lemma quiet_refl w : quiet w w.
Proof. repeat split. exists []. by rewrite app_nil_r. Qed.

Lemma quiet_emit w e w1 : quiet w w1 → quiet w (emit e w1).
Proof.
  intros (He & Hd & post & Ht). repeat split; try done.
  exists (post ++ [e]). simpl. by rewrite Ht, <- app_assoc.
Qed.

Lemma quiet_trans w1 w2 w3 : quiet w1 w2 → quiet w2 w3 → quiet w1 w3.
Proof.
  intros (He & Hd & post & Ht) (He' & Hd' & post' & Ht'). split; [congruence|].
  split; [intros n; by rewrite Hd', Hd|].
  exists (post ++ post'). by rewrite Ht', Ht, <- app_assoc.
Qed.

(** What follows the write loop of a live copy changes no document. *)
Lemma live_copy_tail_quiet o name (e : entry) :
  ∀ w, preserves (quiet w)
         (when (copyIndexes o) (let* idxs := indexes name in copyIndexesToTarget name idxs) >>
          bar o EvBarStop >> ret e).
Proof.
  intros w. repeat pres_step.
  - apply pres_indexes.
  - apply (pres_copyIndexesToTarget _ (λ _, True)); auto using quiet_emit.
  - apply (pres_bar _ (λ _, True)); auto using quiet_emit.
Qed.


Lemma Forall_filter {A} (P Q : A → Prop) `{!∀ x, Decision (Q x)} (l : list A) :
  Forall P l → Forall P (filter Q l).
Proof. rewrite !Forall_forall. intros Hl x [_ Hx]%list_elem_of_filter. by apply Hl. Qed.

Lemma source_docs_env w w1 name : env w1 = env w → source_docs w1 name = source_docs w name.
Proof. unfold source_docs. by intros ->. Qed.

Lemma matched_env o w w1 name : env w1 = env w → matched o w1 name = matched o w name.
Proof. unfold matched. by intros ->%(source_docs_env _ _ name). Qed.

Lemma matched_full o w name : incremental o = false → matched o w name = source_docs w name.
Proof.
  intros Hinc. unfold matched, build_query. rewrite Hinc.
  replace (match since o with Some _ => QAll | None => QAll end) with QAll
    by (by destruct (since o)).
  induction (source_docs w name) as [|d l IH]; [done|].
  rewrite filter_cons_True by done. by rewrite IH.
Qed.

Lemma batches_of_app name tr1 tr2 :
  batches_of name (tr1 ++ tr2) = batches_of name tr1 ++ batches_of name tr2.
Proof. apply omap_app. Qed.

Lemma bar_start_quiet o total name w u w' :
  when (0 <? total) (bar o (EvBarStart total name)) w = Ok u w' →
  env w' = env w ∧ (∀ n, target_docs w' n = target_docs w n)
  ∧ ∃ pre, trace w' = trace w ++ pre ∧ ∀ n, batches_of n pre = [].
Proof.
  destruct (0 <? total); simpl.
  - destruct (bar_trace o (EvBarStart total name) w) as (w1 & -> & Hd & He & Ht).
    intros [= _ <-]. split; [done|]. split; [intros n; unfold target_docs; by rewrite Hd|].
    destruct Ht as [->| ->]; [exists []; by rewrite app_nil_r|by eexists].
  - intros [= _ <-]. repeat split. exists []. by rewrite app_nil_r.
Qed.


(** ** Empty collections, dry runs *)

(** C6. A collection in which the query selects no document is recorded
    as [empty] ([no-new-docs] in incremental mode) with [copied = 0], and
    the world is left exactly as it was: no write, no index replication,
    no schema probe, not even a progress event. *)
Theorem C6_nothing_matched (fuel : nat) (o : options) (name : string) (w : world) :
  length (matched o w name) = 0 →
  process_collection fuel o name w
  = Ok (Entry name 0 0 (if incremental o then "no-new-docs" else "empty") None) w.
Proof. intros H. rewrite process_collection_cases. cbn zeta. by rewrite H. Qed.

Lemma process_collection_dry fuel o name w :
  dryRun o = true → process_collection fuel o name w = Ok (dry_entry o w name) w.
Proof.
  intros Hdry. rewrite process_collection_cases. cbn zeta. unfold dry_entry.
  destruct (_ =? 0) eqn:Hz.
  - apply Nat.eqb_eq in Hz. by rewrite Hz.
  - rewrite Hdry, andb_false_r. simpl. unfold transfer. by rewrite Hdry.
Qed.

Lemma dry_entry_env o w w1 name : env w1 = env w → dry_entry o w1 name = dry_entry o w name.
Proof. intros He. unfold dry_entry. by rewrite (matched_env o w w1). Qed.

Lemma run_collections_dry fuel o names summary w :
  dryRun o = true →
  run_collections fuel o names summary w = Ok (summary ++ map (dry_entry o w) names) w.
Proof.
  intros Hdry. revert summary. induction names as [|name rest IH]; intros summary; simpl.
  - by rewrite app_nil_r.
  - rewrite (bind_eq_Ok _ _ _ _ _ (process_collection_dry fuel o name w Hdry)).
    rewrite IH, <- app_assoc. done.
Qed.

Lemma run_body_dry fuel o w :
  dryRun o = true →
  ∃ w1, run_body fuel o w
        = Ok (map (dry_entry o w)
                (resolve_collections (collections o) (map fst (source (env w))))) w1
        ∧ env w1 = env w ∧ tgt_docs w1 = tgt_docs w ∧ tgt_indexes w1 = tgt_indexes w
        ∧ trace w1 = trace w ∧ src_open w1 = src_open w ∧ tgt_open w1 = tgt_open w.
Proof.
  intros Hdry. unfold run_body, bind at 1, listCollections.
  set (cols := resolve_collections _ _).
  assert (∃ w1, when (exportJson o)
                  (let* present := existsSync (outputDir o) in
                   when (negb present) (mkdirSync (outputDir o))) w = Ok tt w1
                ∧ env w1 = env w ∧ tgt_docs w1 = tgt_docs w
                ∧ tgt_indexes w1 = tgt_indexes w ∧ trace w1 = trace w
                ∧ src_open w1 = src_open w ∧ tgt_open w1 = tgt_open w)
    as (w1 & Hmk & He & Hd & Hi & Ht & Hs & Hg).
  { destruct (exportJson o); simpl; [|by exists w].
    unfold bind, existsSync. destruct (negb _); simpl; by eexists. }
  exists w1. rewrite (bind_eq_Ok _ _ _ _ _ Hmk), (run_collections_dry _ _ _ _ _ Hdry).
  simpl. repeat split; try done. f_equal. apply map_ext. intros n. by apply dry_entry_env.
Qed.

Lemma finally_block o w :
  ∃ w', (bar o EvBarStop >> close Src >> close Tgt) w = Ok tt w'
        ∧ env w' = env w ∧ tgt_docs w' = tgt_docs w ∧ tgt_indexes w' = tgt_indexes w
        ∧ src_open w' = false ∧ tgt_open w' = false
        ∧ trace w' = trace w ++ (if showProgress o then [EvBarStop] else [])
                       ++ [EvClose Src; EvClose Tgt].
Proof.
  unfold bind, bar, when, log, ret, close. destruct (showProgress o); simpl.
  - eexists. split; [done|]. repeat split. by rewrite <- !app_assoc.
  - eexists. split; [done|]. repeat split. by rewrite <- !app_assoc.
Qed.

Lemma copyCollections_unfold fuel o w :
  copyCollections fuel o w =
  if src_up (env w) then
    if tgt_up (env w) then
      try_finally (run_body fuel o) (bar o EvBarStop >> close Src >> close Tgt) (connected w)
    else Throw msg_refused (emit (EvConnect Tgt) (set_open Src true (emit (EvConnect Src) w)))
  else Throw msg_refused (emit (EvConnect Src) w).
Proof.
  unfold copyCollections, bind at 1, connect at 1. simpl.
  destruct (src_up (env w)); [|done].
  unfold bind at 1, connect at 1. simpl. by destruct (tgt_up (env w)).
Qed.

(** C7, as the code has it. In a dry run no target collection and no
    target index is touched and no write operation is issued, whatever the
    outcome; when both endpoints accept the connection the run returns one
    entry per resolved collection with [copied = 0] and the number of
    documents the query selects as [total]. The status is [dry-run] for
    every collection with [total > 0]; a collection with [total = 0] keeps
    the status [empty] or [no-new-docs]. *)
Theorem C7_dry_run (fuel : nat) (o : options) (w : world) :
  dryRun o = true →
  (∀ w', final_world (copyCollections fuel o w) = Some w' →
         tgt_docs w' = tgt_docs w ∧ tgt_indexes w' = tgt_indexes w
         ∧ ∃ evs, trace w' = trace w ++ evs ∧ Forall (λ e, target_write e = false) evs)
  ∧ (src_up (env w) = true → tgt_up (env w) = true →
     ∃ w', copyCollections fuel o w
           = Ok (map (dry_entry o w)
                   (resolve_collections (collections o) (map fst (source (env w))))) w').
Proof.
  intros Hdry. rewrite copyCollections_unfold.
  destruct (src_up (env w)) eqn:Hs.
  2:{ split; [|done]. intros w' [= <-]. split; [done|]. split; [done|].
      exists [EvConnect Src]. split; [done|]. repeat constructor. }
  destruct (tgt_up (env w)) eqn:Ht.
  2:{ split; [|done]. intros w' [= <-]. split; [done|]. split; [done|].
      exists [EvConnect Src; EvConnect Tgt]. simpl. rewrite <- app_assoc.
      split; [done|]. repeat constructor. }
  destruct (run_body_dry fuel o (connected w) Hdry)
    as (w1 & Hbody & He1 & Hd1 & Hi1 & Ht1 & _).
  destruct (finally_block o w1) as (w2 & Hfin & _ & Hd2 & Hi2 & _ & _ & Ht2).
  unfold try_finally. rewrite Hbody, Hfin. split.
  - intros w' [= <-]. rewrite Hd2, Hd1, Hi2, Hi1. split; [done|]. split; [done|].
    eexists. rewrite Ht2, Ht1. simpl. rewrite <- !app_assoc. split; [done|].
    destruct (showProgress o); simpl; repeat constructor.
  - intros _ _. by exists w2.
Qed.

(** ** Results of the loop *)

Lemma yields_ret {A} (P : A → Prop) a : P a → yields P (ret a).
Proof. intros Ha w a' w' [= <- _]. done. Qed.

Lemma yields_bind {A B} (P : B → Prop) (m : M A) (k : A → M B) :
  (∀ a, yields P (k a)) → yields P (bind m k).
Proof. intros Hk w b w' (a & w1 & _ & Hb)%bind_Ok. by apply (Hk a w1 b w'). Qed.

Ltac yields_step :=
  match goal with
  | |- yields _ (ret _) => by apply yields_ret
  | |- yields _ (bind _ _) => apply yields_bind; intros ?
  | |- yields _ (if ?c then _ else _) => destruct c
  end.

Lemma transfer_name fuel o name total : yields (λ e, e_name e = name) (transfer fuel o name total).
Proof.
  unfold transfer, import_json, export_json, live_copy. repeat yields_step.
Qed.

Lemma process_collection_name fuel o name :
  yields (λ e, e_name e = name) (process_collection fuel o name).
Proof.
  intros w e w'. rewrite process_collection_cases. cbn zeta.
  destruct (_ =? 0); [by intros [= <- _]|].
  destruct (_ && _).
  - destruct (schema_probe _ _ _) as [u w1|msg w1|]; [|by intros [= <- _]|done].
    apply transfer_name.
  - apply transfer_name.
Qed.

Lemma run_collections_names fuel o names summary w s w' :
  run_collections fuel o names summary w = Ok s w' →
  map e_name s = map e_name summary ++ names.
Proof.
  revert summary w. induction names as [|name rest IH]; intros summary w; simpl.
  - intros [= <- _]. by rewrite app_nil_r.
  - intros (e & w1 & He & Hrest)%bind_Ok.
    apply process_collection_name in He. apply IH in Hrest.
    rewrite Hrest, map_app. simpl. rewrite He, <- app_assoc. done.
Qed.

Lemma run_body_names fuel o w s w' :
  run_body fuel o w = Ok s w' →
  map e_name s = resolve_collections (collections o) (map fst (source (env w))).
Proof.
  unfold run_body, bind at 1, listCollections.
  intros (? & w1 & _ & Hrun)%bind_Ok. by apply run_collections_names in Hrun.
Qed.

Lemma copyCollections_Ok fuel o w s w' :
  copyCollections fuel o w = Ok s w' →
  src_up (env w) = true ∧ tgt_up (env w) = true
  ∧ ∃ w1, run_body fuel o (connected w) = Ok s w1.
Proof.
  rewrite copyCollections_unfold.
  destruct (src_up (env w)); [|done]. destruct (tgt_up (env w)); [|done].
  unfold try_finally.
  destruct (run_body fuel o (connected w)) as [s1 w1|msg w1|]; [| |done].
  - destruct (finally_block o w1) as (w2 & -> & _). intros [= <- _]. eauto.
  - by destruct (finally_block o w1) as (w2 & -> & _).
Qed.

Lemma copyCollections_names fuel o w s w' :
  copyCollections fuel o w = Ok s w' →
  map e_name s = resolve_collections (collections o) (map fst (source (env w))).
Proof. intros (_ & _ & w1 & H)%copyCollections_Ok. by apply run_body_names in H. Qed.

(** C9, as the code has it. When names are requested, the collections
    processed are the requested names that exist on the source, in the
    order (and with the repetitions) of the request; when none is
    requested they are the source's collections in listing order. A run
    that returns has one entry per resolved name, in that order. *)
Theorem C9_resolution (fuel : nat) (o : options) (w : world) (s : list entry) (w' : world) :
  copyCollections fuel o w = Ok s w' →
  let allNames := map fst (source (env w)) in
  let resolved := resolve_collections (collections o) allNames in
  map e_name s = resolved
  ∧ (∀ c, c ∈ resolved → c ∈ allNames)
  ∧ match collections o with
    | None | Some [] => resolved = allNames
    | Some cs =>
        resolved = filter (λ c, c ∈ allNames) cs
        ∧ resolved `sublist_of` cs
        ∧ ∀ c, c ∈ resolved ↔ c ∈ cs ∧ c ∈ allNames
    end.
Proof.
  intros H%copyCollections_names. cbn zeta. split; [done|]. clear H.
  unfold resolve_collections. destruct (collections o) as [[|c0 cs]|].
  - by split.
  - split; [by intros c [? _]%list_elem_of_filter|].
    split; [done|]. split; [apply sublist_filter|].
    intros c. rewrite list_elem_of_filter. tauto.
  - by split.
Qed.

(** ** The schema probe and the identity of the sample *)

(** C10. With schema validation on (and neither dry run nor export), the
    probe inserts the sample with its own [_id]. If the target collection
    already holds a document with that identity, the collection is recorded
    as [schema-validation-failed] and skipped: no batch is written and the
    target keeps its documents; the error is the duplicate key whenever the
    validator accepts the probe document. If the identity is free and the
    validator accepts, the probe succeeds by one [insertOne] followed by
    one [deleteOne] of that identity, and every target collection holds
    the documents it held before. *)
Theorem C10_probe_keeps_identity (fuel : nat) (o : options) (name : string) (w : world)
    (sd : doc) (k : value) :
  validateSchema o = true → dryRun o = false → exportJson o = false →
  head (matched o w name) = Some sd → doc_id sd = Some k →
  doc_id (marked sd) = Some k
  ∧ (is_Some (find_id k (target_docs w name)) →
     ∃ msg w',
       process_collection fuel o name w
       = Ok (Entry name 0 (length (matched o w name)) "schema-validation-failed"
               (Some msg)) w'
       ∧ (validator (env w) name (marked sd) = true → msg = msg_duplicate)
       ∧ (∀ n, target_docs w' n = target_docs w n)
       ∧ batches_of name (trace w') = batches_of name (trace w))
  ∧ (find_id k (target_docs w name) = None →
     validator (env w) name (marked sd) = true →
     ∃ w1, schema_probe name (build_query o) w = Ok tt w1
           ∧ trace w1 = trace w ++ [EvInsertOne name (marked sd); EvDeleteOne name k]
           ∧ ∀ n, target_docs w1 n = target_docs w n).
Proof.
  intros Hval Hdry Hexp Hsd Hk. split; [by rewrite doc_id_marked|]. split.
  - intros Hdup.
    destruct (schema_probe_rejected name (build_query o) w sd k Hsd Hk) as (w' & Hp);
      [by right|].
    assert (final_world (schema_probe name (build_query o) w) = Some w') as Hf
      by (by rewrite Hp).
    apply schema_probe_quiet in Hf as (_ & Hd & pre & Ht & Hpre).
    eexists _, w'. rewrite process_collection_cases. cbn zeta.
    destruct (_ =? 0) eqn:Hz.
    { apply Nat.eqb_eq in Hz. destruct (matched o w name); done. }
    rewrite Hval, Hdry, Hexp, Hp. simpl. split; [done|].
    split; [by intros ->|]. split; [done|].
    by rewrite Ht, batches_of_app, Hpre, app_nil_r.
  - intros Hfree Hv.
    destruct (schema_probe_accepted name (build_query o) w sd k Hsd Hk Hv Hfree)
      as (w1 & Hp & Ht).
    exists w1. split; [done|]. split; [done|].
    assert (final_world (schema_probe name (build_query o) w) = Some w1) as Hf
      by (by rewrite Hp).
    by apply schema_probe_quiet in Hf as (_ & Hd & _).
Qed.

(** ** Connections *)

Lemma session_refl w : session w w.
Proof. split; [done|]. split; [done|]. split; [done|]. exists []. by rewrite app_nil_r. Qed.

Lemma run_body_session fuel o w0 : preserves (session w0) (run_body fuel o).
Proof.
  apply (pres_run_body _ (λ e, connection_event e = false) (λ _, True)); try done.
  intros e w He (Hen & Hs & Ht & mid & Hm & Hall).
  split; [done|]. split; [done|]. split; [done|].
  exists (mid ++ [e]). simpl. rewrite Hm, <- app_assoc. split; [done|].
  apply Forall_app. split; [done|]. by constructor.
Qed.

(** When both endpoints accept the connection, every run that ends, by a
    return or by an exception, has closed both connections, each exactly
    once and after everything else. *)
Lemma connections_closed_once fuel o w w' :
  src_up (env w) = true → tgt_up (env w) = true →
  final_world (copyCollections fuel o w) = Some w' →
  src_open w' = false ∧ tgt_open w' = false
  ∧ ∃ mid, trace w' = trace w ++ [EvConnect Src; EvConnect Tgt] ++ mid
                        ++ [EvClose Src; EvClose Tgt]
           ∧ Forall (λ e, connection_event e = false) mid.
Proof.
  intros Hs Ht. rewrite copyCollections_unfold, Hs, Ht. unfold try_finally.
  pose proof (run_body_session fuel o (connected w) (connected w) (session_refl _)) as Hb.
  assert (∀ w1, session (connected w) w1 → ∀ w2,
            (bar o EvBarStop >> close Src >> close Tgt) w1 = Ok tt w2 →
            src_open w2 = false ∧ tgt_open w2 = false
            ∧ ∃ mid, trace w2 = trace w ++ [EvConnect Src; EvConnect Tgt] ++ mid
                                  ++ [EvClose Src; EvClose Tgt]
                     ∧ Forall (λ e, connection_event e = false) mid) as Hfin.
  { intros w1 (_ & _ & _ & mid & Hm & Hall) w2 Hw2.
    destruct (finally_block o w1) as (w2' & Hw2' & _ & _ & _ & Hso & Hto & Htr).
    rewrite Hw2' in Hw2. injection Hw2 as <-.
    split; [done|]. split; [done|].
    exists (mid ++ (if showProgress o then [EvBarStop] else [])).
    rewrite Htr, Hm. simpl. rewrite <- !app_assoc. simpl. split; [done|].
    apply Forall_app. split; [done|]. destruct (showProgress o); repeat constructor. }
  destruct (run_body fuel o (connected w)) as [s w1|msg w1|]; [| |done].
  - destruct (finally_block o w1) as (w2 & Hw2 & _). rewrite Hw2. intros [= <-].
    by apply (Hfin w1).
  - destruct (finally_block o w1) as (w2 & Hw2 & _). rewrite Hw2. intros [= <-].
    by apply (Hfin w1).
Qed.

(** C4, evaluated where it fails. When the source accepts the connection
    and the target refuses it, [copyCollections] throws the connection
    error from before its [try]: the [finally] block does not run, the
    source connection stays open and no [close] is ever issued. *)
Theorem C4_target_refused_leaks_source (fuel : nat) (o : options) (w : world) :
  src_up (env w) = true → tgt_up (env w) = false →
  ∃ w', copyCollections fuel o w = Throw msg_refused w'
        ∧ src_open w' = true
        ∧ trace w' = trace w ++ [EvConnect Src; EvConnect Tgt].
Proof.
  intros Hs Ht. rewrite copyCollections_unfold, Hs, Ht. eexists. split; [done|].
  split; [done|]. simpl. by rewrite <- app_assoc.
Qed.

(** ** Failures inside the loop *)

Lemma run_collections_app fuel o names1 names2 summary w :
  run_collections fuel o (names1 ++ names2) summary w =
  match run_collections fuel o names1 summary w with
  | Ok s w1 => run_collections fuel o names2 s w1
  | Throw msg w1 => Throw msg w1
  | Diverge => Diverge
  end.
Proof.
  revert summary w. induction names1 as [|name rest IH]; intros summary w; simpl; [done|].
  unfold bind. destruct (process_collection fuel o name w) as [e w1|msg w1|]; [|done..].
  apply IH.
Qed.

(** C1, as the code has it. Only the schema validation has a [catch]:
    its failure becomes the entry [schema-validation-failed] and the loop
    goes on. Any other exception raised while a collection is processed
    leaves the loop at once: the collections after it are not processed,
    both connections are closed, and the caller gets the exception and no
    result. A run that returns has exactly one entry per resolved
    collection, in order. *)
Theorem C1_failure_isolation (fuel : nat) (o : options) :
  (∀ name w msg w1,
     length (matched o w name) ≠ 0 →
     validateSchema o = true → dryRun o = false → exportJson o = false →
     schema_probe name (build_query o) w = Throw msg w1 →
     process_collection fuel o name w
     = Ok (Entry name 0 (length (matched o w name)) "schema-validation-failed"
             (Some msg)) w1)
  ∧ (∀ names1 name names2 w s1 wk msg w1,
       run_collections fuel o names1 [] w = Ok s1 wk →
       process_collection fuel o name wk = Throw msg w1 →
       run_collections fuel o (names1 ++ name :: names2) [] w = Throw msg w1)
  ∧ (∀ w msg w1,
       src_up (env w) = true → tgt_up (env w) = true →
       run_body fuel o (connected w) = Throw msg w1 →
       ∃ w', copyCollections fuel o w = Throw msg w'
             ∧ src_open w' = false ∧ tgt_open w' = false)
  ∧ (∀ w s w',
       copyCollections fuel o w = Ok s w' →
       map e_name s = resolve_collections (collections o) (map fst (source (env w)))).
Proof.
  split; [|split; [|split]].
  - intros name w msg w1 Hn Hv Hd He Hp. rewrite process_collection_cases. cbn zeta.
    apply Nat.eqb_neq in Hn. by rewrite Hn, Hv, Hd, He, Hp.
  - intros names1 name names2 w s1 wk msg w1 H1 Hk.
    rewrite run_collections_app, H1. simpl. by rewrite (bind_eq_Throw _ _ _ _ _ Hk).
  - intros w msg w1 Hs Ht Hb.
    pose proof (connections_closed_once fuel o w) as Hc.
    rewrite copyCollections_unfold, Hs, Ht in *. unfold try_finally in *.
    rewrite Hb in *. destruct (finally_block o w1) as (w2 & Hw2 & _).
    rewrite Hw2 in *. exists w2. split; [done|].
    destruct (Hc w2) as (? & ? & _); done.
  - intros w s w'. apply copyCollections_names.
Qed.

(** ** Incremental upsert: nothing is deleted *)


Lemma store_upsert_docs name d w j :
  doc_id d = Some j → validator (env w) name d = true →
  store_upsert name d w
  = (None, set_tgt_docs <[name := upsert1 (target_docs w name) d]> w).
Proof. intros Hj Hv. unfold store_upsert, upsert1. by rewrite Hj, Hv. Qed.



Lemma upsert_loop_rest o name cursor acc copied w acc' c' w' :
  upsert_loop o name cursor acc copied w = Ok (acc', c') w' →
  ∀ d, d ∈ acc' → d ∈ acc ++ cursor.
Proof.
  revert acc copied w. induction cursor as [|d c IH]; intros acc copied w; simpl.
  - intros [= <- _ _]. by rewrite app_nil_r.
  - destruct (_ <=? _).
    + intros (? & w1 & _ & (? & w2 & _ & Hrec)%bind_Ok)%bind_Ok d' Hd'.
      pose proof (IH _ _ _ Hrec d' Hd') as Hin. simpl in Hin.
      apply elem_of_app. right. by right.
    + intros Hrec d' Hd'. pose proof (IH _ _ _ Hrec d' Hd') as Hin.
      by rewrite <- app_assoc in Hin.
Qed.

Section Kept.
Context (w0 : world) (n0 : string) (k : value) (d0 : doc) (untouched : Prop).
Let K := kept w0 n0 k d0 untouched.

Lemma kept_emit e w : K w → K (emit e w).
Proof. done. Qed.

Lemma kept_docs_other name x w : name ≠ n0 → K w → K (set_tgt_docs <[name := x]> w).
Proof.
  intros Hn (He & Hs & Hu). split; [done|]. rewrite target_docs_set_ne by done. done.
Qed.













End Kept.

(** ** Incremental upsert: a second run changes nothing *)

Lemma same_docs_refl w : same_docs w w.
Proof. by split. Qed.

Lemma same_docs_trans w1 w2 w3 : same_docs w1 w2 → same_docs w2 w3 → same_docs w1 w3.
Proof.
  intros (He & Hd) (He' & Hd'). split; [congruence|]. intros n. by rewrite Hd', Hd.
Qed.

Lemma quiet_same_docs w w1 : quiet w w1 → same_docs w w1.
Proof. by intros (He & Hd & _). Qed.

Lemma settled_ext o w w1 name :
  env w1 = env w → target_docs w1 name = target_docs w name →
  settled o w name → settled o w1 name.
Proof.
  intros He Hd. unfold settled, in_sync, probe_rejects.
  rewrite (matched_env o w w1) by done. rewrite He, Hd. done.
Qed.

(** *** What a completed upsert leaves behind *)

Lemma unordered_upsert_None name batch err w w' :
  Forall (λ d, is_Some (doc_id d)) batch →
  unordered (store_upsert name) batch err w = (None, w') →
  err = None ∧ env w' = env w
  ∧ Forall (λ d, validator (env w) name d = true) batch
  ∧ target_docs w' name = foldl upsert1 (target_docs w name) batch.
Proof.
  revert err w. induction batch as [|d batch IH]; intros err w Hids; simpl.
  - by intros [= -> ->].
  - apply Forall_cons in Hids as [[j Hj] Hids].
    destruct (store_upsert name d w) as [e w1] eqn:Hop.
    intros H. apply IH in H as (Herr & He & Hv & Hdocs); [|done].
    destruct err as [?|]; [done|]. subst e.
    destruct (validator (env w) name d) eqn:Hvd.
    + rewrite (store_upsert_docs _ _ _ j) in Hop by done. injection Hop as <-.
      rewrite target_docs_set_eq in Hdocs. simpl in *.
      split; [done|]. split; [done|]. split; [by constructor|done].
    + unfold store_upsert in Hop. by rewrite Hj, Hvd in Hop.
Qed.

Lemma bulkWrite_Ok name batch w u w' :
  Forall (λ d, is_Some (doc_id d)) batch →
  bulkWrite name batch w = Ok u w' →
  env w' = env w
  ∧ Forall (λ d, validator (env w) name d = true) batch
  ∧ target_docs w' name = foldl upsert1 (target_docs w name) batch.
Proof.
  intros Hids. unfold bulkWrite. destruct batch as [|d batch]; [done|].
  destruct (unordered _ _ _ _) as [[msg|] w1] eqn:Hun; simpl; [done|].
  intros [= _ <-]. by apply unordered_upsert_None in Hun as (_ & ? & ? & ?).
Qed.

Lemma upsert_loop_docs o name cursor acc copied w acc' c' w' :
  Forall (λ d, is_Some (doc_id d)) (acc ++ cursor) →
  upsert_loop o name cursor acc copied w = Ok (acc', c') w' →
  ∃ written, acc ++ cursor = written ++ acc'
    ∧ env w' = env w
    ∧ Forall (λ d, validator (env w) name d = true) written
    ∧ target_docs w' name = foldl upsert1 (target_docs w name) written.
Proof.
  revert acc copied w. induction cursor as [|d c IH]; intros acc copied w Hids; simpl.
  - intros [= <- _ <-]. exists []. by rewrite app_nil_r.
  - rewrite (cons_middle d acc c), app_assoc in Hids.
    destruct (_ <=? _).
    + intros (? & w1 & Hbw & (? & w2 & Hbar & Hrec)%bind_Ok)%bind_Ok.
      apply Forall_app in Hids as [Hids1 Hids2].
      apply bulkWrite_Ok in Hbw as (He1 & Hv1 & Hd1); [|done].
      apply bar_batches with (name := name) in Hbar as (_ & Hd2 & He2).
      apply IH in Hrec as (written & Hsplit & He3 & Hv3 & Hd3); [|done].
      simpl in Hsplit. exists ((acc ++ [d]) ++ written).
      rewrite He2, He1 in *. split; [|split; [done|split]].
      * rewrite (cons_middle d acc c), app_assoc, Hsplit, <- !app_assoc. done.
      * by apply Forall_app.
      * by rewrite foldl_app, Hd3, Hd2, Hd1.
    + intros Hrec. apply IH in Hrec as (written & Hsplit & He3 & Hv3 & Hd3); [|done].
      exists written. by rewrite (cons_middle d acc c), app_assoc.
Qed.

Lemma incremental_copy_docs o name cursor w c' w' :
  Forall (λ d, is_Some (doc_id d)) cursor →
  incremental_copy o name cursor w = Ok c' w' →
  env w' = env w
  ∧ Forall (λ d, validator (env w) name d = true) cursor
  ∧ target_docs w' name = foldl upsert1 (target_docs w name) cursor.
Proof.
  intros Hids. unfold incremental_copy.
  intros ([acc' c1] & w1 & Hloop & Hrest)%bind_Ok.
  apply upsert_loop_docs in Hloop as (written & Hsplit & He & Hv & Hd); [|done].
  simpl in *. subst cursor. apply Forall_app in Hids as [Hids1 Hids2].
  destruct (0 <? length acc') eqn:Hne.
  - apply bind_Ok in Hrest as (? & w2 & Hbw & (? & w3 & Hbar & [= _ <-])%bind_Ok).
    apply bulkWrite_Ok in Hbw as (He1 & Hv1 & Hd1); [|done].
    apply bar_batches with (name := name) in Hbar as (_ & Hd2 & He2).
    rewrite He in *. split; [congruence|]. split; [by apply Forall_app|].
    by rewrite foldl_app, Hd2, Hd1, Hd.
  - injection Hrest as _ <-. destruct acc' as [|x acc']; [|done].
    rewrite app_nil_r. done.
Qed.

Lemma NoDup_ids_filter (P : doc → Prop) `{!∀ d, Decision (P d)} (l : list doc) :
  NoDup (doc_id <$> l) → NoDup (doc_id <$> filter P l).
Proof.
  induction l as [|d l IH]; [done|]. rewrite fmap_cons, NoDup_cons. intros [Hd Hl].
  rewrite filter_cons. case_decide; [|by apply IH].
  rewrite fmap_cons, NoDup_cons. split; [|by apply IH].
  intros (d' & Heq & [_ Hd']%list_elem_of_filter)%list_elem_of_fmap.
  apply Hd. rewrite Heq. by apply list_elem_of_fmap_2.
Qed.

Lemma find_id_foldl_other k T S :
  (∀ d, d ∈ S → doc_id d ≠ Some k) →
  find_id k (foldl upsert1 T S) = find_id k T.
Proof.
  revert T. induction S as [|d S IH]; intros T HS; [done|]. simpl.
  rewrite IH by (intros d' Hd'; apply HS; by right).
  destruct (doc_id d) as [j|] eqn:Hj.
  - rewrite (find_id_upsert1 T d j k Hj). case_decide as Hkj; [|done].
    subst j. destruct (HS d); [left|done].
  - unfold upsert1. by rewrite Hj.
Qed.

Lemma foldl_upsert1_in_sync T S d :
  Forall (λ d, is_Some (doc_id d)) S → NoDup (doc_id <$> S) → d ∈ S →
  ∃ k, doc_id d = Some k ∧ find_id k (foldl upsert1 T S) = Some d.
Proof.
  revert T. induction S as [|d1 S IH]; intros T Hids Hnd Hd.
  - by apply elem_of_nil in Hd.
  - apply Forall_cons in Hids as [[j Hj] Hids].
    rewrite fmap_cons in Hnd. apply NoDup_cons in Hnd as [Hfresh Hnd]. simpl.
    apply elem_of_cons in Hd as [->|Hd]; [|by apply IH].
    exists j. split; [done|]. rewrite find_id_foldl_other.
    + rewrite (find_id_upsert1 T d1 j j Hj). by rewrite decide_True.
    + intros d' Hd' Heq. apply Hfresh. rewrite Hj, <- Heq.
      by apply list_elem_of_fmap_2.
Qed.

Lemma source_wf_env w w1 : env w1 = env w → source_wf w → source_wf w1.
Proof.
  intros He Hwf name. rewrite (source_docs_env w w1 name He). apply Hwf.
Qed.

Lemma matched_wf o w name :
  source_wf w →
  Forall (λ d, is_Some (doc_id d)) (matched o w name)
  ∧ NoDup (doc_id <$> matched o w name).
Proof.
  intros Hwf. destruct (Hwf name) as [Hids Hnd]. split.
  - by apply Forall_filter.
  - by apply NoDup_ids_filter.
Qed.

(** A live incremental copy that returns leaves the collection in sync. *)
Lemma live_copy_in_sync fuel o name total w e w' :
  incremental o = true → source_wf w →
  live_copy fuel o name (build_query o) total w = Ok e w' →
  env w' = env w ∧ in_sync o w' name.
Proof.
  intros Hinc Hwf. destruct (matched_wf o w name Hwf) as [Hids Hnd].
  unfold live_copy. rewrite Hinc. unfold bind at 1, find. fold (matched o w name).
  intros (copied & w1 & Hcopy & Htail)%bind_Ok.
  apply incremental_copy_docs in Hcopy as (He & Hv & Hd); [|done].
  pose proof (live_copy_tail_quiet o name
    (Entry name copied total "incremental-copied" None) w1 w1 (quiet_refl w1)) as Hq.
  rewrite Htail in Hq. destruct Hq as (He' & Hd' & _).
  split; [congruence|]. intros d Hin.
  rewrite (matched_env o w w') in Hin by congruence.
  rewrite He', He, Hd', Hd. split.
  - rewrite Forall_forall in Hv. by apply Hv.
  - by apply foldl_upsert1_in_sync.
Qed.

Lemma transfer_settled fuel o name total w e w' :
  incremental o = true → importJson o = false → source_wf w →
  transfer fuel o name total w = Ok e w' →
  env w' = env w ∧ settled o w' name.
Proof.
  intros Hinc Himp Hwf Htr.
  assert (env w' = env w) as He.
  { revert Htr. intros Htr.
    apply (preserves_final (λ w1, env w1 = env w) (transfer fuel o name total) w w');
      [|done|by rewrite Htr].
    unfold transfer. repeat pres_step.
    - by apply (pres_bar _ (λ _, True)).
    - by apply (pres_import_json _ (λ _, True) (λ _, True)).
    - by apply (pres_export_json _ (λ _, True)).
    - by apply (pres_live_copy _ (λ _, True) (λ _, True)). }
  split; [done|]. unfold transfer in Htr. rewrite Himp in Htr.
  destruct (dryRun o) eqn:Hdry; [right; by left|].
  destruct (exportJson o) eqn:Hexp; [right; right; by left|].
  apply bind_Ok in Htr as (? & w1 & Hbar & Hlive).
  apply bar_start_quiet in Hbar as (He1 & _).
  apply live_copy_in_sync in Hlive as [_ Hsync]; [|done|by apply (source_wf_env w)].
  by do 4 right.
Qed.

(** After a collection has been processed to a normal end, it is settled. *)
Lemma process_collection_settled fuel o name w e w' :
  incremental o = true → importJson o = false → source_wf w →
  process_collection fuel o name w = Ok e w' →
  settled o w' name.
Proof.
  intros Hinc Himp Hwf. rewrite process_collection_cases. cbn zeta.
  destruct (_ =? 0) eqn:Hz.
  { intros [= _ <-]. left. apply Nat.eqb_eq in Hz. by destruct (matched o w name). }
  destruct (validateSchema o && negb (dryRun o) && negb (exportJson o)) eqn:Hflags.
  2:{ intros Htr. by apply transfer_settled in Htr as [_ ?]. }
  destruct (schema_probe name (build_query o) w) as [u w1|msg w1|] eqn:Hp; [| |done].
  - assert (final_world (schema_probe name (build_query o) w) = Some w1) as Hf
      by (by rewrite Hp).
    apply schema_probe_quiet in Hf as (He & _).
    intros Htr. apply transfer_settled in Htr as [_ ?]; [done..|].
    by apply (source_wf_env w).
  - intros [= _ <-].
    assert (final_world (schema_probe name (build_query o) w) = Some w1) as Hf
      by (by rewrite Hp).
    apply schema_probe_quiet in Hf as (He & Hd & _).
    apply schema_probe_Throw in Hp as (sd & Hsd & Hrej).
    apply andb_true_iff in Hflags as [[Hv _]%andb_true_iff _].
    apply (settled_ext o w); [done..|]. do 3 right. left. split; [done|].
    exists sd. split; [done|].
    destruct (matched_wf o w name Hwf) as [Hids _].
    assert (is_Some (doc_id sd)) as Hid.
    { rewrite Forall_forall in Hids. apply Hids. by apply head_Some_elem_of. }
    specialize (Hrej Hid). unfold probe_rejects.
    destruct (validator (env w) name (marked sd)); [right; apply Hrej|by left].
Qed.

(** *** Processing a settled collection *)

Lemma returns_try_catch {A} (I : world → Prop) (m : M A) h :
  (∀ w, m w ≠ Diverge) → preserves I m → (∀ msg, returns I (h msg)) →
  returns I (try_catch m h).
Proof.
  intros Htot Hm Hh w Hw. unfold try_catch. specialize (Hm w Hw). specialize (Htot w).
  destruct (m w) as [a w1|msg w1|]; [by exists a, w1|by apply Hh|done].
Qed.

Ltac ret_step :=
  match goal with
  | |- returns _ (ret _) => apply returns_ret
  | |- returns _ (bind _ _) => apply returns_bind; [|intros ?]
  | |- returns _ (when _ _) => apply returns_when; intros ?
  | |- returns _ (if ?c then _ else _) => destruct c eqn:?
  end.

Section SameDocs.
Context (w0 : world).
Let J := same_docs w0.

Lemma same_docs_emit e w : J w → J (emit e w).
Proof. done. Qed.

Lemma returns_log e : returns J (log e).
Proof. intros w Hw. by exists tt, (emit e w). Qed.

Lemma returns_bar o e : returns J (bar o e).
Proof. apply returns_when. intros _. apply returns_log. Qed.

Lemma createIndex_total name key opts iname w : createIndex name key opts iname w ≠ Diverge.
Proof. unfold createIndex. destruct (bool_decide _); [done|]. by destruct (existsb _ _). Qed.

Lemma returns_create_each name idxs : returns J (create_each name idxs).
Proof.
  induction idxs as [|i idxs IH]; simpl; repeat ret_step; [|done].
  apply returns_try_catch.
  - intros w. apply createIndex_total.
  - by apply (pres_createIndex J (λ _, True)).
  - intros msg. apply returns_log.
Qed.

Lemma returns_tail o name (e : entry) :
  returns J (when (copyIndexes o)
               (let* idxs := indexes name in copyIndexesToTarget name idxs) >>
             bar o EvBarStop >> ret e).
Proof.
  repeat ret_step.
  - apply returns_pure.
  - apply returns_create_each.
  - apply returns_bar.
Qed.

Lemma returns_export_loop o cursor allDocs docCount :
  returns J (export_loop o cursor allDocs docCount).
Proof.
  revert allDocs docCount. induction cursor as [|d c IH]; intros allDocs docCount; simpl;
    repeat ret_step; [apply returns_bar|apply IH].
Qed.

Lemma returns_export_json o name q total : returns J (export_json o name q total).
Proof.
  unfold export_json. repeat ret_step;
    try apply returns_bar; try apply returns_export_loop;
    try (by intros w Hw; eexists _, _).
Qed.

(** The same-documents invariant under upserts of documents in sync. *)
Lemma returns_store_upsert name d w :
  J w →
  validator (env w0) name d = true →
  (∃ k, doc_id d = Some k ∧ find_id k (target_docs w0 name) = Some d) →
  ∃ w', store_upsert name d w = (None, w') ∧ J w'.
Proof.
  intros (He & Hd) Hv (k & Hk & Hf). eexists. split.
  - apply (store_upsert_docs _ _ _ k); [done|]. by rewrite He.
  - split; [done|]. intros n. rewrite target_docs_set. case_decide as Hn; [|done].
    subst n. rewrite Hd. by apply (upsert1_same _ _ k).
Qed.

Lemma returns_unordered name batch err w :
  J w →
  (∀ d, d ∈ batch → validator (env w0) name d = true
        ∧ ∃ k, doc_id d = Some k ∧ find_id k (target_docs w0 name) = Some d) →
  ∃ w', unordered (store_upsert name) batch err w = (err, w') ∧ J w'.
Proof.
  revert err w. induction batch as [|d batch IH]; intros err w Hw Hb; simpl.
  - by exists w.
  - destruct (Hb d) as [Hv Hs]; [left|].
    destruct (returns_store_upsert name d w Hw Hv Hs) as (w1 & -> & Hw1).
    destruct (IH (match err with Some _ => err | None => None end) w1 Hw1)
      as (w2 & Hun & Hw2).
    { intros d' Hd'. apply Hb. by right. }
    exists w2. split; [|done]. rewrite Hun. by destruct err.
Qed.

Lemma returns_bulkWrite name batch :
  batch ≠ [] →
  (∀ d, d ∈ batch → validator (env w0) name d = true
        ∧ ∃ k, doc_id d = Some k ∧ find_id k (target_docs w0 name) = Some d) →
  returns J (bulkWrite name batch).
Proof.
  intros Hne Hb w Hw. unfold bulkWrite. destruct batch as [|d batch]; [done|].
  destruct (returns_unordered name (d :: batch) None
              (emit (EvBulkWrite name (d :: batch)) w)) as (w1 & -> & Hw1); [done..|].
  by exists tt, w1.
Qed.

Lemma returns_upsert_loop o name cursor acc copied :
  (∀ d, d ∈ acc ++ cursor → validator (env w0) name d = true
        ∧ ∃ k, doc_id d = Some k ∧ find_id k (target_docs w0 name) = Some d) →
  returns J (upsert_loop o name cursor acc copied).
Proof.
  revert acc copied. induction cursor as [|d c IH]; intros acc copied Hb; simpl;
    repeat ret_step.
  - apply returns_bulkWrite; [by destruct acc|].
    intros d' Hd'. apply Hb. rewrite (cons_middle d acc c), app_assoc.
    apply elem_of_app. by left.
  - apply returns_bar.
  - apply IH. intros d' Hd'. apply Hb. apply elem_of_app. right. by right.
  - apply IH. intros d' Hd'. apply Hb. by rewrite (cons_middle d acc c), app_assoc.
Qed.

Lemma returns_incremental_copy o name cursor :
  (∀ d, d ∈ cursor → validator (env w0) name d = true
        ∧ ∃ k, doc_id d = Some k ∧ find_id k (target_docs w0 name) = Some d) →
  returns J (incremental_copy o name cursor).
Proof.
  intros Hb w Hw. unfold incremental_copy.
  destruct (returns_upsert_loop o name cursor [] 0 Hb w Hw) as ([acc' c'] & w1 & E & Hw1).
  rewrite (bind_eq_Ok _ _ _ _ _ E). simpl.
  pose proof (upsert_loop_rest _ _ _ _ _ _ _ _ _ E) as Hrest. simpl in Hrest.
  destruct (0 <? length acc') eqn:Hne; [|by eexists _, _].
  assert (returns J (bulkWrite name acc' >>
                     bar o (EvBarUpdate (c' + length acc')) >>
                     ret (c' + length acc'))) as Hflush.
  { repeat ret_step; [|apply returns_bar].
    apply returns_bulkWrite; [by destruct acc'|]. intros d Hd. by apply Hb, Hrest. }
  by apply Hflush.
Qed.
End SameDocs.

Lemma settled_process_collection fuel o name w :
  incremental o = true → importJson o = false → source_wf w →
  settled o w name →
  ∃ e w', process_collection fuel o name w = Ok e w' ∧ same_docs w w'.
Proof.
  intros Hinc Himp Hwf Hst. rewrite process_collection_cases. cbn zeta.
  destruct (_ =? 0) eqn:Hz; [eexists _, _; split; [done|apply same_docs_refl]|].
  apply Nat.eqb_neq in Hz.
  assert (matched o w name ≠ []) as Hne by (by destruct (matched o w name)).
  destruct (matched_wf o w name Hwf) as [Hids _].
  (* the probe of a settled collection is rejected *)
  assert (validateSchema o = true → dryRun o = false → exportJson o = false →
          ∃ msg w1, schema_probe name (build_query o) w = Throw msg w1
                    ∧ same_docs w w1) as Hprobe.
  { intros Hv Hd He.
    assert (∃ sd, head (matched o w name) = Some sd ∧ probe_rejects w name sd)
      as (sd & Hsd & Hrej).
    { destruct Hst as [?|[?|[?|[[_ ?]|Hsync]]]]; [done|congruence..|done|].
      destruct (matched o w name) as [|sd l] eqn:Hm; [done|].
      exists sd. split; [done|]. right.
      destruct (Hsync sd) as (_ & k & -> & Hf); [rewrite Hm; left|]. simpl. by rewrite Hf. }
    assert (is_Some (doc_id sd)) as [k Hk].
    { rewrite Forall_forall in Hids. apply Hids. by apply head_Some_elem_of. }
    unfold probe_rejects in Hrej. rewrite Hk in Hrej. simpl in Hrej.
    destruct (schema_probe_rejected name (build_query o) w sd k Hsd Hk Hrej)
      as (w1 & Hp).
    eexists _, w1. split; [done|].
    assert (final_world (schema_probe name (build_query o) w) = Some w1) as Hf
      by (by rewrite Hp).
    by apply schema_probe_quiet in Hf as (? & ? & _). }
  (* the transfer of a settled collection returns and changes nothing *)
  assert (validateSchema o && negb (dryRun o) && negb (exportJson o) = false →
          ∃ e w', transfer fuel o name (length (matched o w name)) w = Ok e w'
                  ∧ same_docs w w') as Htransfer.
  { intros Hflags. unfold transfer. rewrite Himp.
    destruct (dryRun o) eqn:Hdry; [eexists _, _; split; [done|apply same_docs_refl]|].
    assert (returns (same_docs w)
              (when (0 <? length (matched o w name))
                 (bar o (EvBarStart (length (matched o w name)) name)))) as Hbar.
    { apply returns_when. intros _. apply returns_bar. }
    destruct (exportJson o) eqn:Hexp.
    - apply (returns_bind _ _ _ Hbar); [|apply same_docs_refl].
      intros _. apply returns_export_json.
    - simpl in Hflags. rewrite ?andb_true_r in Hflags.
      destruct Hst as [?|[?|[?|[[? _]|Hsync]]]]; [done|congruence..|].
      apply (returns_bind _ _ _ Hbar); [|apply same_docs_refl].
      intros _ w1 Hw1. unfold live_copy, bind at 1, find. rewrite Hinc.
      rewrite (source_docs_env w w1) by apply Hw1. fold (matched o w name).
      revert w1 Hw1.
      fold (returns (same_docs w)
        (let* copied := incremental_copy o name (matched o w name) in
         when (copyIndexes o)
           (let* idxs := indexes name in copyIndexesToTarget name idxs) >>
         bar o EvBarStop >>
         ret (Entry name copied (length (matched o w name)) "incremental-copied" None))).
      apply returns_bind; [by apply returns_incremental_copy|].
      intros copied. apply returns_tail. }
  destruct (validateSchema o && negb (dryRun o) && negb (exportJson o)) eqn:Hflags;
    [|by apply Htransfer].
  apply andb_true_iff in Hflags as [[Hv Hd%negb_true_iff]%andb_true_iff He%negb_true_iff].
  destruct (Hprobe Hv Hd He) as (msg & w1 & -> & Hw1). by eexists _, _.
Qed.

(** *** Whole runs *)

Lemma run_collections_frame fuel o names summary w w' n :
  n ∉ names →
  final_world (run_collections fuel o names summary w) = Some w' →
  target_docs w' n = target_docs w n.
Proof.
  intros Hn.
  apply (preserves_final (λ w1, target_docs w1 n = target_docs w n)); [|done].
  apply (pres_run_collections _ (λ _, True) (λ m, m ≠ n)); try done.
  - intros name' x w1 Hne Hw1. rewrite target_docs_set_ne; done.
  - intros name Hin ->. done.
Qed.

Lemma run_collections_env fuel o names summary w w' :
  final_world (run_collections fuel o names summary w) = Some w' → env w' = env w.
Proof.
  apply (preserves_final (λ w1, env w1 = env w)); [|done].
  by apply (pres_run_collections _ (λ _, True) (λ _, True)).
Qed.

Lemma run_collections_settled fuel o names summary w s w1 :
  incremental o = true → importJson o = false → source_wf w →
  run_collections fuel o names summary w = Ok s w1 →
  ∀ n, n ∈ names → settled o w1 n.
Proof.
  intros Hinc Himp. revert summary w.
  induction names as [|name rest IH]; intros summary w Hwf; simpl.
  - intros _ n Hn. by apply elem_of_nil in Hn.
  - intros (e & wa & He & Hrest)%bind_Ok n Hn.
    assert (env wa = env w) as Hea
      by (apply (process_collection_env fuel o name); by rewrite He).
    assert (source_wf wa) as Hwfa by (by apply (source_wf_env w)).
    destruct (decide (n ∈ rest)) as [Hin|Hout]; [by apply (IH _ _ Hwfa Hrest)|].
    apply elem_of_cons in Hn as [->|?]; [|done].
    apply (settled_ext o wa).
    + apply (run_collections_env fuel o rest (summary ++ [e])). by rewrite Hrest.
    + apply (run_collections_frame fuel o rest (summary ++ [e])); [done|].
      by rewrite Hrest.
    + by apply (process_collection_settled fuel o name w e).
Qed.

Lemma settled_run_collections fuel o names summary w :
  incremental o = true → importJson o = false → source_wf w →
  (∀ n, n ∈ names → settled o w n) →
  ∃ s w', run_collections fuel o names summary w = Ok s w' ∧ same_docs w w'.
Proof.
  intros Hinc Himp. revert summary w.
  induction names as [|name rest IH]; intros summary w Hwf Hst; simpl.
  - eexists _, _. split; [done|]. apply same_docs_refl.
  - destruct (settled_process_collection fuel o name w Hinc Himp Hwf)
      as (e & wa & He & Hsame); [apply Hst; left|].
    rewrite (bind_eq_Ok _ _ _ _ _ He).
    destruct (IH (summary ++ [e]) wa) as (s & w' & Hrun & Hsame').
    + apply (source_wf_env w); [apply Hsame|done].
    + intros n Hn. apply (settled_ext o w); [apply Hsame|apply Hsame|].
      apply Hst. by right.
    + exists s, w'. split; [done|]. by apply (same_docs_trans w wa).
Qed.

Lemma mkdir_step o w :
  ∃ w1, when (exportJson o)
          (let* present := existsSync (outputDir o) in
           when (negb present) (mkdirSync (outputDir o))) w = Ok tt w1
        ∧ env w1 = env w ∧ tgt_docs w1 = tgt_docs w.
Proof.
  destruct (exportJson o); simpl; [|by exists w].
  unfold bind, existsSync. destruct (negb _); simpl; by eexists.
Qed.

Lemma tgt_docs_same w w1 : tgt_docs w1 = tgt_docs w → ∀ n, target_docs w1 n = target_docs w n.
Proof. intros H n. unfold target_docs. by rewrite H. Qed.

Lemma run_body_settled fuel o w s w1 :
  incremental o = true → importJson o = false → source_wf w →
  run_body fuel o w = Ok s w1 →
  env w1 = env w
  ∧ ∀ n, n ∈ resolve_collections (collections o) (map fst (source (env w))) →
         settled o w1 n.
Proof.
  intros Hinc Himp Hwf Hbody.
  split; [apply (run_body_env fuel o); by rewrite Hbody|].
  revert Hbody. unfold run_body, bind at 1, listCollections.
  destruct (mkdir_step o w) as (wm & Hm & He & _).
  rewrite (bind_eq_Ok _ _ _ _ _ Hm). intros Hrun.
  apply (run_collections_settled fuel o _ [] wm s); try done.
  by apply (source_wf_env w).
Qed.

Lemma settled_run_body fuel o w :
  incremental o = true → importJson o = false → source_wf w →
  (∀ n, n ∈ resolve_collections (collections o) (map fst (source (env w))) →
        settled o w n) →
  ∃ s w', run_body fuel o w = Ok s w' ∧ same_docs w w'.
Proof.
  intros Hinc Himp Hwf Hst. unfold run_body, bind at 1, listCollections.
  destruct (mkdir_step o w) as (wm & Hm & He & Hd).
  rewrite (bind_eq_Ok _ _ _ _ _ Hm).
  destruct (settled_run_collections fuel o
              (resolve_collections (collections o) (map fst (source (env w)))) [] wm)
    as (s & w' & Hrun & Hsame); try done.
  - by apply (source_wf_env w).
  - intros n Hn. apply (settled_ext o w); [done|by apply tgt_docs_same|by apply Hst].
  - exists s, w'. split; [done|]. apply (same_docs_trans w wm); [|done].
    split; [done|]. by apply tgt_docs_same.
Qed.

Lemma copyCollections_Ok_world fuel o w s w1 :
  copyCollections fuel o w = Ok s w1 →
  src_up (env w) = true ∧ tgt_up (env w) = true
  ∧ ∃ wb, run_body fuel o (connected w) = Ok s wb
          ∧ env w1 = env wb ∧ tgt_docs w1 = tgt_docs wb.
Proof.
  rewrite copyCollections_unfold.
  destruct (src_up (env w)); [|done]. destruct (tgt_up (env w)); [|done].
  unfold try_finally.
  destruct (run_body fuel o (connected w)) as [s1 wb|msg wb|]; [| |done].
  - destruct (finally_block o wb) as (w2 & -> & He & Hd & _). intros [= <- <-].
    split; [done|]. split; [done|]. by exists wb.
  - by destruct (finally_block o wb) as (w2 & -> & _).
Qed.

(** ** JSON import without data *)

Lemma import_json_missing fuel o name w :
  files w !! path_join (outputDir o) (name +:+ ".json") = None →
  path_join (outputDir o) (name +:+ ".json") ∉ dirs w →
  import_json fuel o name w
  = Ok (Entry name 0 0 "no-json-file" None)
       (if showProgress o then emit EvBarStop w else w).
Proof.
  intros Hf Hd. unfold import_json, bind at 1, existsSync. rewrite Hf.
  rewrite (bool_decide_eq_false_2 (is_Some None)) by (by intros [? ?]).
  rewrite bool_decide_eq_false_2 by done. simpl.
  unfold bind, bar, when, log, ret. by destruct (showProgress o).
Qed.

Lemma import_json_empty fuel o name w :
  files w !! path_join (outputDir o) (name +:+ ".json") = Some (FDocs []) →
  import_json fuel o name w
  = Ok (Entry name 0 0 "json-empty" None)
       (if showProgress o then emit EvBarStop w else w).
Proof.
  intros Hf. unfold import_json, bind at 1, existsSync. rewrite Hf.
  rewrite (bool_decide_eq_true_2 (is_Some (Some _))) by (by eexists). simpl.
  unfold bind at 1, read_docs. rewrite Hf. simpl.
  unfold bind, bar, when, log, ret. by destruct (showProgress o).
Qed.

Lemma schema_probe_files name q w w1 :
  final_world (schema_probe name q w) = Some w1 →
  files w1 = files w ∧ dirs w1 = dirs w ∧ tgt_indexes w1 = tgt_indexes w.
Proof.
  apply (preserves_final
           (λ x, files x = files w ∧ dirs x = dirs w ∧ tgt_indexes x = tgt_indexes w));
    [|done].
  by apply (pres_schema_probe _ (λ _, True) (λ _, True)).
Qed.

Lemma emit_if (b : bool) e w :
  (∀ n, target_docs (if b then emit e w else w) n = target_docs w n)
  ∧ tgt_indexes (if b then emit e w else w) = tgt_indexes w
  ∧ trace (if b then emit e w else w) = trace w ++ (if b then [e] else []).
Proof. destruct b; simpl; [done|]. by rewrite app_nil_r. Qed.

(** C8, as the code has it. In import mode, outside a dry run, for a
    collection in which the query selects at least one source document and
    whose schema probe is off or has passed (state [w1]): when the data
    file is missing the entry is [no-json-file], when it holds an empty
    array the entry is [json-empty], both with [copied = 0] and
    [total = 0]; every target collection keeps its documents and indexes,
    and after the probe no write is issued against the target. *)
Theorem C8_import_artifacts (fuel : nat) (o : options) (name : string) (w w1 : world) :
  importJson o = true → dryRun o = false → length (matched o w name) ≠ 0 →
  (if validateSchema o && negb (exportJson o)
   then schema_probe name (build_query o) w = Ok tt w1 else w1 = w) →
  (files w !! path_join (outputDir o) (name +:+ ".json") = None →
   path_join (outputDir o) (name +:+ ".json") ∉ dirs w →
   ∃ w', process_collection fuel o name w = Ok (Entry name 0 0 "no-json-file" None) w'
         ∧ (∀ n, target_docs w' n = target_docs w n)
         ∧ tgt_indexes w' = tgt_indexes w
         ∧ ∃ evs, trace w' = trace w1 ++ evs ∧ Forall (λ e, target_write e = false) evs)
  ∧ (files w !! path_join (outputDir o) (name +:+ ".json") = Some (FDocs []) →
     ∃ w', process_collection fuel o name w = Ok (Entry name 0 0 "json-empty" None) w'
           ∧ (∀ n, target_docs w' n = target_docs w n)
           ∧ tgt_indexes w' = tgt_indexes w
           ∧ ∃ evs, trace w' = trace w1 ++ evs ∧ Forall (λ e, target_write e = false) evs).
Proof.
  intros Himp Hdry Hn Hprobe.
  assert (files w1 = files w ∧ dirs w1 = dirs w ∧ tgt_indexes w1 = tgt_indexes w
          ∧ ∀ n, target_docs w1 n = target_docs w n) as (Hf1 & Hd1 & Hi1 & Ht1).
  { destruct (validateSchema o && negb (exportJson o)); [|by subst w1].
    assert (final_world (schema_probe name (build_query o) w) = Some w1) as Hf
      by (by rewrite Hprobe).
    destruct (schema_probe_files _ _ _ _ Hf) as (? & ? & ?).
    by destruct (schema_probe_quiet _ _ _ _ Hf) as (_ & ? & _). }
  assert (process_collection fuel o name w
          = (when (0 <? length (matched o w name))
               (bar o (EvBarStart (length (matched o w name)) name)) >>
             import_json fuel o name) w1) as Hcases.
  { rewrite process_collection_cases. cbn zeta.
    apply Nat.eqb_neq in Hn. rewrite Hn, Hdry. simpl. rewrite andb_true_r.
    unfold transfer. rewrite Hdry, Himp.
    destruct (validateSchema o && negb (exportJson o)); [by rewrite Hprobe|by subst w1]. }
  assert (∃ w2, when (0 <? length (matched o w name))
                  (bar o (EvBarStart (length (matched o w name)) name)) w1 = Ok tt w2
                ∧ files w2 = files w1 ∧ dirs w2 = dirs w1
                ∧ tgt_indexes w2 = tgt_indexes w1
                ∧ (∀ n, target_docs w2 n = target_docs w1 n)
                ∧ ∃ evs, trace w2 = trace w1 ++ evs
                         ∧ Forall (λ e, target_write e = false) evs)
    as (w2 & Hbar & Hf2 & Hd2 & Hi2 & Ht2 & evs & Htr & Hevs).
  { destruct (0 <? _); simpl; unfold bar, when, log, ret; destruct (showProgress o);
      eexists; (split; [done|]); repeat (split; [done|]).
    - exists [EvBarStart (length (matched o w name)) name]. split; [done|].
      by repeat constructor.
    - exists []. by rewrite app_nil_r.
    - exists []. by rewrite app_nil_r.
    - exists []. by rewrite app_nil_r. }
  rewrite Hcases, (bind_eq_Ok _ _ _ _ _ Hbar). split.
  - intros Hmiss Hnodir. rewrite import_json_missing by congruence.
    destruct (emit_if (showProgress o) EvBarStop w2) as (Hd3 & Hi3 & Ht3).
    eexists. split; [done|].
    split; [intros n; by rewrite Hd3, Ht2|].
    split; [congruence|].
    exists (evs ++ (if showProgress o then [EvBarStop] else [])).
    rewrite Ht3, Htr, <- app_assoc. split; [done|].
    apply Forall_app. split; [done|]. destruct (showProgress o); by repeat constructor.
  - intros Hempty. rewrite import_json_empty by congruence.
    destruct (emit_if (showProgress o) EvBarStop w2) as (Hd3 & Hi3 & Ht3).
    eexists. split; [done|].
    split; [intros n; by rewrite Hd3, Ht2|].
    split; [congruence|].
    exists (evs ++ (if showProgress o then [EvBarStop] else [])).
    rewrite Ht3, Htr, <- app_assoc. split; [done|].
    apply Forall_app. split; [done|]. destruct (showProgress o); by repeat constructor.
Qed.

(** ** Incremental upsert: what a run upserts, whatever its outcome *)








(** *** Upserting the same documents twice *)





(** *** Processing a collection again *)









(** *** Running the loop again *)








(** * The claims on sample data *)

Ltac has_ids := repeat constructor; eexists; vm_compute; reflexivity.

Ltac by_decide :=
  match goal with
  | |- ?P => apply (bool_decide_unpack P); vm_compute; exact I
  end.



Lemma C6_witness :
  process_collection 0 default_options "nowhere" fresh_world
  = Ok (Entry "nowhere" 0 0 "empty" None) fresh_world.
Proof. apply (C6_nothing_matched 0 default_options "nowhere" fresh_world). reflexivity. Defined.

Lemma C7_witness :
  (∀ w', final_world (copyCollections 0 dry_options fresh_world) = Some w' →
         tgt_docs w' = tgt_docs fresh_world ∧ tgt_indexes w' = tgt_indexes fresh_world
         ∧ ∃ evs, trace w' = trace fresh_world ++ evs
                  ∧ Forall (λ e, target_write e = false) evs)
  ∧ ∃ w', copyCollections 0 dry_options fresh_world
          = Ok [Entry "a" 0 3 "dry-run" None; Entry "b" 0 1 "dry-run" None] w'.
Proof.
  destruct (C7_dry_run 0 dry_options fresh_world) as [H1 H2]; [reflexivity|].
  split; [exact H1|]. destruct H2 as (w' & Hw'); [reflexivity..|].
  exists w'. exact Hw'.
Defined.

(** C7 as stated fails on a collection without documents: the dry run
    records it as [empty], not as [dry-run]. *)
Lemma C7_counterexample :
  dryRun dry_options = true
  ∧ map e_status <$> result_of (copyCollections 0 dry_options sparse_world)
    = Some ["dry-run"; "empty"].
Proof. split; vm_compute; reflexivity. Qed.

Lemma C9_witness :
  match copyCollections 5 (with_flags false false false false false false
                             (Some ["b"; "zz"; "a"; "b"]) None) fresh_world with
  | Ok s _ => map e_name s = ["b"; "a"; "b"]
  | _ => False
  end.
Proof.
  destruct (copyCollections 5 _ fresh_world) as [s w'|msg w'|] eqn:E.
  - apply (C9_resolution _ _ _ _ _ E).
  - vm_compute in E. discriminate E.
  - vm_compute in E. discriminate E.
Defined.

(** C9 as stated fails when the request is not in listing order: the
    source lists [a] before [b], the run processes [b] before [a]. *)
Lemma C9_counterexample :
  map fst sample_source = ["a"; "b"]
  ∧ resolve_in_listing_order (Some ["b"; "a"]) (map fst sample_source) = ["a"; "b"]
  ∧ map e_name <$> result_of
      (copyCollections 5 (with_flags false false false false false false
                            (Some ["b"; "a"]) None) fresh_world)
    = Some ["b"; "a"].
Proof. repeat split; vm_compute; reflexivity. Qed.

Lemma C10_witness :
  doc_id (marked (sample_doc 1 10)) = Some (VNum 1)
  ∧ ∃ msg w',
      process_collection 5 validating_options "a" synced_world
      = Ok (Entry "a" 0 3 "schema-validation-failed" (Some msg)) w'
      ∧ msg = msg_duplicate
      ∧ (∀ n, target_docs w' n = target_docs synced_world n).
Proof.
  destruct (C10_probe_keeps_identity 5 validating_options "a" synced_world
              (sample_doc 1 10) (VNum 1)) as (H1 & H2 & _); try reflexivity.
  split; [exact H1|].
  destruct H2 as (msg & w' & Hp & Hmsg & Hd & _).
  { eexists. vm_compute. reflexivity. }
  exists msg, w'. split; [exact Hp|]. split; [|exact Hd].
  apply Hmsg. reflexivity.
Defined.

Lemma C4_witness :
  ∃ w', copyCollections 5 default_options half_world = Throw msg_refused w'
        ∧ src_open w' = true
        ∧ trace w' = trace half_world ++ [EvConnect Src; EvConnect Tgt].
Proof. apply (C4_target_refused_leaks_source 5 default_options half_world); reflexivity. Defined.

Lemma C1_witness :
  match schema_probe "a" (build_query validating_options) synced_world with
  | Throw msg w1 =>
      process_collection 5 validating_options "a" synced_world
      = Ok (Entry "a" 0 3 "schema-validation-failed" (Some msg)) w1
  | _ => False
  end.
Proof.
  destruct (schema_probe "a" (build_query validating_options) synced_world)
    as [u w1|msg w1|] eqn:E.
  - vm_compute in E. discriminate E.
  - apply (proj1 (C1_failure_isolation 5 validating_options) "a" synced_world msg w1);
      try reflexivity; [vm_compute; lia|exact E].
  - vm_compute in E. discriminate E.
Defined.

(** C1 as stated fails when a batch write raises: the validator of the
    target refuses the documents of [a], [insertMany] throws, the run ends
    with that exception and without a result, and [b] is never reached. *)
Lemma C1_counterexample :
  map fst (source (env refusing_world)) = ["a"; "b"]
  ∧ result_of (copyCollections 5 default_options refusing_world) = None
  ∧ match copyCollections 5 default_options refusing_world with
    | Throw msg w' => msg = msg_validation ∧ target_docs w' "b" = []
    | _ => False
    end.
Proof. repeat split; vm_compute; reflexivity. Qed.

Lemma used_world_wf : source_wf used_world.
Proof.
  intros name. unfold source_docs. simpl.
  repeat (case_decide; simpl); (split; by_decide).
Qed.



Lemma C8_witness :
  (∃ w', process_collection 5 import_options "a" fresh_world
         = Ok (Entry "a" 0 0 "no-json-file" None) w'
         ∧ (∀ n, target_docs w' n = target_docs fresh_world n)
         ∧ tgt_indexes w' = tgt_indexes fresh_world
         ∧ ∃ evs, trace w' = trace fresh_world ++ evs
                  ∧ Forall (λ e, target_write e = false) evs)
  ∧ (∃ w', process_collection 5 import_options "a" emptied_world
           = Ok (Entry "a" 0 0 "json-empty" None) w'
           ∧ (∀ n, target_docs w' n = target_docs emptied_world n)
           ∧ tgt_indexes w' = tgt_indexes emptied_world
           ∧ ∃ evs, trace w' = trace emptied_world ++ evs
                    ∧ Forall (λ e, target_write e = false) evs).
Proof.
  split.
  - apply (C8_import_artifacts 5 import_options "a" fresh_world fresh_world);
      try reflexivity.
    + vm_compute. lia.
    + apply not_elem_of_empty.
  - apply (C8_import_artifacts 5 import_options "a" emptied_world emptied_world);
      try reflexivity.
    vm_compute. lia.
Defined.

(** C8 as stated fails in three ways: the statuses the code records are
    [no-json-file] and [json-empty]; a collection without source documents
    is recorded as [empty] before the file is looked at, although its file
    is missing; and with schema validation on, the probe writes to the
    target before the file is looked at. *)
Lemma C8_counterexample :
  files sparse_world !! path_join "./backup" "a.json" = None
  ∧ files sparse_world !! path_join "./backup" "c.json" = None
  ∧ map e_status <$> result_of (copyCollections 5 import_options sparse_world)
    = Some ["no-json-file"; "empty"]
  ∧ map e_status <$> result_of (copyCollections 5 validating_import_options sparse_world)
    = Some ["no-json-file"; "empty"]
  ∧ filter (λ e, target_write e = true)
      (trace (world_after (copyCollections 5 validating_import_options sparse_world)
                sparse_world))
    = [EvInsertOne "a" (marked (sample_doc 1 10)); EvDeleteOne "a" (VNum 1)].
Proof. repeat split; vm_compute; reflexivity. Qed.

(** * The rest of the engine *)

(** ** [copyIndexesToTarget] *)

Lemma createIndex_cases name i w :
  let w0 := emit (EvCreateIndex name (stripped i)) w in
  createIndex name (idx_key i) (delete "ns" (delete "v" (idx_options i))) (idx_name i) w
  = if bool_decide (stripped i ∈ target_indexes w name) then Ok tt w0
    else if bool_decide (Exists (clashes (stripped i)) (target_indexes w name))
         then Throw msg_index w0
         else Ok tt (set_tgt_indexes <[name := target_indexes w name ++ [stripped i]]> w0).
Proof.
  unfold createIndex, stripped. cbn zeta.
  change (target_indexes (emit ?e w) name) with (target_indexes w name).
  destruct (bool_decide (_ ∈ _)); [done|].
  set (ix := target_indexes w name).
  assert (existsb (λ j, bool_decide (idx_name j = idx_name i ∨ idx_key j = idx_key i)) ix
          = bool_decide (Exists (clashes (Index (idx_key i) (idx_name i)
                                   (delete "ns" (delete "v" (idx_options i))))) ix)) as ->; [|done].
  induction ix as [|j ix IH]; cbn [existsb].
  - symmetry. apply bool_decide_eq_false_2. by intros ?%Exists_nil.
  - rewrite IH. apply eq_true_iff_eq. rewrite orb_true_iff, !bool_decide_eq_true, Exists_cons.
    done.
Qed.

(** One step of [copyIndexesToTarget] never fails: a refused index is
    reported and left out. *)
Lemma create_step name i w :
  let m := try_catch
             (createIndex name (idx_key i) (delete "ns" (delete "v" (idx_options i)))
                (idx_name i))
             (λ msg, log (EvWarn ("Could not create index " +:+ idx_name i +:+ ": " +:+ msg))) in
  ∃ w', m w = Ok tt w'
    ∧ env w' = env w ∧ tgt_docs w' = tgt_docs w ∧ files w' = files w ∧ dirs w' = dirs w
    ∧ src_open w' = src_open w ∧ tgt_open w' = tgt_open w
    ∧ (∀ n, n ≠ name → target_indexes w' n = target_indexes w n)
    ∧ (if bool_decide (Exists (clashes (stripped i)) (target_indexes w name))
       then tgt_indexes w' = tgt_indexes w
            ∧ warnings (trace w')
              = warnings (trace w)
                ++ (if bool_decide (stripped i ∈ target_indexes w name) then []
                    else ["Could not create index " +:+ idx_name i +:+ ": " +:+ msg_index])
       else target_indexes w' name = target_indexes w name ++ [stripped i]
            ∧ warnings (trace w') = warnings (trace w))
    ∧ ∃ post, trace w' = trace w ++ post
              ∧ Forall (λ e, (∃ j, e = EvCreateIndex name j) ∨ ∃ msg, e = EvWarn msg) post.
Proof.
  cbn zeta. unfold try_catch. rewrite createIndex_cases. cbn zeta.
  destruct (bool_decide (stripped i ∈ _)) eqn:Hin.
  - apply bool_decide_eq_true in Hin.
    rewrite (bool_decide_eq_true_2 (Exists _ _)).
    2:{ apply Exists_exists. exists (stripped i). split; [done|]. by left. }
    eexists. split; [done|]. split_and!; try done.
    + unfold warnings. simpl. rewrite omap_app. simpl. by rewrite !app_nil_r.
    + exists [EvCreateIndex name (stripped i)]. split; [done|]. repeat constructor. eauto.
  - destruct (bool_decide (Exists _ _)) eqn:Hex.
    + eexists. split; [done|]. split_and!; try done.
      * unfold warnings. simpl. rewrite !omap_app. simpl. by rewrite app_nil_r.
      * eexists [_; _]. simpl. rewrite <- app_assoc. split; [done|].
        apply Forall_cons; split; [left; eauto|].
        apply Forall_cons; split; [right; eauto|]. constructor.
    + eexists. split; [done|]. split_and!; try done.
      * intros n Hn. unfold target_indexes. simpl. by rewrite lookup_insert_ne.
      * unfold target_indexes at 1. simpl. by rewrite lookup_insert_eq.
      * unfold warnings. simpl. rewrite omap_app. simpl. by rewrite app_nil_r.
      * exists [EvCreateIndex name (stripped i)]. split; [done|]. repeat constructor. eauto.
Qed.

Lemma create_each_cons name i rest w :
  create_each name (i :: rest) w
  = match try_catch
            (createIndex name (idx_key i) (delete "ns" (delete "v" (idx_options i)))
               (idx_name i))
            (λ msg, log (EvWarn ("Could not create index " +:+ idx_name i +:+ ": " +:+ msg))) w
    with
    | Ok _ w1 => create_each name rest w1
    | Throw msg w1 => Throw msg w1
    | Diverge => Diverge
    end.
Proof. done. Qed.

Lemma create_each_spec name l w :
  ∃ w', create_each name l w = Ok tt w'
    ∧ env w' = env w ∧ tgt_docs w' = tgt_docs w ∧ files w' = files w ∧ dirs w' = dirs w
    ∧ src_open w' = src_open w ∧ tgt_open w' = tgt_open w
    ∧ (∀ n, n ≠ name → target_indexes w' n = target_indexes w n)
    ∧ (∃ added, target_indexes w' name = target_indexes w name ++ added
                ∧ sublist added (stripped <$> l))
    ∧ (∀ i, i ∈ l → Exists (clashes (stripped i)) (target_indexes w' name))
    ∧ ∃ post, trace w' = trace w ++ post
              ∧ Forall (λ e, (∃ j, e = EvCreateIndex name j) ∨ ∃ msg, e = EvWarn msg) post.
Proof.
  revert w. induction l as [|i rest IH]; intros w.
  - exists w. split; [done|]. split_and!; try done.
    + exists []. by rewrite app_nil_r.
    + intros i Hi. by apply elem_of_nil in Hi.
    + exists []. by rewrite app_nil_r.
  - rewrite create_each_cons.
    destruct (create_step name i w)
      as (w1 & -> & He1 & Hd1 & Hf1 & Hdi1 & Hs1 & Ht1 & Ho1 & Hcase & post1 & Htr1 & Hp1).
    destruct (IH w1)
      as (w2 & -> & He2 & Hd2 & Hf2 & Hdi2 & Hs2 & Ht2 & Ho2 & (added & Hadd & Hsub) & Hdec
          & post2 & Htr2 & Hp2).
    exists w2. split; [done|]. split_and!; try congruence.
    + intros n Hn. rewrite Ho2, Ho1; done.
    + destruct (bool_decide (Exists _ _)) eqn:Hex.
      * destruct Hcase as [Hsame _]. exists added. split.
        -- rewrite Hadd. unfold target_indexes. by rewrite Hsame.
        -- simpl. by apply sublist_cons.
      * destruct Hcase as [Hnew _]. exists (stripped i :: added). split.
        -- rewrite Hadd, Hnew, <- app_assoc. done.
        -- simpl. by apply sublist_skip.
    + intros j [->|Hj]%elem_of_cons; [|by apply Hdec].
      rewrite Hadd. apply Exists_app. left.
      destruct (bool_decide (Exists _ _)) eqn:Hex.
      * destruct Hcase as [Hsame _]. apply bool_decide_eq_true in Hex.
        unfold target_indexes. by rewrite Hsame.
      * destruct Hcase as [Hnew _]. rewrite Hnew. apply Exists_app. right.
        apply Exists_cons. left. by left.
    + exists (post1 ++ post2). rewrite Htr2, Htr1, <- app_assoc. split; [done|].
      by apply Forall_app.
Qed.

Lemma copyIndexesToTarget_total name idxs w :
  ∃ w', copyIndexesToTarget name idxs w = Ok tt w'.
Proof.
  unfold copyIndexesToTarget.
  destruct (create_each_spec name (filter (λ i, idx_name i ≠ "_id_") idxs) w) as (w' & Hrun & _).
  by exists w'.
Qed.

(** X1. [copyIndexesToTarget] never throws: for every list of index
    descriptions and every state of the target it returns normally. It
    touches no document, no file and no other collection; the indexes the
    collection had are all still there, in place, and what is added is
    taken, in order, from the descriptions it was given, without [_id_]
    and without the fields [v] and [ns]. *)
Theorem copyIndexesToTarget_never_throws (name : string) (idxs : list index) (w : world) :
  ∃ w', copyIndexesToTarget name idxs w = Ok tt w'
    ∧ env w' = env w ∧ tgt_docs w' = tgt_docs w ∧ files w' = files w
    ∧ (∀ n, n ≠ name → target_indexes w' n = target_indexes w n)
    ∧ (∃ added, target_indexes w' name = target_indexes w name ++ added
                ∧ sublist added (wanted idxs))
    ∧ ∃ post, trace w' = trace w ++ post
              ∧ Forall (λ e, (∃ j, e = EvCreateIndex name j) ∨ ∃ msg, e = EvWarn msg) post.
Proof.
  unfold copyIndexesToTarget, wanted.
  destruct (create_each_spec name (filter (λ i, idx_name i ≠ "_id_") idxs) w)
    as (w' & Hrun & He & Hd & Hf & _ & _ & _ & Ho & Hadd & _ & Htr).
  by exists w'.
Qed.



Lemma copyIndexesToTarget_never_fails name idxs w :
  ∃ w', copyIndexesToTarget name idxs w = Ok tt w' ∧ tgt_docs w' = tgt_docs w.
Proof.
  unfold copyIndexesToTarget.
  destruct (create_each_spec name (filter (λ i, idx_name i ≠ "_id_") idxs) w)
    as (w' & Hrun & _ & Hd & _).
  by exists w'.
Qed.


Lemma create_each_noop name l w :
  (∀ i, i ∈ l → Exists (clashes (stripped i)) (target_indexes w name)) →
  ∃ w', create_each name l w = Ok tt w' ∧ tgt_indexes w' = tgt_indexes w.
Proof.
  revert w. induction l as [|i rest IH]; intros w Hdec; [by exists w|].
  rewrite create_each_cons.
  destruct (create_step name i w) as (w1 & -> & _ & _ & _ & _ & _ & _ & _ & Hcase & _).
  rewrite bool_decide_eq_true_2 in Hcase by (apply Hdec; by left).
  destruct Hcase as [Hsame _].
  destruct (IH w1) as (w2 & -> & Hsame2).
  { intros j Hj. unfold target_indexes. rewrite Hsame. apply Hdec. by right. }
  exists w2. split; [done|]. congruence.
Qed.

(** X3. Copying the same indexes a second time changes no index of the
    target: every description is by then in the target or refused for a
    clash, and stays so. *)
Theorem copyIndexesToTarget_twice (name : string) (idxs : list index) (w : world) :
  ∃ w1 w2, copyIndexesToTarget name idxs w = Ok tt w1
    ∧ copyIndexesToTarget name idxs w1 = Ok tt w2
    ∧ tgt_indexes w2 = tgt_indexes w1.
Proof.
  unfold copyIndexesToTarget.
  destruct (create_each_spec name (filter (λ i, idx_name i ≠ "_id_") idxs) w)
    as (w1 & Hrun & _ & _ & _ & _ & _ & _ & _ & _ & Hdec & _).
  destruct (create_each_noop name _ w1 Hdec) as (w2 & Hrun2 & Hsame).
  by exists w1, w2.
Qed.

(** ** The JSON export *)

Lemma offline_refl w : offline w w.
Proof. split_and!; try done. exists []. by rewrite app_nil_r. Qed.

Lemma offline_trans w1 w2 w3 : offline w1 w2 → offline w2 w3 → offline w1 w3.
Proof.
  intros (He & Hd & Hi & Hs & Ht & p1 & Hp1 & Hf1) (He' & Hd' & Hi' & Hs' & Ht' & p2 & Hp2 & Hf2).
  split_and!; try congruence.
  exists (p1 ++ p2). rewrite Hp2, Hp1, <- app_assoc. split; [done|]. by apply Forall_app.
Qed.

Lemma bar_offline o e w :
  target_write e = false → connection_event e = false →
  ∃ w', bar o e w = Ok tt w' ∧ offline w w' ∧ files w' = files w ∧ dirs w' = dirs w.
Proof.
  intros Hw Hc. unfold bar, when, log, ret. destruct (showProgress o).
  - eexists. split; [done|]. split; [|done]. split_and!; try done.
    exists [e]. split; [done|]. by repeat constructor.
  - eexists. split; [done|]. split; [|done]. apply offline_refl.
Qed.

Lemma export_loop_spec o cursor allDocs docCount w :
  ∃ w', export_loop o cursor allDocs docCount w = Ok (allDocs ++ cursor) w'
        ∧ offline w w' ∧ files w' = files w ∧ dirs w' = dirs w.
Proof.
  revert allDocs docCount w. induction cursor as [|d c IH]; intros allDocs docCount w.
  - exists w. simpl. rewrite app_nil_r. split; [done|]. split; [apply offline_refl|done].
  - cbn [export_loop]. unfold bind.
    destruct (bar_offline o (EvBarUpdate (S docCount)) w) as (w1 & -> & Ho1 & Hf1 & Hd1);
      [done..|].
    destruct (IH (allDocs ++ [d]) (S docCount) w1) as (w2 & -> & Ho2 & Hf2 & Hd2).
    exists w2. rewrite <- app_assoc. split; [done|].
    split; [by apply (offline_trans w w1)|]. split; congruence.
Qed.

Lemma export_json_spec o name total w :
  ∃ w', export_json o name (build_query o) total w
        = Ok (Entry name (length (matched o w name)) total "exported-json" None) w'
    ∧ offline w w' ∧ dirs w' = dirs w
    ∧ files w' = (if copyIndexes o
                  then <[index_path o name := FIndexes (source_indexes w name)]>
                  else id) (<[data_path o name := FDocs (matched o w name)]> (files w)).
Proof.
  unfold export_json, bind at 1, find. fold (matched o w name). fold (data_path o name).
  fold (index_path o name). unfold bind at 1, existsSync.
  set (present := _ || _).
  set (w1 := if present then set_files (delete (data_path o name)) w else w).
  assert (when present (unlinkSync (data_path o name)) w = Ok tt w1) as Hunlink
    by (unfold w1; by destruct present).
  unfold bind at 1. rewrite Hunlink. unfold bind at 1.
  destruct (export_loop_spec o (matched o w name) [] 0 w1) as (w2 & -> & Ho2 & Hf2 & Hd2).
  cbn [app]. unfold bind at 1, writeFileSync at 1.
  set (w3 := set_files _ w2).
  assert (offline w w3 ∧ dirs w3 = dirs w
          ∧ files w3 = <[data_path o name := FDocs (matched o w name)]> (files w))
    as (Ho3 & Hd3 & Hf3).
  { assert (offline w w1 ∧ dirs w1 = dirs w
            ∧ <[data_path o name := FDocs (matched o w name)]> (files w1)
              = <[data_path o name := FDocs (matched o w name)]> (files w)) as (Ho1 & Hd1 & Hf1).
    { unfold w1. destruct present; simpl.
      - split; [|split; [done|]].
        + split_and!; try done. exists []. by rewrite app_nil_r.
        + apply insert_delete_eq.
      - split; [apply offline_refl|done]. }
    split; [|split].
    - apply (offline_trans w w1); [done|]. apply (offline_trans w1 w2); [done|].
      unfold w3. split_and!; try done. exists []. by rewrite app_nil_r.
    - unfold w3. simpl. congruence.
    - unfold w3. simpl. by rewrite Hf2. }
  clearbody w3. clear Hunlink.
  unfold bind at 1.
  set (w4 := if copyIndexes o
             then set_files <[index_path o name := FIndexes (source_indexes w name)]> w3
             else w3).
  assert (when (copyIndexes o)
            (let* idxs := indexes name in
             writeFileSync (index_path o name) (FIndexes idxs)) w3 = Ok tt w4) as ->.
  { unfold w4. destruct (copyIndexes o); [|done]. simpl. unfold bind, indexes, writeFileSync.
    unfold source_indexes. by destruct Ho3 as (-> & _). }
  assert (offline w w4 ∧ dirs w4 = dirs w
          ∧ files w4 = (if copyIndexes o
                        then <[index_path o name := FIndexes (source_indexes w name)]>
                        else id) (<[data_path o name := FDocs (matched o w name)]> (files w)))
    as (Ho4 & Hd4 & Hf4).
  { unfold w4. destruct (copyIndexes o); simpl; [|done].
    split; [|split; [done|by rewrite Hf3]].
    apply (offline_trans w w3); [done|]. split_and!; try done. exists []. by rewrite app_nil_r. }
  clearbody w4. unfold bind.
  destruct (bar_offline o EvBarStop w4) as (w5 & -> & Ho5 & Hf5 & Hd5); [done..|].
  exists w5. split; [done|]. split; [by apply (offline_trans w w4)|].
  split; congruence.
Qed.

Lemma export_entry_env o w w1 name :
  env w1 = env w → export_entry o w1 name = export_entry o w name.
Proof. intros He. unfold export_entry. by rewrite (matched_env o w w1). Qed.

Lemma export_files_env o w w1 fs name :
  env w1 = env w → export_files o w1 fs name = export_files o w fs name.
Proof.
  intros He. unfold export_files, source_indexes. by rewrite (matched_env o w w1), He.
Qed.

Lemma process_collection_export fuel o name w :
  exportJson o = true → importJson o = false → dryRun o = false →
  ∃ w', process_collection fuel o name w = Ok (export_entry o w name) w'
    ∧ offline w w' ∧ dirs w' = dirs w ∧ files w' = export_files o w (files w) name.
Proof.
  intros Hexp Himp Hdry. rewrite process_collection_cases. cbn zeta.
  unfold export_entry, export_files.
  destruct (_ =? 0) eqn:Hz.
  { apply Nat.eqb_eq in Hz. rewrite Hz. exists w. split; [done|].
    split; [apply offline_refl|done]. }
  rewrite Hexp, andb_false_r. unfold transfer. rewrite Hdry, Himp, Hexp.
  unfold bind.
  assert (∃ w1, when (0 <? length (matched o w name))
                  (bar o (EvBarStart (length (matched o w name)) name)) w = Ok tt w1
                ∧ offline w w1 ∧ files w1 = files w ∧ dirs w1 = dirs w)
    as (w1 & -> & Ho1 & Hf1 & Hd1).
  { destruct (0 <? _); [by apply bar_offline|].
    exists w. split; [done|]. split; [apply offline_refl|done]. }
  destruct (export_json_spec o name (length (matched o w name)) w1)
    as (w2 & Hrun & Ho2 & Hd2 & Hf2).
  assert (env w1 = env w) as He1 by apply Ho1.
  rewrite (matched_env o w w1 name He1) in Hrun, Hf2. rewrite Hrun.
  exists w2. split; [done|]. split; [by apply (offline_trans w w1)|].
  split; [congruence|]. rewrite Hf2, Hf1. unfold source_indexes. rewrite He1.
  by destruct (copyIndexes o).
Qed.

Lemma run_collections_export fuel o names summary w :
  exportJson o = true → importJson o = false → dryRun o = false →
  ∃ w', run_collections fuel o names summary w
        = Ok (summary ++ map (export_entry o w) names) w'
    ∧ offline w w' ∧ dirs w' = dirs w
    ∧ files w' = foldl (export_files o w) (files w) names.
Proof.
  intros Hexp Himp Hdry. revert summary w.
  induction names as [|name rest IH]; intros summary w.
  - exists w. simpl. rewrite app_nil_r. split; [done|]. split; [apply offline_refl|done].
  - cbn [run_collections]. unfold bind.
    destruct (process_collection_export fuel o name w Hexp Himp Hdry)
      as (w1 & -> & Ho1 & Hd1 & Hf1).
    destruct (IH (summary ++ [export_entry o w name]) w1) as (w2 & -> & Ho2 & Hd2 & Hf2).
    assert (env w1 = env w) as He1 by apply Ho1.
    exists w2. split.
    + rewrite <- app_assoc. simpl. do 3 f_equal. apply map_ext. intros n.
      by apply export_entry_env.
    + split; [by apply (offline_trans w w1)|]. split; [congruence|].
      rewrite Hf2, Hf1. simpl. clear -He1. generalize (export_files o w (files w) name).
      induction rest as [|n rest IH]; intros fs; simpl; [done|].
      by rewrite IH, (export_files_env o w w1).
Qed.

(** File names *)

Lemma list_of_append s t :
  String.list_ascii_of_string (s +:+ t)
  = String.list_ascii_of_string s ++ String.list_ascii_of_string t.
Proof. induction s as [|a s IH]; simpl; [done|]. by rewrite IH. Qed.



Lemma append_assoc s t u : (s +:+ t) +:+ u = s +:+ t +:+ u.
Proof.
  induction s as [|a s IH]; [done|].
  change (String a ((s +:+ t) +:+ u) = String a (s +:+ t +:+ u)). by rewrite IH.
Qed.




Lemma index_path_data o n : index_path o n = data_path o (n +:+ "_indexes").
Proof. unfold index_path, data_path. by rewrite append_assoc. Qed.



Lemma foldl_snoc {A B} (f : A → B → A) a l x : foldl f a (l ++ [x]) = f (foldl f a l) x.
Proof. by rewrite foldl_app. Qed.



Lemma run_body_export fuel o w :
  exportJson o = true → importJson o = false → dryRun o = false →
  let cols := resolve_collections (collections o) (map fst (source (env w))) in
  ∃ w', run_body fuel o w = Ok (map (export_entry o w) cols) w'
    ∧ offline w w'
    ∧ files w' = foldl (export_files o w) (files w) cols.
Proof.
  intros Hexp Himp Hdry cols. unfold run_body, bind at 1, listCollections. fold cols.
  rewrite Hexp. cbn [when]. unfold bind at 1.
  set (w1 := if bool_decide (is_Some (files w !! outputDir o))
                || bool_decide (outputDir o ∈ dirs w)
             then w else set_dirs (λ ds, {[outputDir o]} ∪ ds) w).
  assert ((let* present := existsSync (outputDir o) in
           when (negb present) (mkdirSync (outputDir o))) w = Ok tt w1) as ->.
  { unfold bind, existsSync, w1. by destruct (_ || _). }
  assert (offline w w1 ∧ files w1 = files w) as [Ho1 Hf1].
  { unfold w1. destruct (_ || _); (split; [|done]); [apply offline_refl|].
    split_and!; try done. exists []. by rewrite app_nil_r. }
  clearbody w1.
  destruct (run_collections_export fuel o cols [] w1 Hexp Himp Hdry)
    as (w2 & -> & Ho2 & _ & Hf2).
  assert (env w1 = env w) as He1 by apply Ho1.
  exists w2. split.
  - simpl. f_equal. apply map_ext. intros n. by apply export_entry_env.
  - split; [by apply (offline_trans w w1)|]. rewrite Hf2, Hf1.
    clear -He1. generalize (files w). induction cols as [|n cols IH]; intros fs; simpl; [done|].
    by rewrite IH, (export_files_env o w w1).
Qed.

Lemma finally_block_files o w :
  ∃ w', (bar o EvBarStop >> close Src >> close Tgt) w = Ok tt w'
        ∧ env w' = env w ∧ tgt_docs w' = tgt_docs w ∧ tgt_indexes w' = tgt_indexes w
        ∧ files w' = files w ∧ dirs w' = dirs w
        ∧ ∃ post, trace w' = trace w ++ post ∧ Forall (λ e, target_write e = false) post.
Proof.
  unfold bind, bar, when, log, ret, close. destruct (showProgress o); simpl.
  - eexists. split; [done|]. split_and!; try done.
    exists [EvBarStop; EvClose Src; EvClose Tgt]. rewrite <- !app_assoc.
    split; [done|]. by repeat constructor.
  - eexists. split; [done|]. split_and!; try done.
    exists [EvClose Src; EvClose Tgt]. rewrite <- !app_assoc.
    split; [done|]. by repeat constructor.
Qed.

Lemma copyCollections_export fuel o w :
  exportJson o = true → importJson o = false → dryRun o = false →
  src_up (env w) = true → tgt_up (env w) = true →
  let cols := resolve_collections (collections o) (map fst (source (env w))) in
  ∃ w', copyCollections fuel o w = Ok (map (export_entry o w) cols) w'
    ∧ env w' = env w ∧ tgt_docs w' = tgt_docs w ∧ tgt_indexes w' = tgt_indexes w
    ∧ files w' = foldl (export_files o w) (files w) cols
    ∧ ∃ post, trace w' = trace w ++ post ∧ Forall (λ e, target_write e = false) post.
Proof.
  intros Hexp Himp Hdry Hs Ht cols. rewrite copyCollections_unfold, Hs, Ht.
  unfold try_finally.
  destruct (run_body_export fuel o (connected w) Hexp Himp Hdry)
    as (w1 & Hrun & (He1 & Hd1 & Hi1 & _ & _ & post1 & Htr1 & Hp1) & Hf1).
  change (env (connected w)) with (env w) in Hrun. fold cols in Hrun, Hf1. rewrite Hrun.
  destruct (finally_block_files o w1)
    as (w2 & -> & He2 & Hd2 & Hi2 & Hf2 & _ & post2 & Htr2 & Hp2).
  exists w2. split; [done|].
  split; [by rewrite He2, He1|]. split; [by rewrite Hd2, Hd1|].
  split; [by rewrite Hi2, Hi1|]. split.
  - rewrite Hf2, Hf1. reflexivity.
  - exists ([EvConnect Src; EvConnect Tgt] ++ post1 ++ post2).
    rewrite Htr2, Htr1. simpl. rewrite <- !app_assoc. split; [done|].
    repeat (apply Forall_cons; split; [done|]). apply Forall_app. split; [|done].
    eapply Forall_impl; [exact Hp1|]. by intros e [? _].
Qed.

(** X4. An export (no import, no dry run) never touches the target: when
    the run ends, by a return or by an exception, every target collection
    holds the documents and the indexes it held before, and no write was
    issued against the target. *)
Theorem export_leaves_target (fuel : nat) (o : options) (w w' : world) :
  exportJson o = true → importJson o = false → dryRun o = false →
  final_world (copyCollections fuel o w) = Some w' →
  tgt_docs w' = tgt_docs w ∧ tgt_indexes w' = tgt_indexes w
  ∧ ∃ post, trace w' = trace w ++ post ∧ Forall (λ e, target_write e = false) post.
Proof.
  intros Hexp Himp Hdry.
  destruct (src_up (env w)) eqn:Hs.
  2:{ rewrite copyCollections_unfold, Hs. intros [= <-]. split; [done|]. split; [done|].
      exists [EvConnect Src]. split; [done|]. by repeat constructor. }
  destruct (tgt_up (env w)) eqn:Ht.
  2:{ rewrite copyCollections_unfold, Hs, Ht. intros [= <-]. split; [done|]. split; [done|].
      exists [EvConnect Src; EvConnect Tgt]. simpl. rewrite <- app_assoc.
      split; [done|]. by repeat constructor. }
  destruct (copyCollections_export fuel o w Hexp Himp Hdry Hs Ht)
    as (w2 & -> & _ & Hd & Hi & _ & Htr).
  by intros [= <-].
Qed.


(** X6. With [copyIndexes], the index file of a collection [n] and the
    data file of a collection named [n] followed by [_indexes] are one
    file. When [n] is the last resolved collection and has a selected
    document, that file holds the index descriptions of [n] after the
    export, whatever was exported for the other collection. *)
Theorem export_index_file_overwrites (fuel : nat) (o : options) (w : world)
    (pre : list string) (n : string) :
  exportJson o = true → importJson o = false → dryRun o = false →
  copyIndexes o = true →
  src_up (env w) = true → tgt_up (env w) = true →
  resolve_collections (collections o) (map fst (source (env w))) = pre ++ [n] →
  matched o w n ≠ [] →
  ∃ s w', copyCollections fuel o w = Ok s w'
    ∧ files w' !! data_path o (n +:+ "_indexes") = Some (FIndexes (source_indexes w n)).
Proof.
  intros Hexp Himp Hdry Hci Hs Ht Hcols Hne.
  destruct (copyCollections_export fuel o w Hexp Himp Hdry Hs Ht)
    as (w' & Hrun & _ & _ & _ & Hf & _).
  eexists _, w'. split; [done|]. rewrite Hf, Hcols, foldl_snoc, <- index_path_data.
  unfold export_files at 1. rewrite Hci.
  destruct (_ =? 0) eqn:Hz.
  { apply Nat.eqb_eq in Hz. by destruct (matched o w n). }
  by rewrite lookup_insert_eq.
Qed.

(** ** The JSON import *)

Lemma wrote_docs_refl name w : wrote_docs name w w.
Proof. by split_and!. Qed.

Lemma wrote_docs_trans name w1 w2 w3 :
  wrote_docs name w1 w2 → wrote_docs name w2 w3 → wrote_docs name w1 w3.
Proof.
  intros (He & Hf & Hd & Ho) (He' & Hf' & Hd' & Ho'). split_and!; try congruence.
  intros n Hn. rewrite Ho', Ho; done.
Qed.

Lemma only_docs_wrote name w w' : only_docs name w w' → wrote_docs name w w'.
Proof. intros (He & _ & Hf & Hd & _ & _ & _ & Ho). by split_and!. Qed.

Lemma bar_wrote o e name w :
  ∃ w', bar o e w = Ok tt w' ∧ wrote_docs name w w' ∧ target_docs w' name = target_docs w name.
Proof.
  unfold bar, when, log, ret. destruct (showProgress o); eexists; (split; [done|]);
    (split; [|done]); by split_and!.
Qed.

Lemma store_insert_accepts name d k w :
  doc_id d = Some k → validator (env w) name d = true →
  find_id k (target_docs w name) = None →
  store_insert name d w = (inr k, set_tgt_docs <[name := target_docs w name ++ [d]]> w).
Proof.
  intros Hk Hv Hf. unfold store_insert, with_id. rewrite Hk, Hv. simpl. by rewrite Hf.
Qed.

Lemma unordered_insert_accepts name batch w :
  Forall (λ d, is_Some (doc_id d)) batch →
  Forall (λ d, validator (env w) name d = true) batch →
  NoDup (doc_id <$> batch) →
  (∀ d k, d ∈ batch → doc_id d = Some k → find_id k (target_docs w name) = None) →
  ∃ w', unordered (insert_op name) batch None w = (None, w')
        ∧ target_docs w' name = target_docs w name ++ batch.
Proof.
  revert w. induction batch as [|d batch IH]; intros w Hids Hv Hnd Hfresh.
  - exists w. by rewrite app_nil_r.
  - apply Forall_cons in Hids as [[k Hk] Hids]. apply Forall_cons in Hv as [Hvd Hv].
    rewrite fmap_cons in Hnd. apply NoDup_cons in Hnd as [Hnew Hnd].
    cbn [unordered]. unfold insert_op at 1.
    rewrite (store_insert_accepts name d k w Hk Hvd) by (apply (Hfresh d); [left|done]).
    set (w1 := set_tgt_docs _ w).
    destruct (IH w1) as (w2 & -> & Hdocs); try done.
    + intros d' k' Hd' Hk'. unfold w1. rewrite target_docs_set_eq, find_id_app.
      rewrite (Hfresh d' k') by (by right || done). simpl.
      rewrite decide_False; [done|]. intros Hc. apply Hnew. rewrite Hc, <- Hk'.
      by apply list_elem_of_fmap_2.
    + exists w2. split; [done|]. rewrite Hdocs. unfold w1.
      by rewrite target_docs_set_eq, <- app_assoc.
Qed.

Lemma insertMany_accepts name batch w :
  batch ≠ [] →
  Forall (λ d, is_Some (doc_id d)) batch →
  Forall (λ d, validator (env w) name d = true) batch →
  NoDup (doc_id <$> batch) →
  (∀ d k, d ∈ batch → doc_id d = Some k → find_id k (target_docs w name) = None) →
  ∃ w', insertMany name batch w = Ok tt w'
        ∧ target_docs w' name = target_docs w name ++ batch
        ∧ wrote_docs name w w'.
Proof.
  intros Hne Hids Hv Hnd Hfresh.
  destruct (unordered_insert_accepts name batch (emit (EvInsertMany name batch) w))
    as (w' & Hun & Hdocs); try done.
  assert (insertMany name batch w = Ok tt w') as Hrun.
  { unfold insertMany. destruct batch as [|d batch]; [done|].
    fold (insert_op name). by rewrite Hun. }
  exists w'. split; [done|]. split; [done|].
  apply (wrote_docs_trans name w (emit (EvInsertMany name batch) w)); [by split_and!|].
  apply only_docs_wrote, (insertMany_only name batch w w'). by rewrite Hrun.
Qed.

Lemma import_loop_insert fuel o name json i w :
  1 ≤ batchSize o →
  Forall (λ d, is_Some (doc_id d)) json →
  Forall (λ d, validator (env w) name d = true) json →
  NoDup (doc_id <$> json) →
  target_docs w name = take i json →
  length json ≤ i + fuel →
  ∃ w', import_loop fuel o (insertMany name) json i w = Ok tt w'
        ∧ target_docs w' name = json ∧ wrote_docs name w w'.
Proof.
  intros Hb Hids. revert i w.
  induction fuel as [|fuel IH]; intros i w Hv Hnd Hdocs Hfuel.
  - exists w. simpl. rewrite (proj2 (Nat.ltb_ge _ _)) by lia.
    split; [done|]. split; [|apply wrote_docs_refl]. rewrite Hdocs. apply take_ge. lia.
  - cbn [import_loop]. destruct (i <? length json) eqn:Hi.
    2:{ apply Nat.ltb_ge in Hi. exists w. split; [done|].
        split; [|apply wrote_docs_refl]. rewrite Hdocs. by apply take_ge. }
    apply Nat.ltb_lt in Hi.
    set (chunk := take (batchSize o) (drop i json)).
    assert (chunk ⊆ drop i json) as Hsub by apply subseteq_take.
    assert (json = take i json ++ drop i json) as Hsplit by (by rewrite take_drop).
    destruct (insertMany_accepts name chunk w) as (w1 & Hins & Hd1 & Hw1).
    { unfold chunk. destruct (drop i json) as [|x rest] eqn:Hdrop.
      - apply (f_equal length) in Hdrop. rewrite length_drop in Hdrop. simpl in Hdrop. lia.
      - destruct (batchSize o); [lia|done]. }
    { apply Forall_forall. intros d Hd. rewrite Forall_forall in Hids. apply Hids.
      apply (subseteq_drop i). by apply Hsub. }
    { apply Forall_forall. intros d Hd. rewrite Forall_forall in Hv. apply Hv.
      apply (subseteq_drop i). by apply Hsub. }
    { unfold chunk. rewrite fmap_take, fmap_drop.
      apply (sublist_NoDup _ (doc_id <$> json)); [exact Hnd|etrans; [apply sublist_take|apply sublist_drop]]. }
    { intros d k Hd Hk. rewrite Hdocs. apply find_id_None. intros d' Hd' Hk'.
      rewrite Hsplit, fmap_app in Hnd. apply NoDup_app in Hnd as (_ & Hdisj & _).
      apply (Hdisj (Some k)).
      - rewrite <- Hk'. by apply list_elem_of_fmap_2.
      - rewrite <- Hk. apply list_elem_of_fmap_2. by apply Hsub. }
    unfold bind at 1. rewrite Hins. unfold bind at 1.
    destruct (bar_wrote o (EvBarUpdate (i + length chunk)) name w1) as (w2 & -> & Hw2 & Hd2).
    assert (env w2 = env w) as He2.
    { destruct Hw1 as (He1 & _). destruct Hw2 as (He2 & _). congruence. }
    destruct (IH (i + batchSize o) w2) as (w3 & -> & Hd3 & Hw3).
    + by rewrite He2.
    + done.
    + rewrite Hd2, Hd1, Hdocs. unfold chunk. apply take_take_drop.
    + lia.
    + exists w3. split; [done|]. split; [done|].
      apply (wrote_docs_trans name w w1); [done|]. by apply (wrote_docs_trans name w1 w2).
Qed.

Lemma import_indexes_step o name w :
  (copyIndexes o = true → index_file_ok o w name) →
  ∃ w', when (copyIndexes o)
          (let* ipresent := existsSync (index_path o name) in
           if ipresent then
             let* idxs := read_indexes (index_path o name) in copyIndexesToTarget name idxs
           else ret tt) w = Ok tt w'
        ∧ wrote_docs name w w' ∧ tgt_docs w' = tgt_docs w.
Proof.
  intros Hok. destruct (copyIndexes o); [|exists w; by split_and!].
  cbn [when]. unfold bind at 1, existsSync.
  destruct (Hok eq_refl) as [[Hnone Hdir]|[l Hl]].
  - rewrite Hnone. rewrite (bool_decide_eq_false_2 (is_Some None)) by (by intros [? ?]).
    rewrite bool_decide_eq_false_2 by done. exists w. by split_and!.
  - rewrite Hl. rewrite (bool_decide_eq_true_2 (is_Some (Some _))) by eauto.
    cbn [orb]. unfold bind, read_indexes. rewrite Hl. unfold copyIndexesToTarget.
    destruct (create_each_spec name (filter (λ i, idx_name i ≠ "_id_") l) w)
      as (w' & -> & He & Hd & Hf & Hdi & _).
    exists w'. split; [done|]. split; [|done]. split_and!; try done.
    intros n _. unfold target_docs. by rewrite Hd.
Qed.

Lemma import_json_replaces fuel o name w json :
  incremental o = false →
  files w !! data_path o name = Some (FDocs json) → json ≠ [] →
  importable w name json →
  (copyIndexes o = true → index_file_ok o w name) →
  1 ≤ batchSize o → length json ≤ fuel →
  ∃ w', import_json fuel o name w
        = Ok (Entry name (length json) (length json) "imported-json" None) w'
        ∧ target_docs w' name = json ∧ wrote_docs name w w'.
Proof.
  intros Hinc Hfile Hne (Hids & Hnd & Hv) Hidx Hb Hfuel.
  unfold import_json. cbn zeta. fold (data_path o name). fold (index_path o name).
  unfold bind at 1, existsSync at 1.
  rewrite Hfile. rewrite (bool_decide_eq_true_2 (is_Some (Some _))) by eauto.
  cbn [orb negb]. unfold bind at 1, read_docs. rewrite Hfile.
  destruct (length json =? 0) eqn:Hz.
  { apply Nat.eqb_eq in Hz. by destruct json. }
  rewrite Hinc. unfold bind at 1, bind at 1, deleteMany.
  set (w0 := set_tgt_docs _ _).
  assert (wrote_docs name w w0) as Hw0.
  { unfold w0. split_and!; try done. intros n Hn. by rewrite target_docs_set_ne. }
  destruct (import_loop_insert fuel o name json 0 w0) as (w1 & -> & Hd1 & Hw1); try done.
  { unfold w0. by rewrite target_docs_set_eq, take_0. }
  unfold bind at 1.
  destruct (import_indexes_step o name w1) as (w2 & -> & Hw2 & Hd2).
  { intros Hci. destruct (Hidx Hci) as [[Hn Hd]|[l Hl]].
    - left. destruct Hw0 as (_ & Hf0 & Hdi0 & _). destruct Hw1 as (_ & Hf1 & Hdi1 & _).
      rewrite Hf1, Hf0, Hdi1, Hdi0. done.
    - right. exists l. destruct Hw0 as (_ & Hf0 & _). destruct Hw1 as (_ & Hf1 & _).
      by rewrite Hf1, Hf0. }
  unfold bind.
  destruct (bar_wrote o EvBarStop name w2) as (w3 & -> & Hw3 & Hd3).
  exists w3. split; [done|]. split.
  - rewrite Hd3. unfold target_docs. rewrite Hd2. exact Hd1.
  - apply (wrote_docs_trans name w w0); [done|]. apply (wrote_docs_trans name w0 w1); [done|].
    by apply (wrote_docs_trans name w1 w2).
Qed.

Lemma process_collection_import fuel o name w json :
  importJson o = true → dryRun o = false → incremental o = false →
  validateSchema o = false →
  source_docs w name ≠ [] →
  files w !! data_path o name = Some (FDocs json) → json ≠ [] →
  importable w name json →
  (copyIndexes o = true → index_file_ok o w name) →
  1 ≤ batchSize o → length json ≤ fuel →
  ∃ w', process_collection fuel o name w
        = Ok (Entry name (length json) (length json) "imported-json" None) w'
        ∧ target_docs w' name = json ∧ wrote_docs name w w'.
Proof.
  intros Himp Hdry Hinc Hval Hsrc Hfile Hne Hjson Hidx Hb Hfuel.
  rewrite process_collection_cases. cbn zeta.
  rewrite (matched_full o w name Hinc). destruct (_ =? 0) eqn:Hz.
  { apply Nat.eqb_eq in Hz. by destruct (source_docs w name). }
  rewrite Hval. cbn [andb]. unfold transfer. rewrite Hdry, Himp. unfold bind.
  assert (∃ w1, when (0 <? length (source_docs w name))
                  (bar o (EvBarStart (length (source_docs w name)) name)) w = Ok tt w1
                ∧ wrote_docs name w w1 ∧ target_docs w1 name = target_docs w name)
    as (w1 & -> & Hw1 & Hd1).
  { destruct (0 <? _); [apply bar_wrote|]. exists w. by split_and!. }
  destruct Hw1 as (He1 & Hf1 & Hdi1 & Ho1).
  destruct (import_json_replaces fuel o name w1 json) as (w2 & -> & Hd2 & Hw2); try done.
  - by rewrite Hf1.
  - unfold importable. by rewrite He1.
  - intros Hci. unfold index_file_ok. rewrite Hf1, Hdi1. by apply Hidx.
  - exists w2. split; [done|]. split; [done|].
    apply (wrote_docs_trans name w w1); [by split_and!|done].
Qed.

Lemma data_file_Some o w name :
  data_file o w name ≠ [] → files w !! data_path o name = Some (FDocs (data_file o w name)).
Proof. unfold data_file. by destruct (files w !! data_path o name) as [[| |]|]. Qed.

Lemma restorable_ext fuel o w w1 name :
  env w1 = env w → files w1 = files w → dirs w1 = dirs w →
  restorable fuel o w name → restorable fuel o w1 name.
Proof.
  intros He Hf Hd. unfold restorable, importable, index_file_ok, data_file.
  by rewrite He, Hf, Hd.
Qed.

Lemma process_collection_restore fuel o name w :
  importJson o = true → dryRun o = false → incremental o = false →
  validateSchema o = false → 1 ≤ batchSize o →
  (source_docs w name ≠ [] → restorable fuel o w name) →
  ∃ w', process_collection fuel o name w = Ok (import_entry o w name) w'
        ∧ wrote_docs name w w'
        ∧ target_docs w' name
          = if decide (source_docs w name ≠ []) then data_file o w name
            else target_docs w name.
Proof.
  intros Himp Hdry Hinc Hval Hb Hres. unfold import_entry.
  destruct (decide (source_docs w name ≠ [])) as [Hne|He].
  - destruct (Hres Hne) as (Hj & Hjson & Hidx & Hfuel).
    destruct (process_collection_import fuel o name w (data_file o w name))
      as (w' & Hrun & Hd & Hw); try done.
    { by apply data_file_Some. }
    exists w'. rewrite Hrun. split; [|done].
    destruct (_ =? 0) eqn:Hz; [|done].
    apply Nat.eqb_eq in Hz. by destruct (source_docs w name).
  - assert (source_docs w name = []) as Hnil.
    { destruct (source_docs w name); [done|]. by destruct He. }
    exists w. rewrite process_collection_cases. cbn zeta.
    rewrite (matched_full o w name Hinc), Hnil, Hinc. simpl.
    split; [done|]. split; [apply wrote_docs_refl|done].
Qed.

Lemma import_entry_env o w w1 name :
  env w1 = env w → files w1 = files w → import_entry o w1 name = import_entry o w name.
Proof.
  intros He Hf. unfold import_entry, data_file. by rewrite (source_docs_env w w1), Hf.
Qed.

Lemma run_collections_restore fuel o names summary w :
  importJson o = true → dryRun o = false → incremental o = false →
  validateSchema o = false → 1 ≤ batchSize o →
  (∀ n, n ∈ names → source_docs w n ≠ [] → restorable fuel o w n) →
  ∃ w', run_collections fuel o names summary w
        = Ok (summary ++ map (import_entry o w) names) w'
        ∧ env w' = env w ∧ files w' = files w ∧ dirs w' = dirs w
        ∧ ∀ n, target_docs w' n = imported o w names n.
Proof.
  intros Himp Hdry Hinc Hval Hb. revert summary w.
  induction names as [|name rest IH]; intros summary w Hres.
  - exists w. simpl. rewrite app_nil_r. split; [done|]. by split_and!.
  - cbn [run_collections]. unfold bind.
    destruct (process_collection_restore fuel o name w Himp Hdry Hinc Hval Hb)
      as (w1 & -> & (He1 & Hf1 & Hdi1 & Ho1) & Hd1).
    { apply Hres. by left. }
    destruct (IH (summary ++ [import_entry o w name]) w1)
      as (w2 & -> & He2 & Hf2 & Hdi2 & Hd2).
    { intros n Hn Hne. apply (restorable_ext fuel o w); try done.
      apply Hres; [by right|]. by rewrite <- (source_docs_env w w1). }
    exists w2. split.
    + rewrite <- app_assoc. simpl. do 3 f_equal. apply map_ext. intros n.
      by apply import_entry_env.
    + split_and!; try congruence. intros n. rewrite Hd2. unfold imported, data_file.
      rewrite (source_docs_env w w1 n He1), Hf1.
      destruct (decide (n ∈ rest ∧ source_docs w n ≠ [])) as [[Hn Hne]|Hno].
      * rewrite decide_True; [done|]. split; [by right|done].
      * destruct (decide (n = name)) as [->|Hn].
        -- rewrite Hd1. destruct (decide (source_docs w name ≠ [])) as [Hne|He].
           ++ rewrite decide_True; [done|]. split; [by left|done].
           ++ rewrite decide_False; [done|]. by intros [_ ?].
        -- rewrite Ho1 by done. rewrite decide_False; [done|].
           intros [[?|?]%elem_of_cons ?]; [done|]. apply Hno. by split.
Qed.

Lemma copyCollections_restore fuel o w :
  importJson o = true → dryRun o = false → incremental o = false →
  validateSchema o = false → 1 ≤ batchSize o →
  src_up (env w) = true → tgt_up (env w) = true →
  let cols := resolve_collections (collections o) (map fst (source (env w))) in
  (∀ n, n ∈ cols → source_docs w n ≠ [] → restorable fuel o w n) →
  ∃ w', copyCollections fuel o w = Ok (map (import_entry o w) cols) w'
        ∧ env w' = env w ∧ files w' = files w
        ∧ ∀ n, target_docs w' n = imported o w cols n.
Proof.
  intros Himp Hdry Hinc Hval Hb Hs Ht cols Hres.
  rewrite copyCollections_unfold, Hs, Ht. unfold try_finally.
  unfold run_body, bind at 1, listCollections.
  change (env (connected w)) with (env w). fold cols. unfold bind at 1.
  set (w0 := if exportJson o
             then (if bool_decide (is_Some (files w !! outputDir o))
                      || bool_decide (outputDir o ∈ dirs w)
                   then connected w
                   else set_dirs (λ ds, {[outputDir o]} ∪ ds) (connected w))
             else connected w).
  assert (when (exportJson o)
            (let* present := existsSync (outputDir o) in
             when (negb present) (mkdirSync (outputDir o))) (connected w) = Ok tt w0) as ->.
  { unfold w0. destruct (exportJson o); [|done]. unfold when at 1, bind, existsSync. simpl.
    by destruct (_ || _). }
  assert (env w0 = env w ∧ files w0 = files w ∧ tgt_docs w0 = tgt_docs w
          ∧ ∀ p, p ≠ outputDir o → (p ∈ dirs w0 ↔ p ∈ dirs w)) as (He0 & Hf0 & Hd0 & Hdi0).
  { unfold w0. destruct (exportJson o); [|done]. destruct (_ || _); [done|].
    split_and!; try done. intros p Hp. simpl.
    rewrite elem_of_union, elem_of_singleton. split; [by intros [?|?]|by right]. }
  clearbody w0.
  destruct (run_collections_restore fuel o cols [] w0 Himp Hdry Hinc Hval Hb)
    as (w1 & -> & He1 & Hf1 & Hdi1 & Hd1).
  { intros n Hn Hne. rewrite (source_docs_env w w0) in Hne by done.
    destruct (Hres n Hn Hne) as (Hj & Hjson & Hidx & Hfuel).
    unfold restorable, importable, index_file_ok, data_file in *. rewrite He0, Hf0.
    split; [done|]. split; [done|]. split; [|done].
    intros Hci. destruct (Hidx Hci) as [[Hnone Hdir]|Hsome]; [|by right].
    left. split; [done|]. intros Hin. apply Hdir. apply Hdi0; [|done].
    intros Hp. unfold index_path, path_join in Hp.
    apply (f_equal String.list_ascii_of_string) in Hp. rewrite list_of_append in Hp.
    apply (f_equal length) in Hp. rewrite length_app in Hp.
    simpl in Hp. lia. }
  destruct (finally_block_files o w1) as (w2 & -> & He2 & Hd2 & _ & Hf2 & _).
  exists w2. split.
  - simpl. f_equal. apply map_ext. intros n. by apply import_entry_env.
  - split_and!; try congruence. intros n. unfold target_docs at 1. rewrite Hd2.
    fold (target_docs w1 n). rewrite Hd1. unfold imported, data_file, target_docs.
    by rewrite (source_docs_env w w0 n He0), Hf0, Hd0.
Qed.

(** X7. A full import (no dry run, not incremental, no schema validation)
    of data files the target accepts returns [imported-json] for every
    resolved collection that has a document on the source, with [copied]
    and [total] the number of documents in the file, and [empty] for the
    others. Each imported collection is replaced as a whole: afterwards it
    holds exactly the documents of its data file, in the file's order,
    whatever it held before. Collections that are not resolved or have no
    document on the source keep their documents, also when a data file
    for them exists. *)
Theorem import_replaces_collections (fuel : nat) (o : options) (w : world) :
  importJson o = true → dryRun o = false → incremental o = false →
  validateSchema o = false → 1 ≤ batchSize o →
  src_up (env w) = true → tgt_up (env w) = true →
  let cols := resolve_collections (collections o) (map fst (source (env w))) in
  (∀ n, n ∈ cols → source_docs w n ≠ [] → restorable fuel o w n) →
  ∃ w', copyCollections fuel o w = Ok (map (import_entry o w) cols) w'
        ∧ ∀ n, target_docs w' n = imported o w cols n.
Proof.
  intros Himp Hdry Hinc Hval Hb Hs Ht cols Hres.
  destruct (copyCollections_restore fuel o w Himp Hdry Hinc Hval Hb Hs Ht Hres)
    as (w' & Hrun & _ & _ & Hd).
  by exists w'.
Qed.


(** ** A batch size of zero *)

Lemma full_copy_loop_zero fuel o name cursor copied w :
  batchSize o = 0 → cursor ≠ [] → full_copy_loop fuel o name cursor copied w = Diverge.
Proof.
  intros Hb Hne. revert w. induction fuel as [|fuel IH]; intros w.
  - by destruct cursor.
  - destruct cursor as [|d c]; [done|]. cbn [full_copy_loop]. rewrite Hb. simpl. apply IH.
Qed.

Lemma bar_start_total o total name w :
  ∃ w', when (0 <? total) (bar o (EvBarStart total name)) w = Ok tt w' ∧ env w' = env w.
Proof.
  unfold when, bar, when, log, ret. destruct (0 <? total); [|by exists w].
  destruct (showProgress o); by eexists.
Qed.

Lemma process_collection_zero fuel o name w :
  batchSize o = 0 → incremental o = false → dryRun o = false →
  importJson o = false → exportJson o = false → validateSchema o = false →
  process_collection fuel o name w
  = if length (matched o w name) =? 0
    then Ok (Entry name 0 0 "empty" None) w
    else Diverge.
Proof.
  intros Hb Hinc Hdry Himp Hexp Hval. rewrite process_collection_cases. cbn zeta.
  rewrite Hinc, Hval. destruct (_ =? 0) eqn:Hz.
  { apply Nat.eqb_eq in Hz. by rewrite Hz. }
  cbn [andb]. unfold transfer. rewrite Hdry, Himp, Hexp. unfold bind at 1.
  destruct (bar_start_total o (length (matched o w name)) name w) as (w1 & -> & He1).
  unfold live_copy, bind at 1, find. rewrite Hinc. unfold bind at 1, bind at 1, deleteMany.
  rewrite full_copy_loop_zero; [done..|].
  fold (matched o w1 name). rewrite (matched_env o w w1 name He1).
  apply Nat.eqb_neq in Hz. by destruct (matched o w name).
Qed.

(** X9. A full live copy with a batch size of zero never ends: when a
    resolved collection has a selected document, the run neither returns
    nor throws, whatever the fuel. *)
Theorem full_copy_batch_zero_hangs (fuel : nat) (o : options) (w : world) (n : string) :
  batchSize o = 0 → incremental o = false → dryRun o = false →
  importJson o = false → exportJson o = false → validateSchema o = false →
  src_up (env w) = true → tgt_up (env w) = true →
  n ∈ resolve_collections (collections o) (map fst (source (env w))) →
  matched o w n ≠ [] →
  copyCollections fuel o w = Diverge.
Proof.
  intros Hb Hinc Hdry Himp Hexp Hval Hs Ht Hin Hne.
  rewrite copyCollections_unfold, Hs, Ht. unfold try_finally, run_body, bind at 1, listCollections.
  change (env (connected w)) with (env w). rewrite Hexp. cbn [when]. unfold bind at 1, ret.
  set (cols := resolve_collections _ _) in *.
  assert (∀ summary w1, env w1 = env w →
            run_collections fuel o cols summary w1 = Diverge) as ->; [|done..].
  clearbody cols. induction cols as [|name rest IH]; intros summary w1 He1.
  - by apply elem_of_nil in Hin.
  - cbn [run_collections]. unfold bind.
    rewrite (process_collection_zero fuel o name w1 Hb Hinc Hdry Himp Hexp Hval).
    rewrite (matched_env o w w1 name He1).
    destruct (_ =? 0) eqn:Hz; [|done].
    apply IH; [|done]. apply elem_of_cons in Hin as [->|?]; [|done].
    apply Nat.eqb_eq in Hz. by destruct (matched o w name).
Qed.

(** X10. An import with a batch size of zero fails on its first, empty,
    batch with the driver's error for an empty batch. A full import has by
    then emptied the target collection, and leaves it empty; an incremental
    import leaves it as it was. *)
Theorem import_batch_zero_throws (fuel : nat) (o : options) (name : string) (w : world)
    (json : list doc) :
  batchSize o = 0 → importJson o = true → dryRun o = false → validateSchema o = false →
  matched o w name ≠ [] →
  files w !! data_path o name = Some (FDocs json) → json ≠ [] → 1 ≤ fuel →
  ∃ w', process_collection fuel o name w = Throw msg_empty_batch w'
        ∧ target_docs w' name = (if incremental o then target_docs w name else [])
        ∧ wrote_docs name w w'.
Proof.
  intros Hb Himp Hdry Hval Hm Hfile Hne Hfuel.
  rewrite process_collection_cases. cbn zeta.
  destruct (_ =? 0) eqn:Hz.
  { apply Nat.eqb_eq in Hz. by destruct (matched o w name). }
  rewrite Hval. cbn [andb]. unfold transfer. rewrite Hdry, Himp. unfold bind at 1.
  destruct (bar_wrote o (EvBarStart (length (matched o w name)) name) name w)
    as (wb & Hbar & Hwb & Hdb).
  set (w1 := if 0 <? length (matched o w name) then wb else w).
  assert (when (0 <? length (matched o w name))
            (bar o (EvBarStart (length (matched o w name)) name)) w = Ok tt w1) as ->.
  { unfold w1. by destruct (0 <? _). }
  assert (wrote_docs name w w1 ∧ target_docs w1 name = target_docs w name) as [Hw1 Hd1].
  { unfold w1. destruct (0 <? _); [done|]. split; [apply wrote_docs_refl|done]. }
  clearbody w1. clear Hbar Hwb Hdb wb.
  unfold import_json. cbn zeta. fold (data_path o name). unfold bind at 1, existsSync at 1.
  assert (files w1 !! data_path o name = Some (FDocs json)) as Hfile1.
  { destruct Hw1 as (_ & -> & _). done. }
  rewrite Hfile1. rewrite (bool_decide_eq_true_2 (is_Some (Some _))) by eauto.
  cbn [orb negb]. unfold bind at 1, read_docs. rewrite Hfile1.
  destruct (length json =? 0) eqn:Hj.
  { apply Nat.eqb_eq in Hj. by destruct json. }
  destruct fuel as [|fuel]; [lia|].
  assert ((0 <? length json) = true) as Hpos.
  { apply Nat.ltb_lt. apply Nat.eqb_neq in Hj. lia. }
  destruct (incremental o).
  - unfold bind at 1. cbn [import_loop]. rewrite Hpos, Hb. cbn [take]. unfold bind at 1.
    unfold bulkWrite at 1. cbn zeta. eexists. split; [done|]. split; [done|].
    apply (wrote_docs_trans name w w1); [done|]. by split_and!.
  - unfold bind at 1, bind at 1, deleteMany. cbn [import_loop]. rewrite Hpos, Hb. cbn [take].
    unfold bind at 1. unfold insertMany at 1. cbn zeta. eexists. split; [done|]. split.
    + change (target_docs (emit ?e ?x) name) with (target_docs x name).
      by rewrite target_docs_set_eq.
    + apply (wrote_docs_trans name w w1); [done|]. split_and!; try done.
      intros n Hn. change (target_docs (emit ?e ?x) n) with (target_docs x n).
      by rewrite target_docs_set_ne.
Qed.

Lemma bind_ext2 {A B} (m1 m2 : M A) (k1 k2 : A → M B) w :
  m1 w = m2 w → (∀ a w1, k1 a w1 = k2 a w1) → bind m1 k1 w = bind m2 k2 w.
Proof. intros Hm Hk. unfold bind. rewrite Hm. destruct (m2 w); [apply Hk|done..]. Qed.

Lemma bind_ext {A B} (m : M A) (k1 k2 : A → M B) w :
  (∀ a w1, k1 a w1 = k2 a w1) → bind m k1 w = bind m k2 w.
Proof. by apply bind_ext2. Qed.

Lemma upsert_loop_zero o name cursor copied w :
  batchSize o = 0 →
  upsert_loop o name cursor [] copied w
  = upsert_loop (with_batchSize 1 o) name cursor [] copied w.
Proof.
  intros Hb. revert copied w. induction cursor as [|d c IH]; intros copied w; [done|].
  cbn [upsert_loop]. rewrite Hb. cbn [app length Nat.leb with_batchSize batchSize].
  apply bind_ext. intros _ w1. apply bind_ext. intros _ w2. apply IH.
Qed.

Lemma live_copy_zero fuel o name q total w :
  batchSize o = 0 → incremental o = true →
  live_copy fuel o name q total w = live_copy fuel (with_batchSize 1 o) name q total w.
Proof.
  intros Hb Hinc. unfold live_copy. cbn [with_batchSize incremental copyIndexes].
  rewrite Hinc. apply bind_ext. intros cursor w1.
  apply bind_ext2; [|done]. unfold incremental_copy.
  apply bind_ext2; [|done]. by apply upsert_loop_zero.
Qed.

Lemma export_loop_batch b o cursor allDocs docCount w :
  export_loop (with_batchSize b o) cursor allDocs docCount w
  = export_loop o cursor allDocs docCount w.
Proof.
  revert allDocs docCount w. induction cursor as [|d c IH]; intros allDocs docCount w; [done|].
  cbn [export_loop]. apply bind_ext2; [done|]. intros _ w1. apply IH.
Qed.

Lemma export_json_batch b o name q total w :
  export_json (with_batchSize b o) name q total w = export_json o name q total w.
Proof.
  unfold export_json. cbn [with_batchSize outputDir copyIndexes].
  apply bind_ext. intros cursor w1. apply bind_ext. intros present w2.
  apply bind_ext. intros _ w3. apply bind_ext2; [apply export_loop_batch|done].
Qed.

(** X11. For a live incremental copy a batch size of zero is a batch size
    of one: every document is written by a [bulkWrite] of its own. *)
Theorem incremental_batch_zero_is_one (fuel : nat) (o : options) (name : string) (w : world) :
  batchSize o = 0 → incremental o = true → importJson o = false →
  process_collection fuel o name w = process_collection fuel (with_batchSize 1 o) name w.
Proof.
  intros Hb Hinc Himp. unfold process_collection.
  cbn [with_batchSize incremental validateSchema dryRun exportJson importJson].
  change (build_query (with_batchSize 1 o)) with (build_query o).
  apply bind_ext. intros total w1. destruct (total =? 0); [done|].
  apply bind_ext. intros failed w2. destruct failed; [done|].
  destruct (dryRun o); [done|]. apply bind_ext. intros _ w3. rewrite Himp.
  destruct (exportJson o); [symmetry; apply export_json_batch|]. by apply live_copy_zero.
Qed.

(** ** What a run leaves alone *)

Lemma process_collection_skips fuel o name w :
  matched o w name = [] →
  process_collection fuel o name w
  = Ok (Entry name 0 0 (if incremental o then "no-new-docs" else "empty") None) w.
Proof. intros Hm. rewrite process_collection_cases. cbn zeta. by rewrite Hm. Qed.

Lemma run_collections_untouched fuel o names summary w w' n :
  n ∉ names ∨ matched o w n = [] →
  final_world (run_collections fuel o names summary w) = Some w' →
  target_docs w' n = target_docs w n.
Proof.
  intros Hn. revert summary w Hn.
  induction names as [|name rest IH]; intros summary w Hn; simpl.
  - by intros [= <-].
  - unfold bind. destruct (process_collection fuel o name w) as [e w1|msg w1|] eqn:Hp;
      [| |done].
    + assert (env w1 = env w) as He1
        by (apply (process_collection_env fuel o name); by rewrite Hp).
      assert (target_docs w1 n = target_docs w n) as Hd1.
      { destruct (decide (n = name)) as [->|Hne].
        - destruct Hn as [Hn|Hm]; [destruct Hn; by left|].
          rewrite (process_collection_skips fuel o name w Hm) in Hp. by injection Hp as _ <-.
        - apply (process_collection_frame fuel o name w w1 n Hne). by rewrite Hp. }
      intros Hf. rewrite <- Hd1. apply (IH (summary ++ [e]) w1); [|done].
      destruct Hn as [Hn|Hm]; [left|right].
      * intros ?. apply Hn. by right.
      * by rewrite (matched_env o w w1).
    + intros [= <-]. destruct (decide (n = name)) as [->|Hne].
      * destruct Hn as [Hn|Hm]; [destruct Hn; by left|].
        by rewrite (process_collection_skips fuel o name w Hm) in Hp.
      * apply (process_collection_frame fuel o name w w1 n Hne). by rewrite Hp.
Qed.

(** X12. A run writes only to the collections it resolved and found
    documents for: a target collection that is not resolved, or whose
    source collection has no selected document, holds the same documents
    when the run ends, by a return or by an exception, in every mode. *)
Theorem run_leaves_other_collections (fuel : nat) (o : options) (w w' : world) (n : string) :
  n ∉ resolve_collections (collections o) (map fst (source (env w))) ∨ matched o w n = [] →
  final_world (copyCollections fuel o w) = Some w' →
  target_docs w' n = target_docs w n.
Proof.
  intros Hn. rewrite copyCollections_unfold.
  destruct (src_up (env w)); [|by intros [= <-]].
  destruct (tgt_up (env w)); [|by intros [= <-]].
  assert (∀ wb, final_world (run_body fuel o (connected w)) = Some wb →
                target_docs wb n = target_docs w n) as Hbody.
  { intros wb. unfold run_body, bind at 1, listCollections.
    change (env (connected w)) with (env w).
    destruct (mkdir_step o (connected w)) as (wm & Hm & He & Hd).
    rewrite (bind_eq_Ok _ _ _ _ _ Hm). intros Hf.
    apply (run_collections_untouched fuel o _ [] wm wb n) in Hf.
    - rewrite Hf. unfold target_docs. by rewrite Hd.
    - destruct Hn as [?|Hm']; [by left|right]. by rewrite (matched_env o w wm). }
  unfold try_finally.
  destruct (run_body fuel o (connected w)) as [s wb|msg wb|]; [| |done].
  - destruct (finally_block o wb) as (w2 & -> & _ & Hd2 & _). intros [= <-].
    rewrite <- (Hbody wb eq_refl). unfold target_docs. by rewrite Hd2.
  - destruct (finally_block o wb) as (w2 & -> & _ & Hd2 & _). intros [= <-].
    rewrite <- (Hbody wb eq_refl). unfold target_docs. by rewrite Hd2.
Qed.

(** ** Connections *)

(** X13. When both endpoints accept the connection, every run that ends,
    by a return or by an exception, has closed both connections: each is
    closed exactly once, the source first, after every other operation of
    the run. *)
Theorem both_connections_closed (fuel : nat) (o : options) (w w' : world) :
  src_up (env w) = true → tgt_up (env w) = true →
  final_world (copyCollections fuel o w) = Some w' →
  src_open w' = false ∧ tgt_open w' = false
  ∧ ∃ mid, trace w' = trace w ++ [EvConnect Src; EvConnect Tgt] ++ mid
                        ++ [EvClose Src; EvClose Tgt]
           ∧ Forall (λ e, connection_event e = false) mid.
Proof. apply connections_closed_once. Qed.

(** ** Live runs as a whole *)

(** X14. A live incremental run without schema validation that returns
    normally has brought every selected source document of every resolved
    collection into the target: the target collection holds, under the
    document's [_id], exactly that document. *)
Theorem incremental_run_syncs (fuel : nat) (o : options) (w : world)
    (s : list entry) (w' : world) :
  incremental o = true → importJson o = false → exportJson o = false →
  dryRun o = false → validateSchema o = false → source_wf w →
  copyCollections fuel o w = Ok s w' →
  ∀ n d, n ∈ resolve_collections (collections o) (map fst (source (env w))) →
         d ∈ matched o w n →
         ∃ k, doc_id d = Some k ∧ find_id k (target_docs w' n) = Some d.
Proof.
  intros Hinc Himp Hexp Hdry Hval Hwf Hrun n d Hn Hd.
  apply copyCollections_Ok_world in Hrun as (_ & _ & wb & Hbody & He & Hdocs).
  apply run_body_settled in Hbody as [Heb Hset]; [|done..].
  change (env (connected w)) with (env w) in Heb, Hset.
  rewrite <- (matched_env o w wb n Heb) in Hd.
  destruct (Hset n Hn) as [Hm|[Hc|[Hc|[[Hc _]|Hsync]]]]; try congruence.
  - rewrite Hm in Hd. by apply elem_of_nil in Hd.
  - destruct (Hsync d Hd) as (_ & k & Hk & Hf). exists k. split; [done|].
    unfold target_docs. rewrite Hdocs. exact Hf.
Qed.




(** ** Termination *)

Ltac keep_prim :=
  match goal with
  | |- preserves _ (bar _ _) => apply (pres_bar _ (λ _, True)); done
  | |- preserves _ (existsSync _) => apply pres_existsSync
  | |- preserves _ (read_docs _) => apply pres_read_docs
  | |- preserves _ (read_indexes _) => apply pres_read_indexes
  | |- preserves _ (countDocuments _ _) => apply pres_countDocuments
  | |- preserves _ (copyIndexesToTarget _ _) =>
      apply (pres_copyIndexesToTarget _ (λ _, True)); done
  | |- preserves _ (bulkWrite _ _) =>
      apply (pres_bulkWrite _ (λ _, True) (λ _, True)); done
  | |- preserves _ (insertMany _ _) =>
      apply (pres_insertMany _ (λ _, True) (λ _, True)); done
  | |- preserves _ (deleteMany _) =>
      apply (pres_deleteMany _ (λ _, True) (λ _, True)); done
  | |- preserves _ (schema_probe _ _) =>
      apply (pres_schema_probe _ (λ _, True) (λ _, True)); done
  | |- preserves _ (import_loop _ _ _ _ _) =>
      apply (pres_import_loop _ (λ _, True)); [done|done|intros ?]
  end.

Lemma import_json_keeps_files fuel o name w0 :
  preserves (λ w, env w = env w0 ∧ files w = files w0) (import_json fuel o name).
Proof. unfold import_json. repeat pres_step; repeat keep_prim. Qed.

Lemma process_collection_keeps_files fuel o name w0 :
  importJson o = true →
  preserves (λ w, env w = env w0 ∧ files w = files w0) (process_collection fuel o name).
Proof.
  intros Himp. unfold process_collection. rewrite Himp.
  repeat pres_step; repeat keep_prim. apply import_json_keeps_files.
Qed.

Lemma import_loop_halts fuel o write json i w :
  (∀ chunk w1, write chunk w1 ≠ Diverge) →
  1 ≤ batchSize o → length json ≤ i + fuel →
  import_loop fuel o write json i w ≠ Diverge.
Proof.
  intros Hwrite Hb. revert i w. induction fuel as [|fuel IH]; intros i w Hfuel.
  - simpl. by rewrite (proj2 (Nat.ltb_ge _ _)) by lia.
  - cbn [import_loop]. destruct (i <? length json); [|done].
    unfold bind at 1. pose proof (Hwrite (take (batchSize o) (drop i json)) w) as Hw.
    destruct (write _ w) as [u w1|msg w1|]; [|done..].
    unfold bind.
    destruct (bar_trace o (EvBarUpdate (i + length (take (batchSize o) (drop i json)))) w1)
      as (w2 & -> & _).
    apply IH. lia.
Qed.

Lemma tail_halts o name (e : entry) w :
  (when (copyIndexes o) (let* idxs := indexes name in copyIndexesToTarget name idxs) >>
   bar o EvBarStop >> ret e) w ≠ Diverge.
Proof.
  unfold bind at 1.
  assert (∃ w1, when (copyIndexes o)
                  (let* idxs := indexes name in copyIndexesToTarget name idxs) w = Ok tt w1)
    as (w1 & ->).
  { destruct (copyIndexes o); [|by exists w]. cbn [when]. unfold bind, indexes.
    destruct (copyIndexesToTarget_total name (source_indexes w name) w) as (w1 & ->).
    by exists w1. }
  unfold bind. by destruct (bar_trace o EvBarStop w1) as (w2 & -> & _).
Qed.

Lemma live_copy_halts fuel o name q total w :
  1 ≤ batchSize o → length (source_docs w name) ≤ fuel →
  live_copy fuel o name q total w ≠ Diverge.
Proof.
  intros Hb Hfuel. unfold live_copy, bind at 1, find.
  set (cursor := filter _ _).
  assert (length cursor ≤ fuel) as Hc.
  { etrans; [|exact Hfuel]. apply length_filter. }
  unfold bind at 1. destruct (incremental o).
  - pose proof (incremental_copy_total o name cursor w) as Hcopy.
    destruct (incremental_copy o name cursor w) as [copied w1|msg w1|]; [|done..].
    apply tail_halts.
  - unfold bind at 1, deleteMany.
    set (w0 := set_tgt_docs _ _).
    pose proof (full_copy_loop_total o name Hb fuel cursor 0 w0 Hc) as Hcopy.
    destruct (full_copy_loop fuel o name cursor 0 w0) as [copied w1|msg w1|]; [|done..].
    apply tail_halts.
Qed.

Lemma import_json_halts fuel o name w :
  1 ≤ batchSize o →
  (∀ l, files w !! data_path o name = Some (FDocs l) → length l ≤ fuel) →
  import_json fuel o name w ≠ Diverge.
Proof.
  intros Hb Hfile. unfold import_json. cbn zeta. fold (data_path o name).
  fold (index_path o name). unfold bind at 1, existsSync at 1.
  destruct (negb _).
  { unfold bind. by destruct (bar_trace o EvBarStop w) as (w1 & -> & _). }
  unfold bind at 1, read_docs.
  destruct (files w !! data_path o name) as [[json| |]|] eqn:Hf; [|done..].
  specialize (Hfile json eq_refl).
  destruct (length json =? 0).
  { unfold bind. by destruct (bar_trace o EvBarStop w) as (w1 & -> & _). }
  unfold bind at 1.
  assert (∃ r, (if incremental o then import_loop fuel o (bulkWrite name) json 0
                else deleteMany name >> import_loop fuel o (insertMany name) json 0) w = r
               ∧ r ≠ Diverge) as (r & -> & Hloop).
  { eexists. split; [done|]. destruct (incremental o).
    - apply import_loop_halts; [apply bulkWrite_total|done|lia].
    - unfold bind, deleteMany. apply import_loop_halts; [apply insertMany_total|done|lia]. }
  destruct r as [u w1|msg w1|]; [|done..].
  unfold bind at 1.
  assert (when (copyIndexes o)
            (let* ipresent := existsSync (index_path o name) in
             if ipresent then
               let* idxs := read_indexes (index_path o name) in copyIndexesToTarget name idxs
             else ret tt) w1 ≠ Diverge) as Hidx.
  { destruct (copyIndexes o); [|done]. cbn [when]. unfold bind at 1, existsSync.
    destruct (_ || _); [|done]. unfold bind, read_indexes.
    destruct (files w1 !! index_path o name) as [[| l |]|]; [done| |done..].
    by destruct (copyIndexesToTarget_total name l w1) as (w2 & ->). }
  destruct (when _ _ w1) as [u' w2|msg w2|]; [|done..].
  unfold bind. by destruct (bar_trace o EvBarStop w2) as (w3 & -> & _).
Qed.

Lemma process_collection_halts fuel o name w :
  1 ≤ batchSize o → length (source_docs w name) ≤ fuel →
  (importJson o = true →
   ∀ l, files w !! data_path o name = Some (FDocs l) → length l ≤ fuel) →
  process_collection fuel o name w ≠ Diverge.
Proof.
  intros Hb Hsrc Hfile. rewrite process_collection_cases. cbn zeta.
  destruct (_ =? 0); [done|].
  assert (∀ w1, env w1 = env w → files w1 = files w →
            transfer fuel o name (length (matched o w name)) w1 ≠ Diverge) as Htr.
  { intros w1 He1 Hf1. unfold transfer. destruct (dryRun o); [done|].
    unfold bind.
    assert (∃ w2, when (0 <? length (matched o w name))
                    (bar o (EvBarStart (length (matched o w name)) name)) w1 = Ok tt w2
                  ∧ env w2 = env w1 ∧ files w2 = files w1) as (w2 & -> & He2 & Hf2).
    { unfold when, bar, when, log, ret. destruct (0 <? _); [|by exists w1].
      destruct (showProgress o); by eexists. }
    destruct (importJson o) eqn:Himp.
    - apply import_json_halts; [done|]. rewrite Hf2, Hf1. by apply Hfile.
    - destruct (exportJson o).
      + by destruct (export_json_spec o name (length (matched o w name)) w2) as (w3 & -> & _).
      + apply live_copy_halts; [done|]. rewrite (source_docs_env w w2); [done|congruence]. }
  destruct (validateSchema o && negb (dryRun o) && negb (exportJson o)); [|by apply Htr].
  pose proof (schema_probe_total name (build_query o) w) as Hp.
  destruct (schema_probe name (build_query o) w) as [u w1|msg w1|] eqn:Hprobe; [|done..].
  assert (final_world (schema_probe name (build_query o) w) = Some w1) as Hfw
    by (by rewrite Hprobe).
  apply Htr.
  - by apply schema_probe_quiet in Hfw as (? & _).
  - by apply schema_probe_files in Hfw as (? & _).
Qed.

Lemma run_collections_halts fuel o names summary w :
  1 ≤ batchSize o →
  (∀ n, length (source_docs w n) ≤ fuel) →
  (importJson o = true → ∀ p l, files w !! p = Some (FDocs l) → length l ≤ fuel) →
  run_collections fuel o names summary w ≠ Diverge.
Proof.
  intros Hb. revert summary w.
  induction names as [|name rest IH]; intros summary w Hsrc Hfile; [done|].
  cbn [run_collections]. unfold bind.
  pose proof (process_collection_halts fuel o name w Hb (Hsrc name)) as Hp.
  destruct (process_collection fuel o name w) as [e w1|msg w1|] eqn:Hrun; [|done|].
  2:{ exfalso. apply Hp; [|done]. intros Himp l. apply Hfile. done. }
  assert (env w1 = env w) as He1
    by (apply (process_collection_env fuel o name); by rewrite Hrun).
  apply IH.
  - intros n. by rewrite (source_docs_env w w1 n He1).
  - intros Himp p l.
    pose proof (process_collection_keeps_files fuel o name w Himp w (conj eq_refl eq_refl))
      as Hkeep.
    rewrite Hrun in Hkeep. destruct Hkeep as [_ ->]. by apply Hfile.
Qed.

Lemma copyCollections_halts fuel o w :
  1 ≤ batchSize o →
  (∀ n, length (source_docs w n) ≤ fuel) →
  (importJson o = true → ∀ p l, files w !! p = Some (FDocs l) → length l ≤ fuel) →
  ∃ w', final_world (copyCollections fuel o w) = Some w'.
Proof.
  intros Hb Hsrc Hfile. rewrite copyCollections_unfold.
  destruct (src_up (env w)); [|by eexists]. destruct (tgt_up (env w)); [|by eexists].
  assert (run_body fuel o (connected w) ≠ Diverge) as Hbody.
  { unfold run_body, bind at 1, listCollections. unfold bind at 1.
    assert (∃ w1, when (exportJson o)
                    (let* present := existsSync (outputDir o) in
                     when (negb present) (mkdirSync (outputDir o))) (connected w) = Ok tt w1
                  ∧ env w1 = env w ∧ files w1 = files w) as (w1 & -> & He1 & Hf1).
    { destruct (exportJson o); [|by eexists]. cbn [when]. unfold bind, existsSync.
      destruct (negb _); by eexists. }
    apply run_collections_halts; [done| |].
    - intros n. by rewrite (source_docs_env w w1 n He1).
    - intros Himp p l. rewrite Hf1. by apply Hfile. }
  unfold try_finally.
  destruct (run_body fuel o (connected w)) as [s wb|msg wb|]; [| |done].
  - destruct (finally_block o wb) as (w2 & -> & _). by eexists.
  - destruct (finally_block o wb) as (w2 & -> & _). by eexists.
Qed.

(** X16. With a batch size of at least one the engine always comes to an
    end: once the fuel covers the largest source collection (and, for an
    import, the largest data file), every run ends in a return or in an
    exception, for every choice of the other options and every state of
    the endpoints and of the file system. *)
Theorem copyCollections_terminates (fuel : nat) (o : options) (w : world) :
  1 ≤ batchSize o →
  (∀ n, length (source_docs w n) ≤ fuel) →
  (importJson o = true → ∀ p l, files w !! p = Some (FDocs l) → length l ≤ fuel) →
  ∃ w', final_world (copyCollections fuel o w) = Some w'.
Proof. apply copyCollections_halts. Qed.

(** ** Indexes in a live copy *)



(** ** The file system in a dry run *)

(** X18. A dry run writes no file. With [exportJson] it still creates the
    output directory when nothing of that name exists; this is its only
    trace in the file system. *)
Theorem dry_run_file_system (fuel : nat) (o : options) (w w' : world) :
  dryRun o = true →
  final_world (copyCollections fuel o w) = Some w' →
  files w' = files w
  ∧ dirs w' = (if src_up (env w) && tgt_up (env w) && exportJson o
                  && negb (bool_decide (is_Some (files w !! outputDir o))
                           || bool_decide (outputDir o ∈ dirs w))
               then {[outputDir o]} ∪ dirs w
               else dirs w).
Proof.
  intros Hdry. rewrite copyCollections_unfold.
  destruct (src_up (env w)); [|by intros [= <-]].
  destruct (tgt_up (env w)); [|by intros [= <-]].
  cbn [andb]. unfold try_finally, run_body, bind at 1, listCollections. unfold bind at 1.
  set (present := bool_decide (is_Some (files w !! outputDir o))
                  || bool_decide (outputDir o ∈ dirs w)).
  set (w1 := if exportJson o && negb present
             then set_dirs (λ ds, {[outputDir o]} ∪ ds) (connected w) else connected w).
  assert (when (exportJson o)
            (let* present := existsSync (outputDir o) in
             when (negb present) (mkdirSync (outputDir o))) (connected w) = Ok tt w1) as ->.
  { unfold w1. destruct (exportJson o); [|done]. cbn [when andb]. unfold bind, existsSync.
    change (files (connected w)) with (files w). change (dirs (connected w)) with (dirs w).
    fold present. by destruct present. }
  rewrite (run_collections_dry fuel o _ [] w1 Hdry).
  destruct (finally_block_files o w1) as (w2 & -> & _ & _ & _ & Hf2 & Hd2 & _).
  intros [= <-]. rewrite Hf2, Hd2. unfold w1.
  by destruct (exportJson o && negb present).
Qed.

(** ** The incremental import *)

Lemma import_loop_upserts fuel o name json i w u w' :
  Forall (λ d, is_Some (doc_id d)) json →
  import_loop fuel o (bulkWrite name) json i w = Ok u w' →
  env w' = env w
  ∧ target_docs w' name = foldl upsert1 (target_docs w name) (drop i json).
Proof.
  intros Hids. revert i w. induction fuel as [|fuel IH]; intros i w.
  - simpl. destruct (i <? length json) eqn:Hi; [done|]. intros [= _ <-].
    apply Nat.ltb_ge in Hi. by rewrite drop_ge.
  - cbn [import_loop]. destruct (i <? length json) eqn:Hi.
    2:{ intros [= _ <-]. apply Nat.ltb_ge in Hi. by rewrite drop_ge. }
    intros (u1 & w1 & Hbw & Hrest)%bind_Ok.
    apply bind_Ok in Hrest as (u2 & w2 & Hbar & Hloop).
    apply bulkWrite_Ok in Hbw as (He1 & _ & Hd1).
    2:{ apply Forall_forall. intros d Hd. rewrite Forall_forall in Hids. apply Hids.
        apply (subseteq_drop i). by apply (subseteq_take (batchSize o)). }
    apply (bar_batches _ _ name) in Hbar as (_ & Hd2 & He2).
    apply IH in Hloop as (He3 & Hd3).
    split; [congruence|]. rewrite Hd3, Hd2, Hd1, <- foldl_app. f_equal.
    rewrite <- (drop_drop json (batchSize o) i). apply take_drop.
Qed.

(** X19. An incremental import that ends with [imported-json] has merged
    the data file into the target collection: every document of the file
    is in the target under its [_id] (when no [_id] occurs twice in the
    file), and a target document whose [_id] no document of the file has
    is where and what it was. Nothing is deleted. *)
Theorem incremental_import_merges (fuel : nat) (o : options) (name : string) (w : world)
    (json : list doc) (e : entry) (w' : world) :
  importJson o = true → incremental o = true → dryRun o = false →
  validateSchema o = false →
  files w !! data_path o name = Some (FDocs json) →
  Forall (λ d, is_Some (doc_id d)) json →
  process_collection fuel o name w = Ok e w' →
  e_status e = "imported-json" →
  (NoDup (doc_id <$> json) →
   ∀ d, d ∈ json → ∃ k, doc_id d = Some k ∧ find_id k (target_docs w' name) = Some d)
  ∧ (∀ k, (∀ d, d ∈ json → doc_id d ≠ Some k) →
          find_id k (target_docs w' name) = find_id k (target_docs w name)).
Proof.
  intros Himp Hinc Hdry Hval Hfile Hids. rewrite process_collection_cases. cbn zeta.
  destruct (_ =? 0); [intros [= <- _]; by rewrite Hinc|].
  rewrite Hval. cbn [andb]. unfold transfer. rewrite Hdry, Himp.
  intros (u & w1 & Hbar & Hrun)%bind_Ok.
  assert (env w1 = env w ∧ files w1 = files w ∧ dirs w1 = dirs w
          ∧ target_docs w1 name = target_docs w name) as (He1 & Hf1 & Hdi1 & Hd1).
  { revert Hbar. unfold when, bar, when, log, ret. destruct (0 <? _); [|by intros [= _ <-]].
    destruct (showProgress o); by intros [= _ <-]. }
  revert Hrun. unfold import_json. cbn zeta. fold (data_path o name).
  fold (index_path o name). unfold bind at 1, existsSync at 1.
  rewrite Hf1, Hfile. rewrite (bool_decide_eq_true_2 (is_Some (Some _))) by eauto.
  cbn [orb negb]. unfold bind at 1, read_docs. rewrite Hf1, Hfile.
  destruct (length json =? 0).
  { intros (? & ? & _ & [= <- _])%bind_Ok. done. }
  rewrite Hinc. intros (u1 & w2 & Hloop & Htail)%bind_Ok _.
  apply import_loop_upserts in Hloop as (He2 & Hd2); [|done].
  rewrite drop_0, Hd1 in Hd2.
  assert (target_docs w' name = target_docs w2 name) as Hlast.
  { apply bind_Ok in Htail as (u2 & w3 & Hidx & Hend).
    assert (tgt_docs w3 = tgt_docs w2) as Hd3.
    { revert Hidx. destruct (copyIndexes o); [|by intros [= _ <-]]. cbn [when].
      unfold bind at 1, existsSync. destruct (_ || _); [|by intros [= _ <-]].
      unfold bind, read_indexes.
      destruct (files w2 !! index_path o name) as [[| l |]|]; [done| |done..].
      destruct (copyIndexesToTarget_never_fails name l w2) as (w4 & -> & Hd4).
      by intros [= _ <-]. }
    revert Hend. unfold bind, bar, when, log, ret. unfold target_docs.
    destruct (showProgress o); intros [= _ <-]; simpl; by rewrite Hd3. }
  rewrite Hlast, Hd2. split.
  - intros Hnd d Hd. by apply foldl_upsert1_in_sync.
  - intros k Hk. by apply find_id_foldl_other.
Qed.

(** ** Names the source does not know *)

Lemma filter_none {A} (P : A → Prop) `{!∀ x, Decision (P x)} (l : list A) :
  (∀ x, x ∈ l → ¬ P x) → filter P l = [].
Proof.
  induction l as [|x l IH]; intros Hl; [done|].
  rewrite filter_cons_False by (apply Hl; by left).
  apply IH. intros y Hy. apply Hl. by right.
Qed.

(** X20. When collections are asked for and the source knows none of
    them, the run does not fall back to all collections: it returns an
    empty summary and leaves every target collection, every target index
    and every file as it was. *)
Theorem unknown_collections_do_nothing (fuel : nat) (o : options) (w : world)
    (cs : list string) :
  collections o = Some cs → cs ≠ [] →
  (∀ c, c ∈ cs → c ∉ map fst (source (env w))) →
  src_up (env w) = true → tgt_up (env w) = true →
  ∃ w', copyCollections fuel o w = Ok [] w'
        ∧ tgt_docs w' = tgt_docs w ∧ tgt_indexes w' = tgt_indexes w
        ∧ files w' = files w.
Proof.
  intros Hcs Hne Hnone Hs Ht. rewrite copyCollections_unfold, Hs, Ht.
  unfold try_finally, run_body, bind at 1, listCollections.
  change (env (connected w)) with (env w).
  assert (resolve_collections (collections o) (map fst (source (env w))) = []) as ->.
  { rewrite Hcs. unfold resolve_collections. destruct cs as [|c cs]; [done|].
    apply filter_none. intros x Hx Hin. by apply (Hnone x). }
  unfold bind at 1.
  assert (∃ w1, when (exportJson o)
                  (let* present := existsSync (outputDir o) in
                   when (negb present) (mkdirSync (outputDir o))) (connected w) = Ok tt w1
                ∧ tgt_docs w1 = tgt_docs w ∧ tgt_indexes w1 = tgt_indexes w
                ∧ files w1 = files w) as (w1 & -> & Hd1 & Hi1 & Hf1).
  { destruct (exportJson o); [|by eexists]. cbn [when]. unfold bind, existsSync.
    destruct (negb _); by eexists. }
  cbn [run_collections]. unfold ret.
  destruct (finally_block_files o w1) as (w2 & -> & _ & Hd2 & Hi2 & Hf2 & _).
  exists w2. split; [done|]. split_and!; congruence.
Qed.

(** * The command line *)

(** ** Text *)












Lemma split_comma_whole x :
  ","%char ∉ String.list_ascii_of_string x → split_comma x = [x].
Proof.
  induction x as [|a x IH]; [done|]. simpl. intros Hc.
  destruct (Ascii.eqb a ",") eqn:Ha.
  { apply Ascii.eqb_eq in Ha as ->. destruct Hc. by left. }
  rewrite IH; [done|]. intros ?. apply Hc. by right.
Qed.

Lemma split_comma_app x rest :
  ","%char ∉ String.list_ascii_of_string x →
  split_comma (x +:+ String "," rest) = x :: split_comma rest.
Proof.
  induction x as [|a x IH]; [done|]. simpl. intros Hc.
  change (String a x +:+ String "," rest) with (String a (x +:+ String "," rest)).
  cbn [split_comma].
  destruct (Ascii.eqb a ",") eqn:Ha.
  { apply Ascii.eqb_eq in Ha as ->. destruct Hc. by left. }
  rewrite IH; [done|]. intros ?. apply Hc. by right.
Qed.

Lemma join_cons sep x y rest : join sep (x :: y :: rest) = x +:+ sep +:+ join sep (y :: rest).
Proof. done. Qed.

Lemma split_comma_join names :
  Forall clean names → names ≠ [] → split_comma (join "," names) = names.
Proof.
  induction names as [|x rest IH]; [done|]. intros [Hx Hrest]%Forall_cons _.
  destruct rest as [|y rest].
  - simpl. apply split_comma_whole, Hx.
  - rewrite join_cons.
    change ("," +:+ join "," (y :: rest)) with (String "," (join "," (y :: rest))).
    rewrite split_comma_app by apply Hx. by rewrite IH.
Qed.

Lemma split_comma_join_spaced names :
  Forall clean names → names ≠ [] → split_comma (join ", " names) = spaced names.
Proof.
  induction names as [|x rest IH]; [done|]. intros [Hx Hrest]%Forall_cons _.
  destruct rest as [|y rest].
  - simpl. apply split_comma_whole, Hx.
  - rewrite join_cons.
    change (", " +:+ join ", " (y :: rest))
      with (String "," (String " " (join ", " (y :: rest)))).
    rewrite split_comma_app by apply Hx. cbn [split_comma].
    change (Ascii.eqb " " ",") with false. cbn iota.
    rewrite IH by done. done.
Qed.

Lemma join_nonempty sep names : Forall clean names → names ≠ [] → join sep names ≠ "".
Proof.
  destruct names as [|x rest]; [done|]. intros [(Hx & _) _]%Forall_cons _.
  destruct x as [|a x]; [done|]. by destruct rest.
Qed.

Lemma filter_clean names : Forall clean names → filter (λ x, x ≠ "") names = names.
Proof.
  induction names as [|x rest IH]; [done|]. intros [(Hx & _) Hrest]%Forall_cons.
  rewrite filter_cons_True by done. by rewrite IH.
Qed.

Lemma parse_collections_Some s :
  s ≠ "" → parse_collections (Some s) = filter (λ x, x ≠ "") (trim <$> split_comma s).
Proof. by destruct s. Qed.

(** X22. Names that are not empty, hold no comma and have no white space
    at either end come back from [--collections] as they were written,
    in order and with their repetitions, whether they are separated by a
    comma or by a comma and a space (as the confirmation prompt shows
    them). *)
Theorem parse_collections_join (names : list string) :
  Forall clean names →
  parse_collections (Some (join "," names)) = names
  ∧ parse_collections (Some (join ", " names)) = names.
Proof.
  intros Hclean. destruct (decide (names = [])) as [->|Hne]; [done|].
  rewrite !parse_collections_Some by (by apply join_nonempty).
  rewrite split_comma_join, split_comma_join_spaced by done.
  assert (trim <$> names = names) as Htrim.
  { clear Hne. induction names as [|x rest IH]; [done|].
    apply Forall_cons in Hclean as [(_ & Hx & _) Hrest]. by rewrite fmap_cons, Hx, IH. }
  split.
  - by rewrite Htrim, filter_clean.
  - assert (trim <$> spaced names = names) as ->; [|by apply filter_clean].
    destruct names as [|x rest]; [done|]. simpl.
    injection Htrim as Hx Hrest. rewrite Hx. f_equal.
    rewrite <- list_fmap_compose. etrans; [|exact Hrest]. by apply list_fmap_ext.
Qed.

(** ** The script *)

Lemma positive_or_pos n fallback : (0 < fallback)%Z → (0 < positive_or n fallback)%Z.
Proof.
  intros Hf. destruct n as [| |z]; simpl; [done..|]. case_bool_decide; lia.
Qed.

Lemma BATCH_SIZE_pos raw : (0 < BATCH_SIZE raw)%Z.
Proof.
  unfold BATCH_SIZE, parseIntegerEnv. destruct raw as [n|]; [|lia].
  by apply positive_or_pos.
Qed.

Lemma cli_batchSize_pos opts raw : (0 < cli_batchSize opts raw)%Z.
Proof.
  unfold cli_batchSize. pose proof (BATCH_SIZE_pos raw).
  assert (0 < (if bool_decide (BATCH_SIZE raw = 0%Z) then 1000 else BATCH_SIZE raw))%Z
    by (case_bool_decide; lia).
  destruct (opt_batchSize opts); [by apply positive_or_pos|done].
Qed.

(** X23. A run started from the command line always comes to an end:
    whatever the options, the environment's [BATCH_SIZE] and the answer to
    the prompt, the batch size handed to the engine is at least one, and
    the process exits once the fuel covers the largest source collection
    (and, for an import, the largest data file). *)
Theorem cli_never_hangs (fuel : nat) (opts : cli_options) (raw : option jsint)
    (answer : string + bool) (w : world) :
  (∀ n, length (source_docs w n) ≤ fuel) →
  (opt_importJson opts = true →
   ∀ p l, files w !! p = Some (FDocs l) → length l ≤ fuel) →
  1 ≤ batchSize (cli_engine_options opts raw)
  ∧ ∃ code asked out w', cli_main fuel opts raw answer w = Exit code asked out w'.
Proof.
  intros Hsrc Hfile.
  assert (1 ≤ batchSize (cli_engine_options opts raw)) as Hb.
  { simpl. pose proof (cli_batchSize_pos opts raw). lia. }
  split; [done|]. unfold cli_main. cbn zeta.
  destruct (_ && _ && _ && _); [by eexists _, _, _, _|].
  destruct (_ && _); [by eexists _, _, _, _|].
  destruct (if opt_yes opts then _ else _) as [[ok asked] out].
  destruct ok; simpl; [|by eexists _, _, _, _].
  destruct (copyCollections_halts fuel (cli_engine_options opts raw) w Hb Hsrc Hfile)
    as (w' & Hw').
  destruct (copyCollections fuel (cli_engine_options opts raw) w); [..|done];
    by eexists _, _, _, _.
Qed.

Lemma copyCollections_dry_target fuel o w w' :
  dryRun o = true → final_world (copyCollections fuel o w) = Some w' →
  tgt_docs w' = tgt_docs w ∧ tgt_indexes w' = tgt_indexes w.
Proof.
  intros Hdry. rewrite copyCollections_unfold.
  destruct (src_up (env w)); [|by intros [= <-]].
  destruct (tgt_up (env w)); [|by intros [= <-]].
  destruct (run_body_dry fuel o (connected w) Hdry) as (w1 & Hbody & _ & Hd1 & Hi1 & _).
  destruct (finally_block o w1) as (w2 & Hfin & _ & Hd2 & Hi2 & _).
  unfold try_finally. rewrite Hbody, Hfin. intros [= <-]. by rewrite Hd2, Hd1, Hi2, Hi1.
Qed.

(** X24. Started with [--export-json], the command line never changes the
    target: whatever the other options and the answer to the prompt, when
    the process exits every target collection has the documents and the
    indexes it had. With [--import-json] as well the script exits with
    code 1 before it connects. *)
Theorem cli_export_leaves_target (fuel : nat) (opts : cli_options) (raw : option jsint)
    (answer : string + bool) (w : world) (code : nat) (asked : option string)
    (out : list (level * string)) (w' : world) :
  opt_exportJson opts = true →
  cli_main fuel opts raw answer w = Exit code asked out w' →
  tgt_docs w' = tgt_docs w ∧ tgt_indexes w' = tgt_indexes w
  ∧ (opt_importJson opts = true → code = 1 ∧ w' = w).
Proof.
  intros Hexp. unfold cli_main. cbn zeta. rewrite Hexp.
  rewrite andb_false_r. cbn [negb andb].
  destruct (opt_importJson opts) eqn:Himp; [by intros [= <- _ _ <-]|].
  destruct (if opt_yes opts then _ else _) as [[ok asked'] out'].
  destruct ok; simpl; [|by intros [= _ _ _ <-]].
  assert (∀ w2, final_world (copyCollections fuel (cli_engine_options opts raw) w) = Some w2 →
                tgt_docs w2 = tgt_docs w ∧ tgt_indexes w2 = tgt_indexes w) as Hsafe.
  { intros w2 Hf. destruct (opt_dryRun opts) eqn:Hdry.
    - by apply (copyCollections_dry_target fuel (cli_engine_options opts raw)).
    - destruct (src_up (env w)) eqn:Hs.
      2:{ rewrite copyCollections_unfold, Hs in Hf. by injection Hf as <-. }
      destruct (tgt_up (env w)) eqn:Ht.
      2:{ rewrite copyCollections_unfold, Hs, Ht in Hf. by injection Hf as <-. }
      destruct (copyCollections_export fuel (cli_engine_options opts raw) w)
        as (w3 & Hrun & _ & Hd & Hi & _); try done.
      rewrite Hrun in Hf. by injection Hf as <-. }
  destruct (copyCollections fuel (cli_engine_options opts raw) w) as [s w2|msg w2|];
    [| |done].
  - intros [= _ _ _ <-]. destruct (Hsafe w2 eq_refl). done.
  - intros [= _ _ _ <-]. destruct (Hsafe w2 eq_refl). done.
Qed.

(** * The rest of the engine and the command line, on the sample data *)

Ltac in_list H :=
  apply list_elem_of_In in H; simpl in H; repeat (destruct H as [<-|H]); try contradiction.

Lemma sample_sizes (w : world) (src : list (string * collection)) :
  source (env w) = src → Forall (λ p, length (c_docs p.2) ≤ 5) src →
  ∀ n, length (source_docs w n) ≤ 5.
Proof.
  intros Hsrc Hall n. unfold source_docs. rewrite Hsrc.
  destruct (list_find _ src) as [[i [m c]]|] eqn:Hfind; [|simpl; lia].
  apply list_find_Some in Hfind as (Hi & _). apply list_elem_of_lookup_2 in Hi.
  rewrite Forall_forall in Hall. by apply (Hall (m, c)).
Qed.


Lemma export_leaves_target_witness :
  match final_world (copyCollections 5 export_index_options used_world) with
  | Some w' =>
      tgt_docs w' = tgt_docs used_world ∧ tgt_indexes w' = tgt_indexes used_world
      ∧ ∃ post, trace w' = trace used_world ++ post
                ∧ Forall (λ e, target_write e = false) post
  | None => False
  end.
Proof.
  destruct (final_world (copyCollections 5 export_index_options used_world)) as [w'|] eqn:E.
  - apply (export_leaves_target 5 export_index_options used_world w');
      [reflexivity..|exact E].
  - vm_compute in E. discriminate E.
Defined.


Lemma export_index_file_overwrites_witness :
  ∃ s w', copyCollections 5 export_index_options shadowed_world = Ok s w'
    ∧ files w' !! data_path export_index_options ("a" +:+ "_indexes")
      = Some (FIndexes (source_indexes shadowed_world "a")).
Proof.
  apply (export_index_file_overwrites 5 export_index_options shadowed_world ["a_indexes"] "a");
    try reflexivity.
  intros H. vm_compute in H. discriminate H.
Defined.

Lemma backup_world_restorable (n : string) :
  n ∈ resolve_collections (collections import_options)
        (map fst (source (env backup_world))) →
  source_docs backup_world n ≠ [] → restorable 5 import_options backup_world n.
Proof.
  intros Hn _. in_list Hn.
  - split; [intros H; vm_compute in H; discriminate H|].
    split; [|split; [intros H; discriminate H|vm_compute; lia]].
    split; [has_ids|]. split; by_decide.
  - split; [intros H; vm_compute in H; discriminate H|].
    split; [|split; [intros H; discriminate H|vm_compute; lia]].
    split; [has_ids|]. split; by_decide.
Qed.

Lemma import_replaces_collections_witness :
  ∃ w', copyCollections 5 import_options backup_world
        = Ok (map (import_entry import_options backup_world) ["a"; "b"]) w'
        ∧ ∀ n, target_docs w' n = imported import_options backup_world ["a"; "b"] n.
Proof.
  apply (import_replaces_collections 5 import_options backup_world); try reflexivity.
  - vm_compute. lia.
  - exact backup_world_restorable.
Defined.


Lemma full_copy_batch_zero_hangs_witness :
  copyCollections 5 (with_batchSize 0 default_options) fresh_world = Diverge.
Proof.
  apply (full_copy_batch_zero_hangs 5 (with_batchSize 0 default_options) fresh_world "a");
    try reflexivity.
  - by_decide.
  - intros H. vm_compute in H. discriminate H.
Defined.

Lemma import_batch_zero_throws_witness :
  ∃ w', process_collection 5 (with_batchSize 0 import_options) "a" restore_world
        = Throw msg_empty_batch w'
        ∧ target_docs w' "a" = []
        ∧ wrote_docs "a" restore_world w'.
Proof.
  apply (import_batch_zero_throws 5 (with_batchSize 0 import_options) "a" restore_world
           [sample_doc 99 1]); try reflexivity.
  - intros H. vm_compute in H. discriminate H.
  - intros H. discriminate H.
  - lia.
Defined.

Lemma incremental_batch_zero_is_one_witness :
  process_collection 5 (with_batchSize 0 incremental_options) "a" fresh_world
  = process_collection 5 (with_batchSize 1 (with_batchSize 0 incremental_options)) "a"
      fresh_world.
Proof.
  apply (incremental_batch_zero_is_one 5 (with_batchSize 0 incremental_options) "a"
           fresh_world); reflexivity.
Defined.

Lemma run_leaves_other_collections_witness :
  match final_world (copyCollections 5 only_b_options used_world) with
  | Some w' => target_docs w' "a" = target_docs used_world "a"
  | None => False
  end.
Proof.
  destruct (final_world (copyCollections 5 only_b_options used_world))
    as [w'|] eqn:E.
  - apply (run_leaves_other_collections 5 only_b_options used_world w' "a"); [|exact E].
    left. by_decide.
  - vm_compute in E. discriminate E.
Defined.

Lemma both_connections_closed_witness :
  match final_world (copyCollections 5 default_options fresh_world) with
  | Some w' =>
      src_open w' = false ∧ tgt_open w' = false
      ∧ ∃ mid, trace w' = trace fresh_world ++ [EvConnect Src; EvConnect Tgt] ++ mid
                            ++ [EvClose Src; EvClose Tgt]
               ∧ Forall (λ e, connection_event e = false) mid
  | None => False
  end.
Proof.
  destruct (final_world (copyCollections 5 default_options fresh_world)) as [w'|] eqn:E.
  - apply (both_connections_closed 5 default_options fresh_world w'); [reflexivity..|exact E].
  - vm_compute in E. discriminate E.
Defined.

Lemma incremental_run_syncs_witness :
  match copyCollections 5 incremental_options used_world with
  | Ok s w' =>
      ∃ k, doc_id (sample_doc 2 20) = Some k
           ∧ find_id k (target_docs w' "a") = Some (sample_doc 2 20)
  | _ => False
  end.
Proof.
  destruct (copyCollections 5 incremental_options used_world) as [s w'|msg w'|] eqn:E.
  - apply (incremental_run_syncs 5 incremental_options used_world s w');
      try reflexivity.
    + exact used_world_wf.
    + exact E.
    + by_decide.
    + by_decide.
  - vm_compute in E. discriminate E.
  - vm_compute in E. discriminate E.
Defined.


Lemma copyCollections_terminates_witness :
  ∃ w', final_world (copyCollections 5 import_options backup_world) = Some w'.
Proof.
  apply (copyCollections_terminates 5 import_options backup_world).
  - vm_compute. lia.
  - exact (sample_sizes backup_world sample_source eq_refl
             ltac:(repeat constructor; vm_compute; lia)).
  - intros _ p l Hp. change (files backup_world) with
      ({[ path_join "./backup" "a.json" := FDocs [sample_doc 2 20; sample_doc 1 10];
          path_join "./backup" "b.json" := FDocs [sample_doc 8 1] ]}
         : gmap string file) in Hp.
    apply lookup_insert_Some in Hp as [[_ Hl]|[_ Hp]].
    + injection Hl as <-. simpl. lia.
    + apply lookup_singleton_Some in Hp as [_ Hl]. injection Hl as <-. simpl. lia.
Defined.


Lemma dry_run_file_system_witness :
  match final_world (copyCollections 5 dry_export_options fresh_world) with
  | Some w' => files w' = files fresh_world ∧ dirs w' = {[ "./backup" ]} ∪ dirs fresh_world
  | None => False
  end.
Proof.
  destruct (final_world (copyCollections 5 dry_export_options fresh_world))
    as [w'|] eqn:E.
  - apply (dry_run_file_system 5 dry_export_options fresh_world w'); [reflexivity|exact E].
  - vm_compute in E. discriminate E.
Defined.

Lemma incremental_import_merges_witness :
  match process_collection 5 incremental_import_options "a" restore_world with
  | Ok e w' =>
      (NoDup (doc_id <$> [sample_doc 99 1]) →
       ∀ d, d ∈ [sample_doc 99 1] →
            ∃ k, doc_id d = Some k ∧ find_id k (target_docs w' "a") = Some d)
      ∧ (∀ k, (∀ d, d ∈ [sample_doc 99 1] → doc_id d ≠ Some k) →
              find_id k (target_docs w' "a") = find_id k (target_docs restore_world "a"))
  | _ => False
  end.
Proof.
  destruct (process_collection 5 incremental_import_options "a" restore_world)
    as [e w'|msg w'|] eqn:E.
  - apply (incremental_import_merges 5 incremental_import_options "a" restore_world
             [sample_doc 99 1] e w'); try reflexivity.
    + has_ids.
    + exact E.
    + vm_compute in E. injection E as <- _. reflexivity.
  - vm_compute in E. discriminate E.
  - vm_compute in E. discriminate E.
Defined.

Lemma unknown_collections_do_nothing_witness :
  ∃ w', copyCollections 5 unknown_options used_world = Ok [] w'
        ∧ tgt_docs w' = tgt_docs used_world ∧ tgt_indexes w' = tgt_indexes used_world
        ∧ files w' = files used_world.
Proof.
  apply (unknown_collections_do_nothing 5 unknown_options used_world ["users"]);
    try reflexivity.
  - intros H. discriminate H.
  - intros c Hc. in_list Hc. by_decide.
Defined.


Lemma parse_collections_join_witness :
  parse_collections (Some (join "," ["users"; "posts"])) = ["users"; "posts"]
  ∧ parse_collections (Some (join ", " ["users"; "posts"])) = ["users"; "posts"].
Proof.
  apply (parse_collections_join ["users"; "posts"]).
  repeat constructor; try (intros H; discriminate H); by_decide.
Defined.

Lemma cli_never_hangs_witness :
  1 ≤ batchSize (cli_engine_options sample_cli_copy (Some (JInf false)))
  ∧ ∃ code asked out w',
      cli_main 5 sample_cli_copy (Some (JInf false)) (inr true) fresh_world
      = Exit code asked out w'.
Proof.
  apply (cli_never_hangs 5 sample_cli_copy (Some (JInf false)) (inr true) fresh_world).
  - exact (sample_sizes fresh_world sample_source eq_refl
             ltac:(repeat constructor; vm_compute; lia)).
  - intros H. discriminate H.
Defined.

Lemma cli_export_leaves_target_witness :
  match cli_main 5 sample_cli None (inr true) used_world with
  | Exit code asked out w' =>
      tgt_docs w' = tgt_docs used_world ∧ tgt_indexes w' = tgt_indexes used_world
      ∧ (opt_importJson sample_cli = true → code = 1 ∧ w' = used_world)
  | Hang => False
  end.
Proof.
  destruct (cli_main 5 sample_cli None (inr true) used_world)
    as [code asked out w'|] eqn:E.
  - apply (cli_export_leaves_target 5 sample_cli None (inr true) used_world code asked out w');
      [reflexivity|exact E].
  - vm_compute in E. discriminate E.
Defined.
